(** * CGDs: Hessian-vector-product oracle and conjugate-gradient solvers

    A shallow embedding of [src/src/CGDs/cgd_utils.py]: the gradient
    vectorizer [vectorize_grad], the oracle [Hvp_vec], the two solvers
    [conjugate_gradient] and [general_conjugate_gradient], and [zero_grad].

    Modelling decisions.
    - Tensor elements are an abstract scalar type [sc] (class [Scalar]):
      floating-point arithmetic is not axiomatised, so every theorem holds
      for any interpretation of the operations.  Algebraic facts are stated
      as explicit hypotheses where a theorem needs them.
    - The solvers' vectors ([b], [x], [r], [p], the learning rates and the
      oracle's output) are one-dimensional tensors, modelled as [list sc];
      elementwise operations follow torch's broadcasting rule for
      one-dimensional operands and raise [RuntimeError] otherwise.
    - Python exceptions are values of [exn]; a computation is a function
      from the world to an outcome and the world it leaves behind, so that
      mutations performed before an exception persist, as in Python.
    - The world holds the tensor objects the caller owns ([tensors], keyed
      by object identity), the [.grad] slot of every parameter ([grads],
      an absent key being [p.grad is None]), and the log of calls made to
      external collaborators ([events]): the autograd engine, the
      distributed reducer and the warning sink.
    - torch.autograd is external.  Its per-parameter result is the section
      variable [vjp]; what is modelled of the engine itself is the
      validation of [grad_outputs] against the shape of [outputs], and that
      [autograd.backward] accumulates into [.grad] what [autograd.grad]
      returns.  The computation graph is assumed live. *)

From Stdlib Require Import ZArith QArith String.
From stdpp Require Import base gmap list strings.

Local Open Scope string_scope.
Local Open Scope list_scope.
Local Open Scope Z_scope.

(** ** Exceptions *)

Inductive exn : Type :=
| ValueError (msg : string)
| RuntimeError (msg : string)
| TypeError (msg : string)
| IndexError (msg : string)
| UnboundLocalError (var : string).

Inductive outcome (A : Type) : Type :=
| Ok (a : A)
| Raise (e : exn).
Arguments Ok {A} a.
Arguments Raise {A} e.

(** ** Scalars *)

Class Scalar : Type := {
  sc : Type;
  zero : sc;
  one : sc;
  add : sc -> sc -> sc;
  sub : sc -> sc -> sc;
  mul : sc -> sc -> sc;
  div : sc -> sc -> sc;
  neg : sc -> sc;
  sqrt : sc -> sc;
  ltb : sc -> sc -> bool;       (* [a < b]; false on NaN *)
  isnan : sc -> bool
}.

(** Object identities. *)
Definition loc := positive.
Definition pid := positive.
Definition reducer := positive.

(** A parameter: its identity and its number of elements.  Its [.grad]
    slot lives in the world. *)
Record param : Type := Param { p_id : pid; numel : nat }.

Section Tensors.
Context {S : Scalar}.

Definition vec := list sc.

(** A gradient tensor still attached to its graph: an identity for the
    engine, its shape and its (flattened) values. *)
Record gradvec : Type := GradVec { gv_id : positive; gv_shape : list nat; gv_data : vec }.

Definition zeros (n : nat) : vec := repeat zero n.

(** [torch.isnan(t).any()] *)
Definition has_nan (v : vec) : bool := existsb isnan v.

Definition size_mismatch : exn :=
  RuntimeError "The size of tensor a must match the size of tensor b".

(** [a op b] on one-dimensional tensors. *)
Definition broadcast (f : sc -> sc -> sc) (a b : vec) : outcome vec :=
  if Nat.eqb (length a) (length b) then Ok (zip_with f a b)
  else match a, b with
       | [a0], _ => Ok (map (f a0) b)
       | _, [b0] => Ok (map (fun ai => f ai b0) a)
       | _, _ => Raise size_mismatch
       end.

(** [a.op_(b)]: the result keeps the shape of [a]. *)
Definition broadcast_ (f : sc -> sc -> sc) (a b : vec) : outcome vec :=
  if Nat.eqb (length a) (length b) then Ok (zip_with f a b)
  else match b with
       | [b0] => Ok (map (fun ai => f ai b0) a)
       | _ => Raise size_mismatch
       end.

Definition tadd := broadcast add.
Definition tsub := broadcast sub.
Definition tmul := broadcast mul.
Definition add_ := broadcast_ add.
Definition mul_ := broadcast_ mul.

(** [s * v] and [v.mul(s)] for a scalar [s]. *)
Definition scale (s : sc) (v : vec) : vec := map (mul s) v.
Definition mul_scalar (v : vec) (s : sc) : vec := map (fun h => mul h s) v.

Definition dot_sum (a b : vec) : sc := fold_left add (zip_with mul a b) zero.

(** [torch.dot(a, b)] *)
Definition dot (a b : vec) : outcome sc :=
  if Nat.eqb (length a) (length b) then Ok (dot_sum a b)
  else Raise (RuntimeError "inconsistent tensor size").

(** [torch.cat(l)] of one-dimensional tensors. *)
Definition torch_cat (l : list vec) : outcome vec :=
  match l with
  | [] => Raise (ValueError "torch.cat(): expected a non-empty list of Tensors")
  | _ => Ok (concat l)
  end.

(** ** The world *)

Inductive event : Type :=
| AutogradGrad (g : positive) (ps : list param) (v : vec) (retain_graph : bool)
| AutogradBackward (g : positive) (ps : list param) (v : vec) (retain_graph : bool)
| RebuildBuckets (r : reducer)
| PrepareForBackward (r : reducer)
| Warn (msg : string) (n : Z).

Record world : Type := World {
  tensors : gmap loc vec;
  grads : gmap pid vec;
  events : list event
}.

Definition set_tensors (t : gmap loc vec) (w : world) : world :=
  World t (grads w) (events w).
Definition set_grads (g : gmap pid vec) (w : world) : world :=
  World (tensors w) g (events w).
Definition log (e : event) (w : world) : world :=
  World (tensors w) (grads w) (events w ++ [e]).

(** ** Computations *)

Definition M (A : Type) : Type := world -> outcome A * world.

Definition ret {A} (a : A) : M A := fun w => (Ok a, w).
Definition raise {A} (e : exn) : M A := fun w => (Raise e, w).
Definition lift {A} (o : outcome A) : M A := fun w => (o, w).
Definition bind {A B} (m : M A) (k : A -> M B) : M B :=
  fun w => match m w with
           | (Ok a, w') => k a w'
           | (Raise e, w') => (Raise e, w')
           end.
Definition emit (e : event) : M unit := fun w => (Ok tt, log e w).

End Tensors.

Declare Scope cg_scope.
Delimit Scope cg_scope with cg.
Notation "x <- c1 ;; c2" := (bind c1 (fun x => c2))
  (at level 100, c1 at next level, right associativity) : cg_scope.
Notation "c1 ;;; c2" := (bind c1 (fun _ => c2))
  (at level 100, right associativity) : cg_scope.
Local Open Scope cg_scope.

Section Program.
Context {S : Scalar}.

(** The autograd engine's answer for one parameter: the contraction of
    the derivative of the tensor whose graph is [g] with respect to [p]
    with the cotangent [v], or [None] when it does not depend on [p]
    ([allow_unused=True]). *)
Variable vjp : positive -> param -> vec -> option vec.

(** ** Tensor objects *)

(** Reading the value of a tensor object. *)
Definition read (l : loc) : M vec :=
  fun w => (Ok (default [] (tensors w !! l)), w).

(** In-place update of a tensor object. *)
Definition write (l : loc) (v : vec) : M unit :=
  fun w => (Ok tt, set_tensors (<[l := v]> (tensors w)) w).

(** A new tensor object. *)
Definition alloc (v : vec) : M loc :=
  fun w => let l := fresh (dom (tensors w)) in
           (Ok l, set_tensors (<[l := v]> (tensors w)) w).

(** ** Gradient buffers *)

(** The loop of [vectorize_grad]: [p.grad] is appended and deleted, an
    absent one is replaced by zeros. *)
Fixpoint vectorize_loop (params : list param) (gs : gmap pid vec) (grad_list : list vec)
  : list vec * gmap pid vec :=
  match params with
  | [] => (grad_list, gs)
  | p :: ps =>
      match gs !! p_id p with
      | Some g => vectorize_loop ps (delete (p_id p) gs) (grad_list ++ [g])
      | None => vectorize_loop ps gs (grad_list ++ [zeros (numel p)])
      end
  end.

(** The buffers left after [del p.grad] for every parameter. *)
Definition clear_grads (params : list param) (gs : gmap pid vec) : gmap pid vec :=
  foldl (fun gs p => delete (p_id p) gs) gs params.

Definition vectorize_grad (params : list param) : M vec :=
  fun w => let '(grad_list, gs) := vectorize_loop params (grads w) [] in
           (torch_cat grad_list, set_grads gs w).

(** [p.grad.zero_()] for every parameter that has a buffer. *)
Fixpoint zero_grad_loop (params : list param) (gs : gmap pid vec) : gmap pid vec :=
  match params with
  | [] => gs
  | p :: ps =>
      match gs !! p_id p with
      | Some g => zero_grad_loop ps (<[p_id p := zeros (length g)]> gs)
      | None => zero_grad_loop ps gs
      end
  end.

Definition zero_grad (params : list param) : M unit :=
  fun w => (Ok tt, set_grads (zero_grad_loop params (grads w)) w).

(** ** The autograd engine *)

(** Number of elements of a tensor of a given shape. *)
Definition shape_numel (s : list nat) : nat := foldr Nat.mul 1%nat s.

(** Both entry points of the engine reject a cotangent whose shape is not
    the shape of the differentiated tensor. *)
Definition shape_mismatch : exn :=
  RuntimeError "Mismatch in shape: grad_output[0] and output[0]".

Definition shape_eqb (s1 s2 : list nat) : bool := bool_decide (s1 = s2).

Definition check_grad_outputs (g : gradvec) (v : vec) : outcome unit :=
  if shape_eqb [length v] (gv_shape g) then Ok tt
  else Raise shape_mismatch.

(** [autograd.grad(g, params, grad_outputs=v, allow_unused=True)].  The
    engine is modelled on a graph that is alive and a list of inputs as
    the solvers pass it: what torch raises for a graph already freed, for
    a tensor without [grad_fn] or for an empty list of inputs is not part
    of the model. *)
Definition autograd_grad (g : gradvec) (params : list param) (v : vec) (retain_graph : bool)
  : M (list (option vec)) :=
  _ <- lift (check_grad_outputs g v) ;;
  _ <- emit (AutogradGrad (gv_id g) params v retain_graph) ;;
  ret (map (fun p => vjp (gv_id g) p v) params).

(** The inputs of a backward pass, each parameter once: the engine
    accumulates into a [.grad] slot once per distinct input, however
    often the list names it. *)
Fixpoint distinct_inputs (seen : list pid) (params : list param) : list param :=
  match params with
  | [] => []
  | p :: ps =>
      if bool_decide (p_id p ∈ seen) then distinct_inputs seen ps
      else p :: distinct_inputs (p_id p :: seen) ps
  end.

(** Accumulation of one pass into the [.grad] slots. *)
Fixpoint accumulate (g : gradvec) (v : vec) (params : list param) (gs : gmap pid vec)
  : outcome (gmap pid vec) :=
  match params with
  | [] => Ok gs
  | p :: ps =>
      match vjp (gv_id g) p v with
      | None => accumulate g v ps gs
      | Some c =>
          match gs !! p_id p with
          | None => accumulate g v ps (<[p_id p := c]> gs)
          | Some old =>
              match add_ old c with
              | Ok new => accumulate g v ps (<[p_id p := new]> gs)
              | Raise e => Raise e
              end
          end
      end
  end.

(** [autograd.backward(g, grad_tensors=v, inputs=params)] *)
Definition autograd_backward (g : gradvec) (v : vec) (params : list param) (retain_graph : bool)
  : M unit :=
  _ <- lift (check_grad_outputs g v) ;;
  _ <- emit (AutogradBackward (gv_id g) params v retain_graph) ;;
  fun w => match accumulate g v (distinct_inputs [] params) (grads w) with
           | Ok gs => (Ok tt, set_grads gs w)
           | Raise e => (Raise e, w)
           end.

(** ** The oracle *)

(** The loop over [enumerate(params)] of graph mode. *)
Fixpoint fill_unused (i : nat) (params : list param) (grad_grad : list (option vec))
  (grad_list : list vec) : outcome (list vec) :=
  match params with
  | [] => Ok grad_list
  | p :: ps =>
      match grad_grad !! i with
      | None => Raise (IndexError "tuple index out of range")
      | Some None => fill_unused (Datatypes.S i) ps grad_grad (grad_list ++ [zeros (numel p)])
      | Some (Some g) => fill_unused (Datatypes.S i) ps grad_grad (grad_list ++ [g])
      end
  end.

(** [grad_vec + 0.0 * trigger]: the seed of the backward pass.  A missing
    trigger makes the product a [TypeError]; a trigger contributes to the
    values only, the derivative being that of [grad_vec]. *)
Definition no_trigger : exn :=
  TypeError "unsupported operand type(s) for *: 'float' and 'NoneType'".

Definition nudge (grad_vec : gradvec) (trigger : option sc) : outcome gradvec :=
  match trigger with
  | None => Raise no_trigger
  | Some t =>
      Ok (GradVec (gv_id grad_vec) (gv_shape grad_vec)
                  (map (fun gi => add gi (mul zero t)) (gv_data grad_vec)))
  end.

(** The computation of [hvp], before the check of the result. *)
Definition Hvp_compute (grad_vec : gradvec) (params : list param) (v : vec)
  (backward retain_graph : bool) (trigger : option sc) (rd : option reducer)
  (rebuild : bool) : M vec :=
  if backward then
    _ <- zero_grad params ;;
    _ <- match rd with
         | Some r =>
             _ <- (if rebuild then emit (RebuildBuckets r) else ret tt) ;;
             emit (PrepareForBackward r)
         | None => ret tt
         end ;;
    seed <- lift (nudge grad_vec trigger) ;;
    _ <- autograd_backward seed v params retain_graph ;;
    vectorize_grad params
  else
    grad_grad <- autograd_grad grad_vec params v retain_graph ;;
    grad_list <- lift (fill_unused 0 params grad_grad []) ;;
    lift (torch_cat grad_list).

Definition Hvp_vec (grad_vec : gradvec) (params : list param) (v : vec)
  (backward retain_graph : bool) (trigger : option sc) (rd : option reducer)
  (rebuild : bool) : M vec :=
  if has_nan (gv_data grad_vec) then raise (ValueError "Gradvec nan")
  else if has_nan v then raise (ValueError "vector nan")
  else
    hvp <- Hvp_compute grad_vec params v backward retain_graph trigger rd rebuild ;;
    if has_nan hvp then raise (ValueError "hvp Nan") else ret hvp.

(** ** The solvers *)

Section Solve.
Variables (grad_x grad_y : gradvec) (x_params y_params : list param).

(** *** [conjugate_gradient] *)

(** The [for i in range(nsteps)] loop.  [fuel] is the number of indices
    left, [i] the next index and [last] the value the name [i] is bound to
    (unbound before the first iteration).  The result is the binding of
    [i] when the loop is left. *)
Fixpoint cg_loop (x : loc) (residual_tol atol lr_x lr_y : sc)
  (fuel : nat) (i : Z) (last : option Z) (r p : vec) (rdotr : sc) : M (option Z) :=
  match fuel with
  | O => ret last
  | Datatypes.S fuel' =>
      h_1 <- Hvp_vec grad_x y_params p false true None None false ;;
      let h_1 := mul_scalar h_1 lr_y in
      h_2 <- Hvp_vec grad_y x_params h_1 false true None None false ;;
      let h_2 := mul_scalar h_2 lr_x in
      Avp_ <- lift (tadd p h_2) ;;
      pAvp <- lift (dot p Avp_) ;;
      let alpha := div rdotr pAvp in
      xv <- read x ;;
      xv' <- lift (add_ xv (scale alpha p)) ;;
      _ <- write x xv' ;;
      r <- lift (add_ r (scale (neg alpha) Avp_)) ;;
      new_rdotr <- lift (dot r r) ;;
      let beta := div new_rdotr rdotr in
      p <- lift (tadd r (scale beta p)) ;;
      let rdotr := new_rdotr in
      if ltb rdotr residual_tol || ltb rdotr atol then ret (Some i)
      else cg_loop x residual_tol atol lr_x lr_y fuel' (i + 1) (Some i) r p rdotr
  end.

(** Initialisation: the solution tensor, the residual and the number of
    steps left. *)
Definition cg_init (b : loc) (x : option loc) (nsteps : option Z) (lr_x lr_y : sc)
  : M (loc * vec * Z) :=
  bv <- read b ;;
  let nsteps := default (Z.of_nat (length bv)) nsteps in
  match x with
  | None =>
      x <- alloc (zeros (length bv)) ;;
      r <- read b ;;
      ret (x, r, nsteps)
  | Some x =>
      xv <- read x ;;
      h1 <- Hvp_vec grad_x y_params xv false true None None false ;;
      let h1 := mul_scalar h1 lr_y in
      h2 <- Hvp_vec grad_y x_params h1 false true None None false ;;
      let h2 := mul_scalar h2 lr_x in
      xv <- read x ;;
      Avx <- lift (tadd xv h2) ;;
      bv <- read b ;;
      r <- lift (tsub bv Avx) ;;
      ret (x, r, nsteps - 1)
  end.

(** The convergence test, the loop and the return value. *)
Definition cg_rest (x : loc) (r : vec) (nsteps : Z) (b : loc) (tol atol lr_x lr_y : sc)
  : M (loc * Z) :=
  let p := r in
  rdotr <- lift (dot r r) ;;
  bv <- read b ;;
  bb <- lift (dot bv bv) ;;
  let residual_tol := mul tol bb in
  if ltb rdotr residual_tol || ltb rdotr atol then ret (x, 1)
  else
    last <- cg_loop x residual_tol atol lr_x lr_y (Z.to_nat nsteps) 0 None r p rdotr ;;
    match last with
    | None => raise (UnboundLocalError "i")
    | Some i =>
        _ <- (if 99 <? i then emit (Warn "CG iter num: %d" (i + 1)) else ret tt) ;;
        ret (x, i + 1)
    end.

Definition conjugate_gradient (b : loc) (x : option loc) (nsteps : option Z)
  (tol atol lr_x lr_y : sc) : M (loc * Z) :=
  init <- cg_init b x nsteps lr_x lr_y ;;
  let '(x, r, nsteps) := init in
  cg_rest x r nsteps b tol atol lr_x lr_y.

(** *** [general_conjugate_gradient] *)

Section General.
Variables (trigger : option sc) (x_reducer y_reducer : option reducer)
  (rebuild backward : bool).

(** [lr_x] is the square root of the caller's [lr_x] here, as in the
    source after its first statement. *)
Fixpoint general_loop (x : loc) (residual_tol atol : sc) (lr_x lr_y : vec)
  (fuel : nat) (i : Z) (last : option Z) (r p : vec) (rdotr : sc) : M (option Z) :=
  match fuel with
  | O => ret last
  | Datatypes.S fuel' =>
      v <- lift (tmul lr_x p) ;;
      h_1 <- Hvp_vec grad_x y_params v backward true trigger y_reducer rebuild ;;
      h_1 <- lift (mul_ h_1 lr_y) ;;
      h_2 <- Hvp_vec grad_y x_params h_1 backward true trigger x_reducer rebuild ;;
      h_2 <- lift (mul_ h_2 lr_x) ;;
      Avp_ <- lift (tadd p h_2) ;;
      pAvp <- lift (dot p Avp_) ;;
      let alpha := div rdotr pAvp in
      xv <- read x ;;
      xv' <- lift (add_ xv (scale alpha p)) ;;
      _ <- write x xv' ;;
      r <- lift (add_ r (scale (neg alpha) Avp_)) ;;
      new_rdotr <- lift (dot r r) ;;
      let beta := div new_rdotr rdotr in
      let rdotr := new_rdotr in
      if ltb rdotr residual_tol || ltb rdotr atol then ret (Some i)
      else
        p <- lift (tadd r (scale beta p)) ;;
        general_loop x residual_tol atol lr_x lr_y fuel' (i + 1) (Some i) r p rdotr
  end.

(** Initialisation; [lr_x] is already the square root. *)
Definition general_init (b : loc) (lr_x lr_y : vec) (x : option loc) (nsteps : option Z)
  : M (loc * vec * Z) :=
  bv <- read b ;;
  let nsteps := default (Z.of_nat (length bv)) nsteps in
  match x with
  | None =>
      x <- alloc (zeros (length bv)) ;;
      r <- read b ;;
      ret (x, r, nsteps)
  | Some x =>
      xv <- read x ;;
      v <- lift (tmul lr_x xv) ;;
      h1 <- Hvp_vec grad_x y_params v backward true trigger y_reducer rebuild ;;
      h1 <- lift (mul_ h1 lr_y) ;;
      h2 <- Hvp_vec grad_y x_params h1 backward true trigger x_reducer rebuild ;;
      h2 <- lift (mul_ h2 lr_x) ;;
      xv <- read x ;;
      Avx <- lift (tadd xv h2) ;;
      bv <- read b ;;
      r <- lift (tsub bv Avx) ;;
      ret (x, r, nsteps - 1)
  end.

(** The shape check, the convergence test, the loop and the return
    value. *)
Definition general_rest (x : loc) (r : vec) (nsteps : Z) (b : loc) (tol atol : sc)
  (lr_x lr_y : vec) : M (loc * Z) :=
  bv <- read b ;;
  if negb (shape_eqb (gv_shape grad_x) [length bv])
  then raise (RuntimeError "CG: hessian vector product shape mismatch")
  else
    let p := r in
    rdotr <- lift (dot r r) ;;
    bv <- read b ;;
    bb <- lift (dot bv bv) ;;
    let residual_tol := mul tol bb in
    if ltb rdotr residual_tol || ltb rdotr atol then ret (x, 1)
    else
      last <- general_loop x residual_tol atol lr_x lr_y (Z.to_nat nsteps) 0 None r p rdotr ;;
      match last with
      | None => raise (UnboundLocalError "i")
      | Some i =>
          _ <- (if 100 <? i then emit (Warn "CG iter num: %d" (i + 1)) else ret tt) ;;
          ret (x, i + 1)
      end.

Definition general_conjugate_gradient (b : loc) (lr_x lr_y : vec)
  (x : option loc) (nsteps : option Z) (tol atol : sc) : M (loc * Z) :=
  let lr_x := map sqrt lr_x in
  init <- general_init b lr_x lr_y x nsteps ;;
  let '(x, r, nsteps) := init in
  general_rest x r nsteps b tol atol lr_x lr_y.

(** *** One operator application of the code

    The statements the warm start and every iteration run to apply the
    operator to [p] (lines 170-180 and 232-242), with [lr_x] and [lr_y]
    as the caller passes them: [lr_x * p] after [lr_x = lr_x.sqrt()],
    the in-place [.mul_(lr_y)] and [.mul_(lr_x)] of the two answers of
    the oracle, and [p + h_2]. *)
Definition general_operator (lr_x lr_y : vec) (p : vec) : M vec :=
  scaled <- lift (tmul (map sqrt lr_x) p) ;;
  d_yx <- Hvp_vec grad_x y_params scaled backward true trigger y_reducer rebuild ;;
  inner <- lift (mul_ d_yx lr_y) ;;
  d_xy <- Hvp_vec grad_y x_params inner backward true trigger x_reducer rebuild ;;
  outer <- lift (mul_ d_xy (map sqrt lr_x)) ;;
  lift (tadd p outer).

(** Conjugate gradient over an operator [A] given as a black box: the
    algorithm of the preconditioned variant with every operator
    application replaced by a call of [A]. *)
Fixpoint operator_loop (A : vec -> M vec) (x : loc) (residual_tol atol : sc)
  (fuel : nat) (i : Z) (last : option Z) (r p : vec) (rdotr : sc) : M (option Z) :=
  match fuel with
  | O => ret last
  | Datatypes.S fuel' =>
      Avp_ <- A p ;;
      pAvp <- lift (dot p Avp_) ;;
      let alpha := div rdotr pAvp in
      xv <- read x ;;
      xv' <- lift (add_ xv (scale alpha p)) ;;
      _ <- write x xv' ;;
      r <- lift (add_ r (scale (neg alpha) Avp_)) ;;
      new_rdotr <- lift (dot r r) ;;
      let beta := div new_rdotr rdotr in
      let rdotr := new_rdotr in
      if ltb rdotr residual_tol || ltb rdotr atol then ret (Some i)
      else
        p <- lift (tadd r (scale beta p)) ;;
        operator_loop A x residual_tol atol fuel' (i + 1) (Some i) r p rdotr
  end.

Definition operator_init (A : vec -> M vec) (b : loc) (x : option loc) (nsteps : option Z)
  : M (loc * vec * Z) :=
  bv <- read b ;;
  let nsteps := default (Z.of_nat (length bv)) nsteps in
  match x with
  | None =>
      x <- alloc (zeros (length bv)) ;;
      r <- read b ;;
      ret (x, r, nsteps)
  | Some x =>
      xv <- read x ;;
      Avx <- A xv ;;
      bv <- read b ;;
      r <- lift (tsub bv Avx) ;;
      ret (x, r, nsteps - 1)
  end.

Definition operator_rest (A : vec -> M vec) (x : loc) (r : vec) (nsteps : Z) (b : loc)
  (tol atol : sc) : M (loc * Z) :=
  bv <- read b ;;
  if negb (shape_eqb (gv_shape grad_x) [length bv])
  then raise (RuntimeError "CG: hessian vector product shape mismatch")
  else
    rdotr <- lift (dot r r) ;;
    bv <- read b ;;
    bb <- lift (dot bv bv) ;;
    let residual_tol := mul tol bb in
    if ltb rdotr residual_tol || ltb rdotr atol then ret (x, 1)
    else
      last <- operator_loop A x residual_tol atol (Z.to_nat nsteps) 0 None r r rdotr ;;
      match last with
      | None => raise (UnboundLocalError "i")
      | Some i =>
          _ <- (if 100 <? i then emit (Warn "CG iter num: %d" (i + 1)) else ret tt) ;;
          ret (x, i + 1)
      end.

Definition operator_cg (A : vec -> M vec) (b : loc)
  (x : option loc) (nsteps : option Z) (tol atol : sc) : M (loc * Z) :=
  init <- operator_init A b x nsteps ;;
  let '(x, r, nsteps) := init in
  operator_rest A x r nsteps b tol atol.

End General.
End Solve.
End Program.

(** ** The older file

    [src/CGDs/cgd_utils.py] is an earlier version of the same functions:
    its oracle has graph mode only, its solvers take a [device] for the
    zero start (devices are not modelled), and the loop of its
    [general_conjugate_gradient] updates [p] before the convergence
    test. *)

Module Legacy.
Section Program.
Context {S : Scalar}.
Variable vjp : positive -> param -> vec -> option vec.

Definition Hvp_vec (grad_vec : gradvec) (params : list param) (v : vec)
  (retain_graph : bool) : M vec :=
  if has_nan (gv_data grad_vec) then raise (ValueError "Gradvec nan")
  else if has_nan v then raise (ValueError "vector nan")
  else
    grad_grad <- autograd_grad vjp grad_vec params v retain_graph ;;
    grad_list <- lift (fill_unused 0 params grad_grad []) ;;
    hvp <- lift (torch_cat grad_list) ;;
    if has_nan hvp then raise (ValueError "hvp Nan") else ret hvp.

Definition zero_grad (params : list param) : M unit :=
  fun w => (Ok tt, set_grads (zero_grad_loop params (grads w)) w).

Section Solve.
Variables (grad_x grad_y : gradvec) (x_params y_params : list param).

Fixpoint cg_loop (x : loc) (residual_tol atol lr_x lr_y : sc)
  (fuel : nat) (i : Z) (last : option Z) (r p : vec) (rdotr : sc) : M (option Z) :=
  match fuel with
  | O => ret last
  | Datatypes.S fuel' =>
      h_1 <- Hvp_vec grad_x y_params p true ;;
      let h_1 := mul_scalar h_1 lr_y in
      h_2 <- Hvp_vec grad_y x_params h_1 true ;;
      let h_2 := mul_scalar h_2 lr_x in
      Avp_ <- lift (tadd p h_2) ;;
      pAvp <- lift (dot p Avp_) ;;
      let alpha := div rdotr pAvp in
      xv <- read x ;;
      xv' <- lift (add_ xv (scale alpha p)) ;;
      _ <- write x xv' ;;
      r <- lift (add_ r (scale (neg alpha) Avp_)) ;;
      new_rdotr <- lift (dot r r) ;;
      let beta := div new_rdotr rdotr in
      p <- lift (tadd r (scale beta p)) ;;
      let rdotr := new_rdotr in
      if ltb rdotr residual_tol || ltb rdotr atol then ret (Some i)
      else cg_loop x residual_tol atol lr_x lr_y fuel' (i + 1) (Some i) r p rdotr
  end.

Definition conjugate_gradient (b : loc) (x : option loc) (nsteps : option Z)
  (tol atol lr_x lr_y : sc) : M (loc * Z) :=
  bv <- read b ;;
  let nsteps := default (Z.of_nat (length bv)) nsteps in
  init <- match x with
          | None =>
              x <- alloc (zeros (length bv)) ;;
              r <- read b ;;
              ret (x, r, nsteps)
          | Some x =>
              xv <- read x ;;
              h1 <- Hvp_vec grad_x y_params xv true ;;
              let h1 := mul_scalar h1 lr_y in
              h2 <- Hvp_vec grad_y x_params h1 true ;;
              let h2 := mul_scalar h2 lr_x in
              xv <- read x ;;
              Avx <- lift (tadd xv h2) ;;
              bv <- read b ;;
              r <- lift (tsub bv Avx) ;;
              ret (x, r, nsteps - 1)
          end ;;
  let '(x, r, nsteps) := init in
  let p := r in
  rdotr <- lift (dot r r) ;;
  bv <- read b ;;
  bb <- lift (dot bv bv) ;;
  let residual_tol := mul tol bb in
  if ltb rdotr residual_tol || ltb rdotr atol then ret (x, 1)
  else
    last <- cg_loop x residual_tol atol lr_x lr_y (Z.to_nat nsteps) 0 None r p rdotr ;;
    match last with
    | None => raise (UnboundLocalError "i")
    | Some i =>
        _ <- (if 99 <? i then emit (Warn "CG iter num: %d" (i + 1)) else ret tt) ;;
        ret (x, i + 1)
    end.

(** [lr_x] is already the square root. *)
Fixpoint general_loop (x : loc) (residual_tol atol : sc) (lr_x lr_y : vec)
  (fuel : nat) (i : Z) (last : option Z) (r p : vec) (rdotr : sc) : M (option Z) :=
  match fuel with
  | O => ret last
  | Datatypes.S fuel' =>
      v <- lift (tmul lr_x p) ;;
      h_1 <- Hvp_vec grad_x y_params v true ;;
      h_1 <- lift (mul_ h_1 lr_y) ;;
      h_2 <- Hvp_vec grad_y x_params h_1 true ;;
      h_2 <- lift (mul_ h_2 lr_x) ;;
      Avp_ <- lift (tadd p h_2) ;;
      pAvp <- lift (dot p Avp_) ;;
      let alpha := div rdotr pAvp in
      xv <- read x ;;
      xv' <- lift (add_ xv (scale alpha p)) ;;
      _ <- write x xv' ;;
      r <- lift (add_ r (scale (neg alpha) Avp_)) ;;
      new_rdotr <- lift (dot r r) ;;
      let beta := div new_rdotr rdotr in
      p <- lift (tadd r (scale beta p)) ;;
      let rdotr := new_rdotr in
      if ltb rdotr residual_tol || ltb rdotr atol then ret (Some i)
      else general_loop x residual_tol atol lr_x lr_y fuel' (i + 1) (Some i) r p rdotr
  end.

Definition general_conjugate_gradient (b : loc) (lr_x lr_y : vec)
  (x : option loc) (nsteps : option Z) (tol atol : sc) : M (loc * Z) :=
  let lr_x := map sqrt lr_x in
  bv <- read b ;;
  let nsteps := default (Z.of_nat (length bv)) nsteps in
  init <- match x with
          | None =>
              x <- alloc (zeros (length bv)) ;;
              r <- read b ;;
              ret (x, r, nsteps)
          | Some x =>
              xv <- read x ;;
              v <- lift (tmul lr_x xv) ;;
              h1 <- Hvp_vec grad_x y_params v true ;;
              h1 <- lift (mul_ h1 lr_y) ;;
              h2 <- Hvp_vec grad_y x_params h1 true ;;
              h2 <- lift (mul_ h2 lr_x) ;;
              xv <- read x ;;
              Avx <- lift (tadd xv h2) ;;
              bv <- read b ;;
              r <- lift (tsub bv Avx) ;;
              ret (x, r, nsteps - 1)
          end ;;
  let '(x, r, nsteps) := init in
  bv <- read b ;;
  if negb (shape_eqb (gv_shape grad_x) [length bv])
  then raise (RuntimeError "CG: hessian vector product shape mismatch")
  else
    let p := r in
    rdotr <- lift (dot r r) ;;
    bv <- read b ;;
    bb <- lift (dot bv bv) ;;
    let residual_tol := mul tol bb in
    if ltb rdotr residual_tol || ltb rdotr atol then ret (x, 1)
    else
      last <- general_loop x residual_tol atol lr_x lr_y (Z.to_nat nsteps) 0 None r p rdotr ;;
      match last with
      | None => raise (UnboundLocalError "i")
      | Some i =>
          _ <- (if 100 <? i then emit (Warn "CG iter num: %d" (i + 1)) else ret tt) ;;
          ret (x, i + 1)
      end.

End Solve.
End Program.
End Legacy.

(** ** Vocabulary of the properties *)

Section Vocabulary.
Context {S : Scalar}.
Variable vjp : positive -> param -> vec -> option vec.

(** A computation that leaves the caller's tensor objects alone. *)
Definition keeps_tensors {A} (m : M A) : Prop :=
  forall w, tensors (m w).2 = tensors w.

(** What [vectorize_grad] reads for a parameter: its buffer, or zeros. *)
Definition grad_or_zeros (gs : gmap pid vec) (p : param) : vec :=
  default (zeros (numel p)) (gs !! p_id p).

(** The vector graph mode assembles from the engine's answers. *)
Definition graph_blocks (g : gradvec) (ps : list param) (v : vec) : list vec :=
  map (fun p => default (zeros (numel p)) (vjp (gv_id g) p v)) ps.

(** An engine whose answers have the size of the parameter. *)
Definition engine_sized : Prop :=
  forall g p v c, vjp g p v = Some c -> length c = numel p.

(** A computation that writes to no tensor object but [x]. *)
Definition touches_only {A} (x : loc) (m : M A) : Prop :=
  forall w l, l <> x -> tensors (m w).2 !! l = tensors w !! l.

(** A solve whose result, if any, is the tensor object [x]. *)
Definition returns (x : loc) (m : M (loc * Z)) : Prop :=
  forall w res n w', m w = (Ok (res, n), w') -> res = x.

(** What a solve started in [w] with right-hand side [b] and warm start
    [x] may change: [b] keeps its value, and so does every tensor object
    of [w] other than the warm start; the result is the warm start
    itself, or an object that did not exist in [w]. *)
Definition solve_frame (b : loc) (x : option loc) (w : world) (m : M (loc * Z)) : Prop :=
  forall o w', m w = (o, w') ->
    tensors w' !! b = tensors w !! b
    /\ (forall l, is_Some (tensors w !! l) -> x <> Some l -> tensors w' !! l = tensors w !! l)
    /\ (forall res n, o = Ok (res, n) ->
          match x with
          | Some x0 => res = x0
          | None => tensors w !! res = None
          end).

(** The convergence test both solvers apply to [rdotr]. *)
Definition converged (b : loc) (w : world) (r : vec) (tol atol : sc) : bool :=
  let bv := default [] (tensors w !! b) in
  ltb (dot_sum r r) (mul tol (dot_sum bv bv)) || ltb (dot_sum r r) atol.

(** Two runs that end alike: the same result or exception, the same
    tensor objects and the same gradient buffers. *)
Definition alike {A} (r1 r2 : outcome A * world) : Prop :=
  r1.1 = r2.1 /\ tensors r1.2 = tensors r2.2 /\ grads r1.2 = grads r2.2.

(** Gradient buffers that have the size of their parameter. *)
Definition buffers_sized (ps : list param) (gs : gmap pid vec) : Prop :=
  forall p g, p ∈ ps -> gs !! p_id p = Some g -> length g = numel p.

(** A computation that leaves every gradient buffer alone. *)
Definition keeps_grads {A} (m : M A) : Prop :=
  forall w, grads (m w).2 = grads w.

(** One operator application for a warm start, none for a cold one. *)
Definition warm (x : option loc) : nat :=
  match x with Some _ => 1%nat | None => 0%nat end.

(** Calls of [autograd.grad] in the log. *)
Definition is_grad_call (e : event) : bool :=
  match e with AutogradGrad _ _ _ _ => true | _ => false end.

(** The warning either solver may end with. *)
Definition slow_warning (threshold c : Z) : list event :=
  if threshold <? c then [Warn "CG iter num: %d" c] else [].

(** The events accumulation mode logs for one call. *)
Definition accumulation_events (g : gradvec) (ps : list param) (v : vec) (rg : bool)
  (rd : option reducer) (rb : bool) : list event :=
  match rd with
  | Some r => (if rb then [RebuildBuckets r] else []) ++ [PrepareForBackward r]
  | None => []
  end ++ [AutogradBackward (gv_id g) ps v rg].

(** The tensor object [x] has [n] elements. *)
Definition sized (x : loc) (n : nat) (w : world) : Prop :=
  length (default [] (tensors w !! x)) = n.

(** A computation that keeps the number of elements of [x]. *)
Definition keeps_size {A} (x : loc) (n : nat) (m : M A) : Prop :=
  forall w, sized x n w -> sized x n (m w).2.

(** The size of the solution of a solve started in [w]: a warm start
    keeps its size however the solve ends; the solution of a cold start
    has the size of [b]. *)
Definition size_kept (b : loc) (x : option loc) (w : world) (m : M (loc * Z)) : Prop :=
  match x with
  | Some x0 =>
      forall o w', m w = (o, w') ->
        length (default [] (tensors w' !! x0)) = length (default [] (tensors w !! x0))
  | None =>
      forall x' c w', m w = (Ok (x', c), w') ->
        length (default [] (tensors w' !! x')) = length (default [] (tensors w !! b))
  end.

(** The steps a solve has left after its initialisation. *)
Definition steps_left (b : loc) (x : option loc) (nsteps : option Z) (w : world) : Z :=
  default (Z.of_nat (length (default [] (tensors w !! b)))) nsteps - Z.of_nat (warm x).

(** Elementwise combination of two one-dimensional tensors, as the
    formulas of the specification mean [*] and [+]: a one-element tensor
    stands for its element at every position of the other operand. *)
Definition expand (n : nat) (a : vec) : vec :=
  match a with
  | [a0] => repeat a0 n
  | _ => a
  end.

Definition elementwise (f : sc -> sc -> sc) (a b : vec) : vec :=
  zip_with f (expand (length b) a) (expand (length a) b).

(** The operator of the specification, from its formula
    [A(p) = p + sqrt(lr_x) * Hvp(grad_y, x_params, lr_y * Hvp(grad_x, y_params, sqrt(lr_x) * p))],
    with [lr_x] and [lr_y] as the caller passes them. *)
Definition spec_operator (grad_x grad_y : gradvec) (x_params y_params : list param)
  (trigger : option sc) (x_reducer y_reducer : option reducer) (rebuild backward : bool)
  (lr_x lr_y p : vec) : M vec :=
  bind (Hvp_vec vjp grad_x y_params (elementwise mul (map sqrt lr_x) p)
          backward true trigger y_reducer rebuild) (fun d_yx =>
  bind (Hvp_vec vjp grad_y x_params (elementwise mul lr_y d_yx)
          backward true trigger x_reducer rebuild) (fun d_xy =>
  ret (elementwise add p (elementwise mul (map sqrt lr_x) d_xy)))).

(** *** The iterates as values

    The solvers from a warm start whose content is [xv], with the
    iterate handed on as a value instead of being stored in a tensor
    object: every iteration gives the next iterate [xv + alpha * p]
    (elementwise), the result is the last iterate with the count, and no
    tensor object is written. *)
Section Iterates.
Variables (grad_x grad_y : gradvec) (x_params y_params : list param).

Fixpoint cg_value_loop (xv : vec) (residual_tol atol lr_x lr_y : sc)
  (fuel : nat) (i : Z) (last : option Z) (r p : vec) (rdotr : sc) : M (option Z * vec) :=
  match fuel with
  | O => ret (last, xv)
  | Datatypes.S fuel' =>
      h_1 <- Hvp_vec vjp grad_x y_params p false true None None false ;;
      let h_1 := mul_scalar h_1 lr_y in
      h_2 <- Hvp_vec vjp grad_y x_params h_1 false true None None false ;;
      let h_2 := mul_scalar h_2 lr_x in
      Avp_ <- lift (tadd p h_2) ;;
      pAvp <- lift (dot p Avp_) ;;
      let alpha := div rdotr pAvp in
      let xv := elementwise add xv (scale alpha p) in
      r <- lift (add_ r (scale (neg alpha) Avp_)) ;;
      new_rdotr <- lift (dot r r) ;;
      let beta := div new_rdotr rdotr in
      p <- lift (tadd r (scale beta p)) ;;
      let rdotr := new_rdotr in
      if ltb rdotr residual_tol || ltb rdotr atol then ret (Some i, xv)
      else cg_value_loop xv residual_tol atol lr_x lr_y fuel' (i + 1) (Some i) r p rdotr
  end.

Definition cg_values (b : loc) (xv : vec) (nsteps : option Z) (tol atol lr_x lr_y : sc)
  : M (vec * Z) :=
  bv <- read b ;;
  let nsteps := default (Z.of_nat (length bv)) nsteps in
  h1 <- Hvp_vec vjp grad_x y_params xv false true None None false ;;
  let h1 := mul_scalar h1 lr_y in
  h2 <- Hvp_vec vjp grad_y x_params h1 false true None None false ;;
  let h2 := mul_scalar h2 lr_x in
  Avx <- lift (tadd xv h2) ;;
  bv <- read b ;;
  r <- lift (tsub bv Avx) ;;
  let nsteps := nsteps - 1 in
  rdotr <- lift (dot r r) ;;
  bv <- read b ;;
  bb <- lift (dot bv bv) ;;
  let residual_tol := mul tol bb in
  if ltb rdotr residual_tol || ltb rdotr atol then ret (xv, 1)
  else
    res <- cg_value_loop xv residual_tol atol lr_x lr_y (Z.to_nat nsteps) 0 None r r rdotr ;;
    match res.1 with
    | None => raise (UnboundLocalError "i")
    | Some i =>
        _ <- (if 99 <? i then emit (Warn "CG iter num: %d" (i + 1)) else ret tt) ;;
        ret (res.2, i + 1)
    end.

Section GeneralIterates.
Variables (trigger : option sc) (x_reducer y_reducer : option reducer)
  (rebuild backward : bool).

(** [lr_x] is already the square root. *)
Fixpoint general_value_loop (xv : vec) (residual_tol atol : sc) (lr_x lr_y : vec)
  (fuel : nat) (i : Z) (last : option Z) (r p : vec) (rdotr : sc) : M (option Z * vec) :=
  match fuel with
  | O => ret (last, xv)
  | Datatypes.S fuel' =>
      v <- lift (tmul lr_x p) ;;
      h_1 <- Hvp_vec vjp grad_x y_params v backward true trigger y_reducer rebuild ;;
      h_1 <- lift (mul_ h_1 lr_y) ;;
      h_2 <- Hvp_vec vjp grad_y x_params h_1 backward true trigger x_reducer rebuild ;;
      h_2 <- lift (mul_ h_2 lr_x) ;;
      Avp_ <- lift (tadd p h_2) ;;
      pAvp <- lift (dot p Avp_) ;;
      let alpha := div rdotr pAvp in
      let xv := elementwise add xv (scale alpha p) in
      r <- lift (add_ r (scale (neg alpha) Avp_)) ;;
      new_rdotr <- lift (dot r r) ;;
      let beta := div new_rdotr rdotr in
      let rdotr := new_rdotr in
      if ltb rdotr residual_tol || ltb rdotr atol then ret (Some i, xv)
      else
        p <- lift (tadd r (scale beta p)) ;;
        general_value_loop xv residual_tol atol lr_x lr_y fuel' (i + 1) (Some i) r p rdotr
  end.

Definition general_values (b : loc) (xv : vec) (lr_x lr_y : vec) (nsteps : option Z)
  (tol atol : sc) : M (vec * Z) :=
  let lr_x := map sqrt lr_x in
  bv <- read b ;;
  let nsteps := default (Z.of_nat (length bv)) nsteps in
  v <- lift (tmul lr_x xv) ;;
  h1 <- Hvp_vec vjp grad_x y_params v backward true trigger y_reducer rebuild ;;
  h1 <- lift (mul_ h1 lr_y) ;;
  h2 <- Hvp_vec vjp grad_y x_params h1 backward true trigger x_reducer rebuild ;;
  h2 <- lift (mul_ h2 lr_x) ;;
  Avx <- lift (tadd xv h2) ;;
  bv <- read b ;;
  r <- lift (tsub bv Avx) ;;
  let nsteps := nsteps - 1 in
  bv <- read b ;;
  if negb (shape_eqb (gv_shape grad_x) [length bv])
  then raise (RuntimeError "CG: hessian vector product shape mismatch")
  else
    rdotr <- lift (dot r r) ;;
    bv <- read b ;;
    bb <- lift (dot bv bv) ;;
    let residual_tol := mul tol bb in
    if ltb rdotr residual_tol || ltb rdotr atol then ret (xv, 1)
    else
      res <- general_value_loop xv residual_tol atol lr_x lr_y (Z.to_nat nsteps) 0 None r r
               rdotr ;;
      match res.1 with
      | None => raise (UnboundLocalError "i")
      | Some i =>
          _ <- (if 100 <? i then emit (Warn "CG iter num: %d" (i + 1)) else ret tt) ;;
          ret (res.2, i + 1)
      end.

End GeneralIterates.
End Iterates.

(** The world with the content of the tensor object [x] replaced. *)
Definition put (x : loc) (v : vec) (w : world) : world :=
  set_tensors (<[x := v]> (tensors w)) w.

(** A computation that neither reads nor writes the tensor object [x]. *)
Definition oblivious_at {A} (x : loc) (m : M A) : Prop :=
  forall v w, m (put x v w) = ((m w).1, put x v (m w).2).

(** [c], run with the content [xv] in the tensor object [x], returns what
    the value computation [cv] returns, and leaves in [x] the value that
    [cv] hands back. *)
Definition stores {B C} (x : loc) (xv : vec) (c : M B) (cv : M C) (f : C -> B * vec)
  : Prop :=
  forall w o w1,
    c (put x xv w) = (Ok o, w1) ->
    exists r w', cv w = (Ok r, w') /\ o = (f r).1 /\ w1 = put x (f r).2 w'.

(** A solve from the warm start [x0] that is done in place: the result is
    the object [x0] itself, and what it holds after the solve is the last
    iterate of the algorithm started from what it held before. *)
Definition in_place (x0 : loc) (w : world) (m : M (loc * Z))
  (values : vec -> M (vec * Z)) : Prop :=
  forall xv res c w',
    tensors w !! x0 = Some xv ->
    m w = (Ok (res, c), w') ->
    res = x0
    /\ exists xf, tensors w' !! x0 = Some xf /\ (values xv w).1 = Ok (xf, c).

(** The three errors [Hvp_vec] raises itself. *)
Definition own_error (e : exn) : Prop :=
  e = ValueError "Gradvec nan" \/ e = ValueError "vector nan" \/ e = ValueError "hvp Nan".

(** A computation that raises none of them. *)
Definition raises_foreign {A} (m : M A) : Prop :=
  forall w e w', m w = (Raise e, w') -> ~ own_error e.

End Vocabulary.

(** ** An exact interpretation of the scalars

    Rationals with one NaN, used to run the model on concrete inputs.
    Division by zero and the square root of a negative number give NaN;
    the square root is exact on squares of integers. *)

Module Exact.

Inductive num : Type := Fin (q : Q) | NaN.

Definition lift2 (f : Q -> Q -> Q) (a b : num) : num :=
  match a, b with
  | Fin x, Fin y => Fin (f x y)
  | _, _ => NaN
  end.

Definition ndiv (a b : num) : num :=
  match a, b with
  | Fin x, Fin y => if (Qnum y =? 0)%Z then NaN else Fin (Qdiv x y)
  | _, _ => NaN
  end.

Definition nneg (a : num) : num :=
  match a with Fin x => Fin (Qopp x) | NaN => NaN end.

Definition nsqrt (a : num) : num :=
  match a with
  | Fin (n # d) => if (n <? 0)%Z then NaN else Fin (Z.sqrt n # Pos.sqrt d)
  | NaN => NaN
  end.

Definition nltb (a b : num) : bool :=
  match a, b with
  | Fin x, Fin y => (Qnum x * QDen y <? Qnum y * QDen x)%Z
  | _, _ => false
  end.

Definition nisnan (a : num) : bool :=
  match a with NaN => true | Fin _ => false end.

#[export] Instance exact : Scalar := {|
  sc := num;
  zero := Fin 0;
  one := Fin 1;
  add := lift2 Qplus;
  sub := lift2 Qminus;
  mul := lift2 Qmult;
  div := ndiv;
  neg := nneg;
  sqrt := nsqrt;
  ltb := nltb;
  isnan := nisnan
|}.

(** The two-player game [f(x, y) = x . y] with one parameter tensor of
    [n] elements per player: [grad_x = y], [grad_y = x], and both cross
    derivatives are the identity.  Parameter 1 is [x], parameter 2 is
    [y]; the gradient with identity 1 is [grad_x], the one with identity
    2 is [grad_y]. *)
Definition bilinear (g : positive) (p : param) (v : vec) : option vec :=
  if bool_decide (g = 1%positive /\ p_id p = 2%positive) then Some (resize (numel p) zero v)
  else if bool_decide (g = 2%positive /\ p_id p = 1%positive) then Some (resize (numel p) zero v)
  else None.

Definition px (n : nat) : param := Param 1%positive n.
Definition py (n : nat) : param := Param 2%positive n.
Definition gx (y : vec) : gradvec := GradVec 1%positive [length y] y.
Definition gy (x : vec) : gradvec := GradVec 2%positive [length x] x.

(** A world with the tensor objects [1 := b] and [2 := x0]. *)
Definition world0 (b x0 : vec) : world :=
  World (<[2%positive := x0]> {[1%positive := b]}) ∅ [].

(** Inputs of the concrete runs. *)

Definition nums (l : list Z) : vec := map (fun z => Fin (inject_Z z)) l.
Definition tol10 : num := Fin (1 # 10000000000).
Definition atol16 : num := Fin (1 # 10000000000000000).

(** An engine whose every answer is NaN. *)
Definition blowup (g : positive) (p : param) (v : vec) : option vec :=
  Some (repeat NaN (numel p)).

(** The game of the specification's example grown to any size: [x] and
    [y] have one parameter tensor each. *)
Definition g1 : gradvec := gx (nums [3]).
Definition g2 : gradvec := gy (nums [2]).

(** A right-hand side of three elements against a [grad_x] of two. *)
Definition g_two : gradvec := gx (nums [3; 4]).
Definition g_three : gradvec := gy (nums [2; 2; 2]).
Definition w_zero : world := world0 (nums [0; 0; 0]) (nums [1; 1; 1]).

(** Three elements on both sides. *)
Definition g3 : gradvec := gx (nums [3; 3; 3]).
Definition w3 : world := world0 (nums [1; 1; 1]) (nums [0; 0; 0]).

(** Buffers for the first of two parameters only. *)
Definition w_grads : world := World ∅ {[1%positive := nums [7; 8]]} [].

(** A warm start with the solution of [2 x = 1]. *)
Definition w_solved : world := world0 (nums [1]) [Fin (1 # 2)].

(** The world after the operator application of that warm start. *)
Definition w_applied : world :=
  log (AutogradGrad 2 [px 1] [Fin (1 # 2)] true)
    (log (AutogradGrad 1 [py 1] [Fin (1 # 2)] true) w_solved).

(** The same game with a warm start that is not the solution and a
    budget of one step. *)
Definition w_far : world := world0 (nums [1]) (nums [0]).
Definition w_far_applied : world :=
  log (AutogradGrad 2 [px 1] (nums [0]) true)
    (log (AutogradGrad 1 [py 1] (nums [0]) true) w_far).

(** A buffer for the parameter of [y] only. *)
Definition w_buffer : world := World ∅ {[2%positive := nums [9]]} [].

(** A right-hand side alone in the world: [13], and [1]. *)
Definition w_rhs13 : world := World {[1%positive := nums [13]]} ∅ [].
Definition w_one : world := World {[1%positive := nums [1]]} ∅ [].

End Exact.

(** * Properties *)

Section Proofs.
Context {S : Scalar}.
Variable vjp : positive -> param -> vec -> option vec.

(** ** Computations *)

Lemma bind_ok {A B} (m : M A) (k : A -> M B) w a w' :
  m w = (Ok a, w') -> bind m k w = k a w'.
Proof. intros H. unfold bind. by rewrite H. Qed.

Lemma bind_raise {A B} (m : M A) (k : A -> M B) w e w' :
  m w = (Raise e, w') -> bind m k w = (Raise e, w').
Proof. intros H. unfold bind. by rewrite H. Qed.

Lemma bind_ext {A B} (m : M A) (k1 k2 : A -> M B) w :
  (forall a w', m w = (Ok a, w') -> k1 a w' = k2 a w') -> bind m k1 w = bind m k2 w.
Proof. intros H. unfold bind. destruct (m w) as [[a|e] w']; [by apply H | done]. Qed.

Lemma bind_assoc {A B C} (m : M A) (f : A -> M B) (g : B -> M C) w :
  bind (bind m f) g w = bind m (fun a => bind (f a) g) w.
Proof. unfold bind. by destruct (m w) as [[a|e] w']. Qed.

Lemma keeps_bind {A B} (m : M A) (k : A -> M B) :
  keeps_tensors m -> (forall a, keeps_tensors (k a)) -> keeps_tensors (bind m k).
Proof.
  intros Hm Hk w. unfold bind. specialize (Hm w).
  destruct (m w) as [[a|e] w1]; simpl in *; [|done].
  by rewrite Hk.
Qed.

Lemma keeps_ret {A} (a : A) : keeps_tensors (ret a).
Proof. done. Qed.
Lemma keeps_raise {A} e : keeps_tensors (@raise _ A e).
Proof. done. Qed.
Lemma keeps_lift {A} (o : outcome A) : keeps_tensors (lift o).
Proof. done. Qed.
Lemma keeps_emit e : keeps_tensors (emit e).
Proof. done. Qed.
Lemma keeps_read l : keeps_tensors (read l).
Proof. done. Qed.
Lemma keeps_zero_grad ps : keeps_tensors (zero_grad ps).
Proof. done. Qed.

Lemma keeps_vectorize_grad ps : keeps_tensors (vectorize_grad ps).
Proof. intros w. unfold vectorize_grad. by destruct (vectorize_loop _ _ _). Qed.

Lemma keeps_autograd_grad g ps v rg : keeps_tensors (autograd_grad vjp g ps v rg).
Proof.
  unfold autograd_grad.
  repeat (apply keeps_bind; [|intros ?]);
    auto using keeps_lift, keeps_emit, keeps_ret.
Qed.

Lemma keeps_autograd_backward g ps v rg : keeps_tensors (autograd_backward vjp g v ps rg).
Proof.
  unfold autograd_backward.
  repeat (apply keeps_bind; [|intros ?]); auto using keeps_lift, keeps_emit.
  intros w. by destruct (accumulate _ _ _ _ _).
Qed.

Lemma keeps_Hvp_compute g ps v bw rg tr rd rb :
  keeps_tensors (Hvp_compute vjp g ps v bw rg tr rd rb).
Proof.
  unfold Hvp_compute. destruct bw.
  - apply keeps_bind; [apply keeps_zero_grad | intros _].
    apply keeps_bind.
    { destruct rd; [|apply keeps_ret].
      apply keeps_bind; [destruct rb; auto using keeps_emit, keeps_ret|].
      intros _. apply keeps_emit. }
    intros _. apply keeps_bind; [apply keeps_lift | intros seed].
    apply keeps_bind; [apply keeps_autograd_backward | intros _].
    apply keeps_vectorize_grad.
  - apply keeps_bind; [apply keeps_autograd_grad | intros gg].
    apply keeps_bind; [apply keeps_lift | intros gl]. apply keeps_lift.
Qed.

Lemma keeps_Hvp_vec g ps v bw rg tr rd rb :
  keeps_tensors (Hvp_vec vjp g ps v bw rg tr rd rb).
Proof.
  unfold Hvp_vec.
  destruct (has_nan (gv_data g)); [apply keeps_raise|].
  destruct (has_nan v); [apply keeps_raise|].
  apply keeps_bind; [apply keeps_Hvp_compute | intros hvp].
  destruct (has_nan hvp); [apply keeps_raise | apply keeps_ret].
Qed.

Lemma Hvp_vec_tensors g ps v bw rg tr rd rb w o w' :
  Hvp_vec vjp g ps v bw rg tr rd rb w = (o, w') -> tensors w' = tensors w.
Proof. intros H. pose proof (keeps_Hvp_vec g ps v bw rg tr rd rb w) as K. by rewrite H in K. Qed.

(** ** The oracle's checks *)

(** C4.  If [grad_vec] or [vec] contains a NaN, [Hvp_vec] raises the
    non-finite-input [ValueError] and leaves the world as it found it: no
    gradient buffer is touched and no call to the engine or the reducer is
    logged.  If both are NaN-free and the vector computed contains a NaN,
    it raises the distinct non-finite-result [ValueError] instead of
    returning the vector. *)
Theorem Hvp_vec_nan_checks g ps v bw rg tr rd rb w :
  (has_nan (gv_data g) = true \/ has_nan v = true ->
   exists msg, Hvp_vec vjp g ps v bw rg tr rd rb w = (Raise (ValueError msg), w)
               /\ (msg = "Gradvec nan" \/ msg = "vector nan")
               /\ msg <> "hvp Nan")
  /\ (has_nan (gv_data g) = false -> has_nan v = false ->
      forall hvp w', Hvp_compute vjp g ps v bw rg tr rd rb w = (Ok hvp, w') ->
                     has_nan hvp = true ->
                     Hvp_vec vjp g ps v bw rg tr rd rb w = (Raise (ValueError "hvp Nan"), w')).
Proof.
  split.
  - intros H. unfold Hvp_vec.
    destruct (has_nan (gv_data g)) eqn:Hg.
    + exists "Gradvec nan". by auto.
    + destruct H as [H|H]; [done|]. rewrite H. exists "vector nan". by auto.
  - intros Hg Hv hvp w' Hc Hn. unfold Hvp_vec. rewrite Hg, Hv.
    rewrite (bind_ok _ _ _ _ _ Hc). by rewrite Hn.
Qed.

(** A NaN-free result is returned as it was computed. *)
Lemma Hvp_vec_ok g ps v bw rg tr rd rb w hvp w' :
  Hvp_vec vjp g ps v bw rg tr rd rb w = (Ok hvp, w') <->
  has_nan (gv_data g) = false /\ has_nan v = false /\ has_nan hvp = false /\
  Hvp_compute vjp g ps v bw rg tr rd rb w = (Ok hvp, w').
Proof.
  unfold Hvp_vec. split.
  - destruct (has_nan (gv_data g)); [done|]. destruct (has_nan v); [done|].
    unfold bind. destruct (Hvp_compute _ _ _ _ _ _ _ _ _ _) as [[h|e] w1]; [|done].
    destruct (has_nan h) eqn:Hh; [done|]. unfold ret. intros [= <- <-]. done.
  - intros (-> & -> & Hh & Hc). rewrite (bind_ok _ _ _ _ _ Hc). by rewrite Hh.
Qed.

(** ** Length of the probe vector *)

Lemma check_grad_outputs_mismatch (g : gradvec) (v : vec) :
  length v <> shape_numel (gv_shape g) -> check_grad_outputs g v = Raise shape_mismatch.
Proof.
  intros H. unfold check_grad_outputs, shape_eqb.
  case_bool_decide as E; [|done].
  exfalso. apply H. rewrite <- E. simpl. lia.
Qed.


(** ** The gradient vectorizer *)

Lemma lookup_clear_grads ps (gs : gmap pid vec) k :
  clear_grads ps gs !! k = if decide (k ∈ map p_id ps) then None else gs !! k.
Proof.
  revert gs. induction ps as [|p ps IH]; intros gs.
  - destruct (decide (k ∈ map p_id [])) as [E|E]; [by apply elem_of_nil in E | done].
  - change (clear_grads (p :: ps) gs) with (clear_grads ps (delete (p_id p) gs)).
    rewrite IH. change (map p_id (p :: ps)) with (p_id p :: map p_id ps).
    destruct (decide (k ∈ map p_id ps)) as [E|E].
    + rewrite decide_True; [done | by apply list_elem_of_further].
    + destruct (decide (k = p_id p)) as [->|Hne].
      * rewrite decide_True by apply list_elem_of_here. apply lookup_delete_eq.
      * rewrite decide_False; [by apply lookup_delete_ne|].
        rewrite elem_of_cons. by intros [?|?].
Qed.

Lemma grad_or_zeros_delete ps (gs : gmap pid vec) k :
  k ∉ map p_id ps ->
  map (grad_or_zeros (delete k gs)) ps = map (grad_or_zeros gs) ps.
Proof.
  intros Hk. apply map_ext_in. intros p Hp. unfold grad_or_zeros.
  rewrite lookup_delete_ne; [done|].
  intros ->. apply Hk. apply list_elem_of_In, in_map, Hp.
Qed.

Lemma vectorize_loop_spec ps (gs : gmap pid vec) acc :
  NoDup (map p_id ps) ->
  vectorize_loop ps gs acc = (acc ++ map (grad_or_zeros gs) ps, clear_grads ps gs).
Proof.
  revert gs acc. induction ps as [|p ps IH]; intros gs acc Hnd; simpl.
  - by rewrite app_nil_r.
  - apply NoDup_cons in Hnd as [Hp Hnd]. unfold grad_or_zeros at 1.
    destruct (gs !! p_id p) as [g|] eqn:Hg; simpl.
    + rewrite IH by done. rewrite grad_or_zeros_delete by done.
      by rewrite <- app_assoc.
    + rewrite IH by done. unfold clear_grads. simpl.
      rewrite (delete_id gs) by done. by rewrite <- app_assoc.
Qed.

(** Without buffers the loop collects zeros and deletes nothing. *)
Lemma vectorize_loop_cleared ps (gs : gmap pid vec) acc :
  (forall p, p ∈ ps -> gs !! p_id p = None) ->
  vectorize_loop ps gs acc = (acc ++ map (fun p => zeros (numel p)) ps, gs).
Proof.
  revert acc. induction ps as [|p ps IH]; intros acc H; simpl.
  - by rewrite app_nil_r.
  - rewrite H by apply list_elem_of_here.
    rewrite IH by (intros q Hq; by apply H, list_elem_of_further).
    by rewrite <- app_assoc.
Qed.

Lemma concat_zeros ps :
  concat (map (fun p => zeros (numel p)) ps) = zeros (sum_list_with numel ps).
Proof.
  induction ps as [|p ps IH]; simpl; [done|].
  rewrite IH. unfold zeros. by rewrite repeat_app.
Qed.

Lemma torch_cat_cons (t : vec) l : torch_cat (t :: l) = Ok (concat (t :: l)).
Proof. done. Qed.

(** C8, as amended.  For a non-empty list of distinct parameters, [vectorize_grad]
    returns the concatenation, in parameter order, of every parameter's
    gradient buffer, with zeros of the parameter's size where there is no
    buffer; it leaves every inspected parameter without a buffer and the
    buffers of other parameters as they were; and a second call on the
    same parameters returns the all-zero vector. *)
Theorem vectorize_grad_spec ps w :
  ps <> [] ->
  NoDup (map p_id ps) ->
  let w' := set_grads (clear_grads ps (grads w)) w in
  vectorize_grad ps w = (Ok (concat (map (grad_or_zeros (grads w)) ps)), w')
  /\ (forall p, p ∈ ps -> grads w' !! p_id p = None)
  /\ (forall k, k ∉ map p_id ps -> grads w' !! k = grads w !! k)
  /\ vectorize_grad ps w' = (Ok (zeros (sum_list_with numel ps)), w').
Proof.
  intros Hne Hnd w'.
  assert (Hcl : forall p, p ∈ ps -> grads w' !! p_id p = None).
  { intros p Hp. subst w'. simpl. rewrite lookup_clear_grads.
    rewrite decide_True; [done|]. apply list_elem_of_In, in_map.
    by apply list_elem_of_In. }
  split; [|split; [done|split]].
  - unfold vectorize_grad. rewrite vectorize_loop_spec by done. simpl.
    destruct ps; [done|]. done.
  - intros k Hk. subst w'. simpl. rewrite lookup_clear_grads.
    by rewrite decide_False.
  - unfold vectorize_grad. rewrite vectorize_loop_cleared by done. simpl.
    destruct ps as [|p ps]; [done|].
    simpl map. rewrite torch_cat_cons.
    change (zeros (numel p) :: map (fun p0 => zeros (numel p0)) ps)
      with (map (fun p0 => zeros (numel p0)) (p :: ps)).
    rewrite concat_zeros. done.
Qed.



(** ** The oracle in graph mode *)

Lemma fill_unused_spec (f : param -> option vec) ps pre acc :
  fill_unused (length pre) ps (pre ++ map f ps) acc
  = Ok (acc ++ map (fun p => default (zeros (numel p)) (f p)) ps).
Proof.
  revert pre acc. induction ps as [|p ps IH]; intros pre acc; simpl.
  - by rewrite app_nil_r.
  - rewrite list_lookup_middle by done.
    replace (pre ++ f p :: map f ps) with ((pre ++ [f p]) ++ map f ps)
      by (by rewrite <- app_assoc).
    replace (Datatypes.S (length pre)) with (length (pre ++ [f p]))
      by (rewrite length_app; simpl; lia).
    destruct (f p) as [c|]; simpl; rewrite IH; by rewrite <- app_assoc.
Qed.

Lemma Hvp_compute_graph g ps v rg tr rd rb w :
  Hvp_compute vjp g ps v false rg tr rd rb w
  = match check_grad_outputs g v with
    | Ok _ => (torch_cat (graph_blocks vjp g ps v), log (AutogradGrad (gv_id g) ps v rg) w)
    | Raise e => (Raise e, w)
    end.
Proof.
  unfold Hvp_compute, autograd_grad, bind, lift, emit, ret.
  destruct (check_grad_outputs g v) as [[]|e]; [|done].
  pose proof (fill_unused_spec (fun p => vjp (gv_id g) p v) ps [] []) as H.
  simpl in H. by rewrite H.
Qed.

(** In graph mode the trigger, the reducer and [rebuild] are not used. *)
Lemma Hvp_vec_graph_args g ps v rg tr rd rb :
  Hvp_vec vjp g ps v false rg tr rd rb = Hvp_vec vjp g ps v false rg None None false.
Proof. reflexivity. Qed.

Lemma length_graph_blocks g ps v :
  engine_sized vjp -> length (concat (graph_blocks vjp g ps v)) = sum_list_with numel ps.
Proof.
  intros Hwf. unfold graph_blocks.
  induction ps as [|p ps IH]; simpl; [done|].
  rewrite length_app, IH. f_equal.
  destruct (vjp (gv_id g) p v) as [c|] eqn:E; simpl.
  - by apply Hwf in E.
  - apply repeat_length.
Qed.

Lemma torch_cat_ok (l : list vec) h : torch_cat l = Ok h -> h = concat l.
Proof. destruct l; [done|]. by intros [= <-]. Qed.

Lemma Hvp_vec_graph_length g ps v rg tr rd rb w h w' :
  engine_sized vjp ->
  Hvp_vec vjp g ps v false rg tr rd rb w = (Ok h, w') ->
  length h = sum_list_with numel ps.
Proof.
  intros Hwf H. apply Hvp_vec_ok in H as (_ & _ & _ & H).
  rewrite Hvp_compute_graph in H.
  destruct (check_grad_outputs g v) as [[]|e]; [|done].
  injection H as H _. apply torch_cat_ok in H as ->.
  by apply length_graph_blocks.
Qed.

(** ** Accumulation mode without a trigger *)

(** C7.  With NaN-free inputs, no reducer and no trigger (the default,
    which the docstring of [Hvp_vec] allows outside distributed runs), the
    accumulation-mode call raises [TypeError] at [0.0 * trigger], after
    the gradient buffers have been zeroed and before the engine is
    called: it returns no vector, whatever graph mode returns. *)
Theorem accumulation_without_trigger g ps v rg rb w :
  has_nan (gv_data g) = false ->
  has_nan v = false ->
  Hvp_vec vjp g ps v true rg None None rb w
  = (Raise no_trigger, set_grads (zero_grad_loop ps (grads w)) w).
Proof.
  intros Hg Hv. unfold Hvp_vec. rewrite Hg, Hv. reflexivity.
Qed.



(** ** Accumulation mode with a trigger *)

Lemma lookup_zero_grad_loop ps (gs : gmap pid vec) k :
  zero_grad_loop ps gs !! k
  = if decide (k ∈ map p_id ps) then (fun g => zeros (length g)) <$> gs !! k
    else gs !! k.
Proof.
  revert gs. induction ps as [|p ps IH]; intros gs.
  - destruct (decide (k ∈ map p_id [])) as [E|E]; [by apply elem_of_nil in E | done].
  - simpl zero_grad_loop. change (map p_id (p :: ps)) with (p_id p :: map p_id ps).
    destruct (gs !! p_id p) as [g0|] eqn:Hg; rewrite IH.
    + destruct (decide (k = p_id p)) as [->|Hne].
      * rewrite (decide_True (P := p_id p ∈ p_id p :: _)) by apply list_elem_of_here.
        rewrite lookup_insert_eq, Hg. simpl.
        destruct (decide _); simpl; [|apply lookup_insert_eq].
        unfold zeros. by rewrite repeat_length.
      * rewrite !lookup_insert_ne by done.
        destruct (decide (k ∈ map p_id ps)) as [E|E].
        -- by rewrite decide_True by by apply list_elem_of_further.
        -- rewrite decide_False; [done|]. rewrite elem_of_cons. by intros [?|?].
    + destruct (decide (k ∈ map p_id ps)) as [E|E].
      * by rewrite decide_True by by apply list_elem_of_further.
      * destruct (decide (k = p_id p)) as [->|Hne].
        -- rewrite Hg. by destruct (decide _).
        -- rewrite decide_False; [done|]. rewrite elem_of_cons. by intros [?|?].
Qed.

(** Adding to a zeroed buffer of the same size. *)
Lemma add__zeros (c : vec) :
  (forall a, add zero a = a) -> add_ (zeros (length c)) c = Ok c.
Proof.
  intros H. unfold add_, broadcast_, zeros. rewrite repeat_length, Nat.eqb_refl.
  f_equal. induction c as [|a c IH]; simpl; [done|]. by rewrite H, IH.
Qed.

Lemma distinct_inputs_NoDup seen ps :
  NoDup (map p_id ps) -> (forall p, p ∈ ps -> p_id p ∉ seen) ->
  distinct_inputs seen ps = ps.
Proof.
  revert seen. induction ps as [|p ps IH]; intros seen Hnd Hs; simpl; [done|].
  change (map p_id (p :: ps)) with (p_id p :: map p_id ps) in Hnd.
  apply NoDup_cons in Hnd as [Hp Hnd].
  rewrite bool_decide_eq_false_2 by apply Hs, list_elem_of_here.
  f_equal. apply IH; [done|]. intros q Hq. apply not_elem_of_cons. split.
  - intros E. apply Hp. rewrite <- E. apply list_elem_of_In, in_map. by apply list_elem_of_In.
  - by apply Hs, list_elem_of_further.
Qed.

Lemma distinct_inputs_subset seen ps k :
  k ∈ map p_id (distinct_inputs seen ps) -> k ∈ map p_id ps.
Proof.
  revert seen. induction ps as [|p ps IH]; intros seen; simpl; [done|].
  case_bool_decide as Hseen.
  - intros Hk. apply list_elem_of_further. by apply (IH seen).
  - change (map p_id (p :: distinct_inputs (p_id p :: seen) ps))
      with (p_id p :: map p_id (distinct_inputs (p_id p :: seen) ps)).
    intros [->|Hk]%elem_of_cons; [apply list_elem_of_here|].
    apply list_elem_of_further. by apply (IH (p_id p :: seen)).
Qed.

Lemma accumulate_spec g v ps (gs : gmap pid vec) :
  NoDup (map p_id ps) ->
  (forall p old c, p ∈ ps -> gs !! p_id p = Some old ->
                   vjp (gv_id g) p v = Some c -> add_ old c = Ok c) ->
  exists gs',
    accumulate vjp g v ps gs = Ok gs'
    /\ (forall p, p ∈ ps ->
          gs' !! p_id p = match vjp (gv_id g) p v with
                          | Some c => Some c
                          | None => gs !! p_id p
                          end)
    /\ (forall k, k ∉ map p_id ps -> gs' !! k = gs !! k).
Proof.
  revert gs. induction ps as [|p ps IH]; intros gs Hnd Hadd.
  - exists gs. split; [done|]. split; [|done]. intros p Hp. by apply elem_of_nil in Hp.
  - change (map p_id (p :: ps)) with (p_id p :: map p_id ps) in *.
    apply NoDup_cons in Hnd as [Hp Hnd].
    assert (Hq : forall q, q ∈ ps -> p_id q <> p_id p).
    { intros q Hq E. apply Hp. rewrite <- E.
      apply list_elem_of_In, in_map. by apply list_elem_of_In. }
    simpl accumulate.
    destruct (vjp (gv_id g) p v) as [c|] eqn:Hc.
    + assert (Hstep : match gs !! p_id p with
                      | None => accumulate vjp g v ps (<[p_id p := c]> gs)
                      | Some old =>
                          match add_ old c with
                          | Ok new => accumulate vjp g v ps (<[p_id p := new]> gs)
                          | Raise e => Raise e
                          end
                      end = accumulate vjp g v ps (<[p_id p := c]> gs)).
      { destruct (gs !! p_id p) as [old|] eqn:Ho; [|done].
        rewrite (Hadd p old c); [done | apply list_elem_of_here | done..]. }
      rewrite Hstep.
      destruct (IH (<[p_id p := c]> gs) Hnd) as (gs' & Hacc & Hin & Hout).
      { intros q old c' Hqin Ho Hc'. rewrite lookup_insert_ne in Ho by (symmetry; by apply Hq).
        apply (Hadd q); [by apply list_elem_of_further | done..]. }
      exists gs'. split; [done|]. split.
      * intros q Hqin. apply elem_of_cons in Hqin as [->|Hqin].
        -- rewrite Hc. rewrite Hout by done. apply lookup_insert_eq.
        -- rewrite Hin by done. destruct (vjp (gv_id g) q v); [done|].
           apply lookup_insert_ne. symmetry. by apply Hq.
      * intros k Hk. apply not_elem_of_cons in Hk as [Hk1 Hk2].
        rewrite Hout by done. by apply lookup_insert_ne.
    + destruct (IH gs Hnd) as (gs' & Hacc & Hin & Hout).
      { intros q old c' Hqin. apply Hadd. by apply list_elem_of_further. }
      exists gs'. split; [done|]. split.
      * intros q Hqin. apply elem_of_cons in Hqin as [->|Hqin].
        -- rewrite Hc. by apply Hout.
        -- by apply Hin.
      * intros k Hk. apply not_elem_of_cons in Hk as [Hk1 Hk2]. by apply Hout.
Qed.


(** ** Elementwise operations on vectors of one size *)

Lemma zip_with_ones_l (p : vec) :
  (forall a, mul one a = a) -> zip_with mul (repeat one (length p)) p = p.
Proof. intros H. induction p as [|a p IH]; simpl; [done|]. by rewrite H, IH. Qed.

Lemma zip_with_ones_r (h : vec) :
  (forall a, mul a one = a) -> zip_with mul h (repeat one (length h)) = h.
Proof. intros H. induction h as [|a h IH]; simpl; [done|]. by rewrite H, IH. Qed.

Lemma tmul_ones (p : vec) n :
  (forall a, mul one a = a) -> length p = n -> tmul (repeat one n) p = Ok p.
Proof.
  intros H <-. unfold tmul, broadcast.
  rewrite repeat_length, Nat.eqb_refl. by rewrite zip_with_ones_l.
Qed.

Lemma mul__ones (h : vec) n :
  (forall a, mul a one = a) -> length h = n -> mul_ h (repeat one n) = Ok h.
Proof.
  intros H <-. unfold mul_, broadcast_.
  rewrite repeat_length, Nat.eqb_refl. by rewrite zip_with_ones_r.
Qed.

Lemma mul_scalar_one (h : vec) : (forall a, mul a one = a) -> mul_scalar h one = h.
Proof.
  intros H. unfold mul_scalar. induction h as [|a h IH]; simpl; [done|].
  by rewrite H, IH.
Qed.

Lemma sqrt_ones n : sqrt one = one -> map sqrt (repeat one n) = repeat one n.
Proof. intros H. induction n as [|n IH]; simpl; [done|]. by rewrite H, IH. Qed.

Lemma broadcast_same f (a b : vec) :
  length a = length b ->
  broadcast f a b = Ok (zip_with f a b) /\ length (zip_with f a b) = length a.
Proof.
  intros H. unfold broadcast. rewrite H, Nat.eqb_refl. split; [done|].
  rewrite length_zip_with. lia.
Qed.

Lemma length_broadcast_ f (a b c : vec) :
  broadcast_ f a b = Ok c -> length c = length a.
Proof.
  unfold broadcast_. destruct (Nat.eqb_spec (length a) (length b)) as [E|E].
  - intros [= <-]. rewrite length_zip_with. lia.
  - destruct b as [|b0 [|]]; [done| |done]. intros [= <-]. apply length_map.
Qed.

(** ** The solvers: frame and result *)

Lemma touches_of_keeps {A} x (m : M A) : keeps_tensors m -> touches_only x m.
Proof. intros H w l _. by rewrite H. Qed.

Lemma touches_bind {A B} x (m : M A) (k : A -> M B) :
  touches_only x m -> (forall a, touches_only x (k a)) -> touches_only x (bind m k).
Proof.
  intros Hm Hk w l Hl. unfold bind. specialize (Hm w l Hl).
  destruct (m w) as [[a|e] w1]; simpl in *; [|done].
  by rewrite Hk.
Qed.

Lemma touches_write x v : touches_only x (write x v).
Proof. intros w l Hl. simpl. by rewrite lookup_insert_ne. Qed.

Lemma touches_if {A} x (c : bool) (m1 m2 : M A) :
  touches_only x m1 -> touches_only x m2 -> touches_only x (if c then m1 else m2).
Proof. by destruct c. Qed.

Lemma returns_bind {A} x (m : M A) (k : A -> M (loc * Z)) :
  (forall a, returns x (k a)) -> returns x (bind m k).
Proof.
  intros Hk w res n w'. unfold bind.
  destruct (m w) as [[a|e] w1]; [apply Hk | done].
Qed.

Lemma returns_ret x n : returns x (ret (x, n)).
Proof. by intros w res m w' [= <- _ _]. Qed.

Lemma returns_raise x e : returns x (raise e).
Proof. by intros w res m w'. Qed.

Lemma returns_if x (c : bool) m1 m2 :
  returns x m1 -> returns x m2 -> returns x (if c then m1 else m2).
Proof. by destruct c. Qed.

Create HintDb frame.
#[local] Hint Resolve keeps_ret keeps_raise keeps_lift keeps_emit keeps_read
  keeps_Hvp_vec touches_write : frame.
#[local] Hint Extern 1 (touches_only _ _) => apply touches_of_keeps : frame.

Ltac frame_steps :=
  repeat (apply touches_bind; [solve [auto with frame] | intros ?]).

Section SolverProofs.
Variables (grad_x grad_y : gradvec) (x_params y_params : list param).

Local Abbreviation cg_loop' := (cg_loop vjp grad_x grad_y x_params y_params).
Local Abbreviation cg_init' := (cg_init vjp grad_x grad_y x_params y_params).
Local Abbreviation cg' := (conjugate_gradient vjp grad_x grad_y x_params y_params).
Local Abbreviation cg_rest' := (cg_rest vjp grad_x grad_y x_params y_params).

Lemma cg_loop_touches x rt atol lr_x lr_y fuel i last r p rdotr :
  touches_only x (cg_loop' x rt atol lr_x lr_y fuel i last r p rdotr).
Proof.
  revert i last r p rdotr.
  induction fuel as [|fuel IH]; intros i last r p rdotr; simpl.
  - auto with frame.
  - frame_steps. apply touches_if; [auto with frame | apply IH].
Qed.

(** A warm start is the object the initialisation hands on; a cold start
    allocates it. *)
Lemma cg_init_warm b x0 nsteps lr_x lr_y w x r n w1 :
  cg_init' b (Some x0) nsteps lr_x lr_y w = (Ok (x, r, n), w1) ->
  x = x0 /\ tensors w1 = tensors w /\ n = default (Z.of_nat (length (default [] (tensors w !! b)))) nsteps - 1.
Proof.
  unfold cg_init. unfold bind at 1. simpl. unfold bind at 1. simpl.
  unfold bind at 1.
  destruct (Hvp_vec _ _ _ _ _ _ _ _ _ _) as [[h1|e] w2] eqn:H1; [|done].
  unfold bind at 1.
  destruct (Hvp_vec _ _ _ _ _ _ _ _ _ w2) as [[h2|e] w3] eqn:H2; [|done].
  apply Hvp_vec_tensors in H1, H2.
  unfold bind at 1. simpl. unfold bind at 1, lift at 1.
  destruct (tadd _ _) as [Avx|e]; [|done].
  unfold bind at 1. simpl. unfold bind, lift.
  destruct (tsub _ _) as [r'|e]; [|done].
  unfold ret. intros [= <- <- <- <-]. rewrite H2, H1. done.
Qed.

Lemma cg_init_cold b nsteps lr_x lr_y w :
  let bv := default [] (tensors w !! b) in
  let x := fresh (dom (tensors w)) in
  cg_init' b None nsteps lr_x lr_y w =
    (Ok (x, default [] (<[x := zeros (length bv)]> (tensors w) !! b),
         default (Z.of_nat (length bv)) nsteps),
     set_tensors (<[x := zeros (length bv)]> (tensors w)) w).
Proof. reflexivity. Qed.

Section GeneralProofs.
Variables (trigger : option sc) (x_reducer y_reducer : option reducer)
  (rebuild backward : bool).

Local Abbreviation general_loop' :=
  (general_loop vjp grad_x grad_y x_params y_params trigger x_reducer y_reducer rebuild backward).
Local Abbreviation general_init' :=
  (general_init vjp grad_x grad_y x_params y_params trigger x_reducer y_reducer rebuild backward).
Local Abbreviation general_rest' :=
  (general_rest vjp grad_x grad_y x_params y_params trigger x_reducer y_reducer rebuild backward).
Local Abbreviation general' :=
  (general_conjugate_gradient vjp grad_x grad_y x_params y_params trigger
     x_reducer y_reducer rebuild backward).
Local Abbreviation A' :=
  (general_operator vjp grad_x grad_y x_params y_params trigger
     x_reducer y_reducer rebuild backward).
Local Abbreviation spec' :=
  (spec_operator vjp grad_x grad_y x_params y_params trigger
     x_reducer y_reducer rebuild backward).

Lemma general_loop_touches x rt atol lr_x lr_y fuel i last r p rdotr :
  touches_only x (general_loop' x rt atol lr_x lr_y fuel i last r p rdotr).
Proof.
  revert i last r p rdotr.
  induction fuel as [|fuel IH]; intros i last r p rdotr; simpl.
  - auto with frame.
  - frame_steps. apply touches_if; [auto with frame|].
    apply touches_bind; [auto with frame | intros ?]. apply IH.
Qed.

Lemma general_init_warm b x0 nsteps lr_x lr_y w x r n w1 :
  general_init' b lr_x lr_y (Some x0) nsteps w = (Ok (x, r, n), w1) ->
  x = x0 /\ tensors w1 = tensors w /\ n = default (Z.of_nat (length (default [] (tensors w !! b)))) nsteps - 1.
Proof.
  unfold general_init. unfold bind at 1. simpl. unfold bind at 1. simpl.
  unfold bind at 1, lift at 1.
  destruct (tmul _ _) as [v|e]; [|done].
  unfold bind at 1.
  destruct (Hvp_vec _ _ _ _ _ _ _ _ _ _) as [[h1|e] w2] eqn:H1; [|done].
  unfold bind at 1, lift at 1.
  destruct (mul_ _ _) as [h1'|e]; [|done].
  unfold bind at 1.
  destruct (Hvp_vec _ _ _ _ _ _ _ _ _ w2) as [[h2|e] w3] eqn:H2; [|done].
  apply Hvp_vec_tensors in H1, H2.
  unfold bind at 1, lift at 1.
  destruct (mul_ _ _) as [h2'|e]; [|done].
  unfold bind at 1. simpl. unfold bind at 1, lift at 1.
  destruct (tadd _ _) as [Avx|e]; [|done].
  unfold bind at 1. simpl. unfold bind, lift.
  destruct (tsub _ _) as [r'|e]; [|done].
  unfold ret. intros [= <- <- <- <-]. rewrite H2, H1. done.
Qed.

Lemma general_init_cold b nsteps lr_x lr_y w :
  let bv := default [] (tensors w !! b) in
  let x := fresh (dom (tensors w)) in
  general_init' b lr_x lr_y None nsteps w =
    (Ok (x, default [] (<[x := zeros (length bv)]> (tensors w) !! b),
         default (Z.of_nat (length bv)) nsteps),
     set_tensors (<[x := zeros (length bv)]> (tensors w)) w).
Proof. reflexivity. Qed.

Lemma cg_unfold b x nsteps tol atol lr_x lr_y w :
  cg' b x nsteps tol atol lr_x lr_y w =
  bind (cg_init' b x nsteps lr_x lr_y)
       (fun init => cg_rest' init.1.1 init.1.2 init.2 b tol atol lr_x lr_y) w.
Proof.
  unfold conjugate_gradient. apply bind_ext. by intros [[x' r] n] w' _.
Qed.

Lemma general_unfold b lr_x lr_y x nsteps tol atol w :
  general' b lr_x lr_y x nsteps tol atol w =
  bind (general_init' b (map sqrt lr_x) lr_y x nsteps)
       (fun init => general_rest' init.1.1 init.1.2 init.2 b tol atol (map sqrt lr_x) lr_y) w.
Proof.
  unfold general_conjugate_gradient. apply bind_ext. by intros [[x' r] n] w' _.
Qed.

Lemma cg_rest_frame x r n b tol atol lr_x lr_y :
  touches_only x (cg_rest' x r n b tol atol lr_x lr_y)
  /\ returns x (cg_rest' x r n b tol atol lr_x lr_y).
Proof.
  unfold cg_rest. split.
  - frame_steps. apply touches_if; [auto with frame|].
    apply touches_bind; [apply cg_loop_touches | intros [i|]]; [|auto with frame].
    apply touches_bind; [destruct (99 <? i)|]; auto with frame.
  - repeat (apply returns_bind; intros ?).
    apply returns_if; [apply returns_ret|].
    apply returns_bind. intros [i|]; [|apply returns_raise].
    apply returns_bind. intros _. apply returns_ret.
Qed.

Lemma general_rest_frame x r n b tol atol lr_x lr_y :
  touches_only x (general_rest' x r n b tol atol lr_x lr_y)
  /\ returns x (general_rest' x r n b tol atol lr_x lr_y).
Proof.
  unfold general_rest. split.
  - frame_steps. apply touches_if; [auto with frame|].
    frame_steps. apply touches_if; [auto with frame|].
    apply touches_bind; [apply general_loop_touches | intros [i|]]; [|auto with frame].
    apply touches_bind; [destruct (100 <? i)|]; auto with frame.
  - apply returns_bind. intros ?.
    apply returns_if; [apply returns_raise|].
    repeat (apply returns_bind; intros ?).
    apply returns_if; [apply returns_ret|].
    apply returns_bind. intros [i|]; [|apply returns_raise].
    apply returns_bind. intros _. apply returns_ret.
Qed.


(** *** Frame of a solve *)

Lemma solve_frame_phases (init : M (loc * vec * Z)) (rest : loc -> vec -> Z -> M (loc * Z))
  b x w :
  match x with
  | Some x0 =>
      keeps_tensors init
      /\ (forall w x' r n w1, init w = (Ok (x', r, n), w1) -> x' = x0)
  | None =>
      forall w, exists r n v,
        init w = (Ok (fresh (dom (tensors w)), r, n),
                  set_tensors (<[fresh (dom (tensors w)) := v]> (tensors w)) w)
  end ->
  (forall x' r n, touches_only x' (rest x' r n) /\ returns x' (rest x' r n)) ->
  is_Some (tensors w !! b) -> x <> Some b ->
  solve_frame b x w (bind init (fun i => rest i.1.1 i.1.2 i.2)).
Proof.
  intros Hinit Hrest Hb Hx o w' Hrun.
  assert (Hl : forall l, is_Some (tensors w !! l) -> x <> Some l ->
                         tensors w' !! l = tensors w !! l
                         /\ (forall res n, o = Ok (res, n) ->
                               match x with
                               | Some x0 => res = x0
                               | None => tensors w !! res = None
                               end)).
  { intros l Hlive Hne. unfold bind in Hrun. destruct x as [x0|].
    - destruct Hinit as [Hk Hloc]. specialize (Hk w).
      destruct (init w) as [[[[x' r] n]|e] w1] eqn:Hi; simpl in *.
      + apply Hloc in Hi as ->. destruct (Hrest x0 r n) as [Ht Hr].
        split.
        * specialize (Ht w1 l). rewrite Hrun in Ht. simpl in Ht.
          rewrite Ht, Hk; [done|]. by intros ->.
        * intros res m ->. by apply Hr in Hrun.
      + injection Hrun as <- <-. by rewrite Hk.
    - destruct (Hinit w) as (r & n & v & Hi). rewrite Hi in Hrun. simpl in Hrun.
      set (x0 := fresh (dom (tensors w))) in *.
      assert (Hfresh : tensors w !! x0 = None).
      { apply not_elem_of_dom. apply is_fresh. }
      destruct (Hrest x0 r n) as [Ht Hr]. split.
      + assert (Hlx : l <> x0).
        { intros ->. rewrite Hfresh in Hlive. by destruct Hlive. }
        pose proof (Ht (set_tensors (<[x0 := v]> (tensors w)) w) l Hlx) as Ht'.
        rewrite Hrun in Ht'. simpl in Ht'. rewrite Ht'.
        by apply lookup_insert_ne.
      + intros res m ->. by apply Hr in Hrun as ->. }
  split; [by apply Hl | split].
  - intros l Hlive Hne. by apply Hl.
  - by apply (Hl b).
Qed.

Lemma keeps_cg_init_warm b x0 nsteps lr_x lr_y :
  keeps_tensors (cg_init' b (Some x0) nsteps lr_x lr_y).
Proof.
  unfold cg_init. repeat (apply keeps_bind; [solve [auto with frame] | intros ?]).
  auto with frame.
Qed.

Lemma keeps_general_init_warm b x0 nsteps lr_x lr_y :
  keeps_tensors (general_init' b lr_x lr_y (Some x0) nsteps).
Proof.
  unfold general_init. repeat (apply keeps_bind; [solve [auto with frame] | intros ?]).
  auto with frame.
Qed.

(** In both solvers, when [b] is a tensor object of the world and a warm
    start, if supplied, is another object, [b] has the same value after
    the solve, however it ends; no other object of the caller is written
    but the warm start; and the solution returned is the warm-start
    object itself (a cold start returns a new object). *)
Lemma solve_frame_both b x nsteps tol atol w :
  is_Some (tensors w !! b) ->
  x <> Some b ->
  (forall lr_x lr_y, solve_frame b x w (cg' b x nsteps tol atol lr_x lr_y))
  /\ (forall lr_x lr_y, solve_frame b x w (general' b lr_x lr_y x nsteps tol atol)).
Proof.
  intros Hb Hx. split; intros lr_x lr_y.
  - intros o w' Hrun. rewrite cg_unfold in Hrun. revert o w' Hrun.
    apply (solve_frame_phases _ (fun x' r n => cg_rest' x' r n b tol atol lr_x lr_y));
      [|intros; apply cg_rest_frame|done..].
    destruct x as [x0|].
    + split; [apply keeps_cg_init_warm|].
      intros w0 x' r n w1 Hi. by apply cg_init_warm in Hi as [-> _].
    + intros w0. eexists _, _, _. apply cg_init_cold.
  - intros o w' Hrun. rewrite general_unfold in Hrun. revert o w' Hrun.
    apply (solve_frame_phases _
             (fun x' r n => general_rest' x' r n b tol atol (map sqrt lr_x) lr_y));
      [|intros; apply general_rest_frame|done..].
    destruct x as [x0|].
    + split; [apply keeps_general_init_warm|].
      intros w0 x' r n w1 Hi. by apply general_init_warm in Hi as [-> _].
    + intros w0. eexists _, _, _. apply general_init_cold.
Qed.


(** *** After the initialisation *)

Lemma dot_self (r : vec) : dot r r = Ok (dot_sum r r).
Proof. unfold dot. by rewrite Nat.eqb_refl. Qed.

Lemma cg_rest_converged x r n b tol atol lr_x lr_y w :
  converged b w r tol atol = true ->
  cg_rest' x r n b tol atol lr_x lr_y w = (Ok (x, 1), w).
Proof.
  unfold converged, cg_rest. intros H.
  unfold bind, lift, read. rewrite !dot_self. simpl. by rewrite H.
Qed.

Lemma general_rest_mismatch x r n b tol atol lr_x lr_y w :
  gv_shape grad_x <> [length (default [] (tensors w !! b))] ->
  general_rest' x r n b tol atol lr_x lr_y w
  = (Raise (RuntimeError "CG: hessian vector product shape mismatch"), w).
Proof.
  intros H. unfold general_rest, bind, read, shape_eqb. simpl.
  by rewrite bool_decide_eq_false_2.
Qed.

Lemma general_rest_converged x r n b tol atol lr_x lr_y w :
  gv_shape grad_x = [length (default [] (tensors w !! b))] ->
  converged b w r tol atol = true ->
  general_rest' x r n b tol atol lr_x lr_y w = (Ok (x, 1), w).
Proof.
  unfold converged, general_rest. intros Hs H.
  unfold bind, lift, read, shape_eqb. simpl.
  rewrite bool_decide_eq_true_2 by done. simpl.
  rewrite !dot_self. by rewrite H.
Qed.

Lemma cg_rest_zero_budget x r n b tol atol lr_x lr_y w :
  n <= 0 ->
  converged b w r tol atol = false ->
  cg_rest' x r n b tol atol lr_x lr_y w = (Raise (UnboundLocalError "i"), w).
Proof.
  unfold converged, cg_rest. intros Hn H.
  unfold bind, lift, read. rewrite !dot_self. simpl. rewrite H.
  replace (Z.to_nat n) with 0%nat by lia. reflexivity.
Qed.

Lemma general_rest_zero_budget x r n b tol atol lr_x lr_y w :
  n <= 0 ->
  gv_shape grad_x = [length (default [] (tensors w !! b))] ->
  converged b w r tol atol = false ->
  general_rest' x r n b tol atol lr_x lr_y w = (Raise (UnboundLocalError "i"), w).
Proof.
  unfold converged, general_rest. intros Hn Hs H.
  unfold bind, lift, read, shape_eqb. simpl.
  rewrite bool_decide_eq_true_2 by done. simpl.
  rewrite !dot_self. rewrite H.
  replace (Z.to_nat n) with 0%nat by lia. reflexivity.
Qed.

(** C5, as amended.  When the initialisation has produced the solution
    tensor [x'] and the residual [r] (a cold start gives zeros and [b], a
    warm start gives [b - A(x0)]), and [r.r < tol * b.b] or [r.r < atol],
    [conjugate_gradient] returns [(x', 1)] in the world the
    initialisation left: no iteration of the loop is run.
    [general_conjugate_gradient] does the same provided [grad_x] has the
    shape of [b], which it checks between the initialisation and the
    test. *)
Theorem early_exit b x nsteps tol atol w x' r n w1 :
  converged b w1 r tol atol = true ->
  (forall lr_x lr_y,
     cg_init' b x nsteps lr_x lr_y w = (Ok (x', r, n), w1) ->
     cg' b x nsteps tol atol lr_x lr_y w = (Ok (x', 1), w1))
  /\ (forall lr_x lr_y,
        general_init' b (map sqrt lr_x) lr_y x nsteps w = (Ok (x', r, n), w1) ->
        gv_shape grad_x = [length (default [] (tensors w1 !! b))] ->
        general' b lr_x lr_y x nsteps tol atol w = (Ok (x', 1), w1)).
Proof.
  intros Hc. split; intros lr_x lr_y Hi.
  - rewrite cg_unfold, (bind_ok _ _ _ _ _ Hi). simpl.
    by apply cg_rest_converged.
  - intros Hs. rewrite general_unfold, (bind_ok _ _ _ _ _ Hi). simpl.
    by apply general_rest_converged.
Qed.

(** C3.  When the initialisation leaves no step ([nsteps <= 0], as after
    a warm start with [nsteps = 1]) and the residual does not pass the
    convergence test, the loop body never runs, the name [i] is unbound
    when it is read after the loop, and both solvers raise
    [UnboundLocalError] instead of returning. *)
Theorem zero_budget_unbound b x nsteps tol atol w x' r n w1 :
  n <= 0 ->
  converged b w1 r tol atol = false ->
  (forall lr_x lr_y,
     cg_init' b x nsteps lr_x lr_y w = (Ok (x', r, n), w1) ->
     cg' b x nsteps tol atol lr_x lr_y w = (Raise (UnboundLocalError "i"), w1))
  /\ (forall lr_x lr_y,
        general_init' b (map sqrt lr_x) lr_y x nsteps w = (Ok (x', r, n), w1) ->
        gv_shape grad_x = [length (default [] (tensors w1 !! b))] ->
        general' b lr_x lr_y x nsteps tol atol w = (Raise (UnboundLocalError "i"), w1)).
Proof.
  intros Hn Hc. split; intros lr_x lr_y Hi.
  - rewrite cg_unfold, (bind_ok _ _ _ _ _ Hi). simpl.
    by apply cg_rest_zero_budget.
  - intros Hs. rewrite general_unfold, (bind_ok _ _ _ _ _ Hi). simpl.
    by apply general_rest_zero_budget.
Qed.


(** The case the budget is spent by the warm start alone: a warm start
    with [nsteps = 1]. *)
Lemma warm_start_single_step b x0 tol atol w x' r n w1 :
  converged b w1 r tol atol = false ->
  (forall lr_x lr_y,
     cg_init' b (Some x0) (Some 1) lr_x lr_y w = (Ok (x', r, n), w1) ->
     cg' b (Some x0) (Some 1) tol atol lr_x lr_y w = (Raise (UnboundLocalError "i"), w1))
  /\ (forall lr_x lr_y,
        general_init' b (map sqrt lr_x) lr_y (Some x0) (Some 1) w = (Ok (x', r, n), w1) ->
        gv_shape grad_x = [length (default [] (tensors w1 !! b))] ->
        general' b lr_x lr_y (Some x0) (Some 1) tol atol w
        = (Raise (UnboundLocalError "i"), w1)).
Proof.
  intros Hc. split; intros lr_x lr_y Hi.
  - rewrite cg_unfold, (bind_ok _ _ _ _ _ Hi). simpl.
    apply cg_init_warm in Hi as (_ & _ & ->). by apply cg_rest_zero_budget.
  - intros Hs. rewrite general_unfold, (bind_ok _ _ _ _ _ Hi). simpl.
    apply general_init_warm in Hi as (_ & _ & ->). by apply general_rest_zero_budget.
Qed.

(** A residual of zeros passes the convergence test of any positive
    [atol]: this is the warm start with the exact solution. *)
Lemma dot_sum_zeros k :
  mul zero zero = zero -> add zero zero = zero -> dot_sum (zeros k) (zeros k) = zero.
Proof.
  intros Hm Ha. unfold dot_sum, zeros.
  induction k as [|k IH]; simpl; [done|]. by rewrite Hm, Ha.
Qed.

Lemma converged_zero_residual b w k tol atol :
  mul zero zero = zero -> add zero zero = zero -> ltb zero atol = true ->
  converged b w (zeros k) tol atol = true.
Proof.
  intros Hm Ha Hlt. unfold converged. simpl.
  rewrite dot_sum_zeros by done. rewrite Hlt. apply orb_true_r.
Qed.

(** The check of [general_conjugate_gradient] comes after the
    initialisation: once that has succeeded, a [grad_x] whose shape is not
    that of [b] is a [RuntimeError]. *)
Lemma general_shape_check b lr_x lr_y x nsteps tol atol w x' r n w1 :
  general_init' b (map sqrt lr_x) lr_y x nsteps w = (Ok (x', r, n), w1) ->
  gv_shape grad_x <> [length (default [] (tensors w1 !! b))] ->
  general' b lr_x lr_y x nsteps tol atol w
  = (Raise (RuntimeError "CG: hessian vector product shape mismatch"), w1).
Proof.
  intros Hi Hs. rewrite general_unfold, (bind_ok _ _ _ _ _ Hi). simpl.
  by apply general_rest_mismatch.
Qed.


(** *** The solver applies one operator *)

Lemma general_loop_operator x rt atol lr_x lr_y fuel i last r p rdotr w :
  general_loop' x rt atol (map sqrt lr_x) lr_y fuel i last r p rdotr w
  = operator_loop (A' lr_x lr_y) x rt atol fuel i last r p rdotr w.
Proof.
  revert i last r p rdotr w.
  induction fuel as [|fuel IH]; intros i last r p rdotr w; simpl; [done|].
  unfold general_operator.
  do 5 (rewrite bind_assoc; apply bind_ext; intros ? ? _).
  repeat (apply bind_ext; intros ? ? _).
  destruct (ltb _ _ || ltb _ _); [done|].
  apply bind_ext. intros ? ? _. apply IH.
Qed.

Lemma general_rest_operator x r n b tol atol lr_x lr_y w :
  general_rest' x r n b tol atol (map sqrt lr_x) lr_y w
  = operator_rest grad_x (A' lr_x lr_y) x r n b tol atol w.
Proof.
  unfold general_rest, operator_rest.
  apply bind_ext. intros bv w1 _.
  destruct (negb _); [done|].
  repeat (apply bind_ext; intros ? ? _).
  destruct (ltb _ _ || ltb _ _); [done|].
  unfold bind. by rewrite general_loop_operator.
Qed.

Lemma general_init_operator b lr_x lr_y x nsteps w :
  general_init' b (map sqrt lr_x) lr_y x nsteps w
  = operator_init (A' lr_x lr_y) b x nsteps w.
Proof.
  unfold general_init, operator_init.
  apply bind_ext. intros bv w1 _.
  destruct x as [x|]; [|done].
  apply bind_ext. intros xv w2 Hx.
  unfold general_operator.
  rewrite bind_assoc. apply bind_ext. intros v w3 H3.
  rewrite bind_assoc. apply bind_ext. intros h1 w4 H4.
  rewrite bind_assoc. apply bind_ext. intros h1' w5 H5.
  rewrite bind_assoc. apply bind_ext. intros h2 w6 H6.
  rewrite bind_assoc. apply bind_ext. intros h2' w7 H7.
  injection Hx as <- <-. injection H3 as _ <-. injection H5 as _ <-.
  injection H7 as _ <-.
  apply Hvp_vec_tensors in H4, H6.
  unfold bind at 1, read at 1. rewrite H6, H4. reflexivity.
Qed.

(** [general_conjugate_gradient] is conjugate gradient over one operator
    application: that of the warm start and of every iteration is
    [general_operator]. *)
Lemma general_applies_operator b lr_x lr_y x nsteps tol atol w :
  general' b lr_x lr_y x nsteps tol atol w
  = operator_cg grad_x (A' lr_x lr_y) b x nsteps tol atol w.
Proof.
  unfold general_conjugate_gradient, operator_cg. unfold bind.
  rewrite general_init_operator.
  destruct (operator_init _ _ _ _ _) as [[[[x' r] n]|e] w1]; [|done].
  apply general_rest_operator.
Qed.

(** *** The iteration count *)

Lemma bind_inv_ok {A B} (m : M A) (k : A -> M B) w b w' :
  bind m k w = (Ok b, w') -> exists a w1, m w = (Ok a, w1) /\ k a w1 = (Ok b, w').
Proof.
  unfold bind. destruct (m w) as [[a|e] w1]; [|done]. intros H. by exists a, w1.
Qed.

Ltac bind_inv H :=
  let a := fresh "a" in
  let w := fresh "w" in
  let E := fresh "E" in
  apply bind_inv_ok in H as (a & w & E & H).

(** A loop that returns has bound [i] to the index of its last
    iteration, unless it had no index to run through. *)
Lemma cg_loop_index x rt atol lr_x lr_y fuel i last r p rdotr w o w' :
  cg_loop' x rt atol lr_x lr_y fuel i last r p rdotr w = (Ok o, w') ->
  (fuel = 0%nat /\ o = last) \/ (exists j, o = Some j /\ i <= j < i + Z.of_nat fuel).
Proof.
  revert i last r p rdotr w.
  induction fuel as [|fuel IH]; intros i last r p rdotr w H; simpl in H.
  - left. by injection H as <- _.
  - right. do 10 bind_inv H.
    destruct (ltb _ _ || ltb _ _).
    + injection H as <- _. exists i. split; [done | lia].
    + apply IH in H as [[-> ->]|(j & -> & Hj)].
      * exists i. split; [done | lia].
      * exists j. split; [done | lia].
Qed.

Lemma general_loop_index x rt atol lr_x lr_y fuel i last r p rdotr w o w' :
  general_loop' x rt atol lr_x lr_y fuel i last r p rdotr w = (Ok o, w') ->
  (fuel = 0%nat /\ o = last) \/ (exists j, o = Some j /\ i <= j < i + Z.of_nat fuel).
Proof.
  revert i last r p rdotr w.
  induction fuel as [|fuel IH]; intros i last r p rdotr w H; simpl in H.
  - left. by injection H as <- _.
  - right. do 12 bind_inv H.
    destruct (ltb _ _ || ltb _ _).
    + injection H as <- _. exists i. split; [done | lia].
    + bind_inv H. apply IH in H as [[-> ->]|(j & -> & Hj)].
      * exists i. split; [done | lia].
      * exists j. split; [done | lia].
Qed.

(** The count a solve returns is 1 after the early exit and otherwise
    the index of the last iteration plus one, that is, the number of
    iterations run: at least 1 and at most the number of steps left after
    the initialisation. *)
Lemma cg_rest_count x r n b tol atol lr_x lr_y w x' c w' :
  cg_rest' x r n b tol atol lr_x lr_y w = (Ok (x', c), w') ->
  c = 1 \/ 1 <= c <= n.
Proof.
  unfold cg_rest. intros H. do 3 bind_inv H.
  destruct (ltb _ _ || ltb _ _).
  - left. by injection H as _ <- _.
  - right. bind_inv H. destruct a2 as [j|]; [|done].
    bind_inv H. injection H as _ <- _.
    apply cg_loop_index in E2 as [[_ [=]]|(j' & [= <-] & Hj)]. lia.
Qed.

Lemma general_rest_count x r n b tol atol lr_x lr_y w x' c w' :
  general_rest' x r n b tol atol lr_x lr_y w = (Ok (x', c), w') ->
  c = 1 \/ 1 <= c <= n.
Proof.
  unfold general_rest. intros H. bind_inv H.
  destruct (negb _); [done|]. do 3 bind_inv H.
  destruct (ltb _ _ || ltb _ _).
  - left. by injection H as _ <- _.
  - right. bind_inv H. destruct a3 as [j|]; [|done].
    bind_inv H. injection H as _ <- _.
    apply general_loop_index in E3 as [[_ [=]]|(j' & [= <-] & Hj)]. lia.
Qed.

(** *** The operator of the specification *)

Lemma zip_with_repeat_l (f : sc -> sc -> sc) a (l : vec) :
  zip_with f (repeat a (length l)) l = map (f a) l.
Proof. induction l as [|b l IH]; simpl; [done|]. by rewrite IH. Qed.

Lemma zip_with_repeat_r (f : sc -> sc -> sc) b (l : vec) :
  zip_with f l (repeat b (length l)) = map (fun a => f a b) l.
Proof. induction l as [|a l IH]; simpl; [done|]. by rewrite IH. Qed.

Lemma zip_with_comm (f : sc -> sc -> sc) (a b : vec) :
  (forall x y, f x y = f y x) -> zip_with f a b = zip_with f b a.
Proof.
  intros Hf. revert b. induction a as [|x a IH]; intros [|y b]; simpl; [done..|].
  by rewrite Hf, IH.
Qed.

Lemma elementwise_comm (f : sc -> sc -> sc) (a b : vec) :
  (forall x y, f x y = f y x) -> elementwise f a b = elementwise f b a.
Proof. intros Hf. unfold elementwise. by apply zip_with_comm. Qed.

(** What torch computes for [a op b] is the elementwise combination. *)
Lemma broadcast_elementwise (f : sc -> sc -> sc) (a b q : vec) :
  broadcast f a b = Ok q -> q = elementwise f a b.
Proof.
  unfold broadcast, elementwise.
  destruct (Nat.eqb (length a) (length b)) eqn:E.
  - intros [= <-]. apply Nat.eqb_eq in E.
    destruct a as [|a0 [|a1 a]], b as [|b0 [|b1 b]]; simpl in E; try done.
  - destruct a as [|a0 [|a1 a]].
    + destruct b as [|b0 [|b1 b]]; try done. by intros [= <-].
    + intros [= <-]. destruct b as [|b0 [|b1 b]]; [done | done |].
      simpl expand. apply (eq_sym (zip_with_repeat_l f a0 (b0 :: b1 :: b))).
    + destruct b as [|b0 [|b1 b]]; [done | | done].
      intros [= <-]. simpl expand.
      apply (eq_sym (zip_with_repeat_r f b0 (a0 :: a1 :: a))).
Qed.

Lemma broadcast__elementwise (f : sc -> sc -> sc) (a b q : vec) :
  broadcast_ f a b = Ok q -> q = elementwise f a b.
Proof.
  unfold broadcast_, elementwise.
  destruct (Nat.eqb (length a) (length b)) eqn:E.
  - intros [= <-]. apply Nat.eqb_eq in E.
    destruct a as [|a0 [|a1 a]], b as [|b0 [|b1 b]]; simpl in E; try done.
  - destruct b as [|b0 [|b1 b]]; [done | | done].
    intros [= <-]. destruct a as [|a0 [|a1 a]]; [done | done |].
    simpl expand. apply (eq_sym (zip_with_repeat_r f b0 (a0 :: a1 :: a))).
Qed.

(** An operator application of the code that returns has computed the
    operator of the specification. *)
Lemma general_operator_spec lr_x lr_y p w q w' :
  (forall a b, mul a b = mul b a) ->
  A' lr_x lr_y p w = (Ok q, w') -> spec' lr_x lr_y p w = (Ok q, w').
Proof.
  intros Hc H. unfold general_operator in H. unfold spec_operator.
  apply bind_inv_ok in H as (v & w1 & E1 & H).
  injection E1 as E1 <-. apply broadcast_elementwise in E1 as ->.
  apply bind_inv_ok in H as (d_yx & w2 & E2 & H).
  rewrite (bind_ok _ _ _ _ _ E2).
  apply bind_inv_ok in H as (inner & w3 & E3 & H).
  injection E3 as E3 <-. apply broadcast__elementwise in E3 as ->.
  rewrite (elementwise_comm mul d_yx lr_y Hc) in H.
  apply bind_inv_ok in H as (d_xy & w4 & E4 & H).
  rewrite (bind_ok _ _ _ _ _ E4).
  apply bind_inv_ok in H as (outer & w5 & E5 & H).
  injection E5 as E5 <-. apply broadcast__elementwise in E5 as ->.
  rewrite (elementwise_comm mul d_xy (map sqrt lr_x) Hc) in H.
  injection H as H <-. apply broadcast_elementwise in H as ->. done.
Qed.

(** Conjugate gradient over an operator returns what it returns over any
    operator that computes as much. *)
Lemma bind_mono {A B} (m : M A) (k k2 : A -> M B) w b w' :
  (forall a w1, m w = (Ok a, w1) -> k a w1 = (Ok b, w') -> k2 a w1 = (Ok b, w')) ->
  bind m k w = (Ok b, w') -> bind m k2 w = (Ok b, w').
Proof.
  intros Hk H. apply bind_inv_ok in H as (a & w1 & E & H).
  rewrite (bind_ok _ _ _ _ _ E). by apply Hk.
Qed.

Lemma bind_mono2 {A B} (m m2 : M A) (k k2 : A -> M B) w b w' :
  (forall a w1, m w = (Ok a, w1) -> m2 w = (Ok a, w1)) ->
  (forall a w1, m w = (Ok a, w1) -> k a w1 = (Ok b, w') -> k2 a w1 = (Ok b, w')) ->
  bind m k w = (Ok b, w') -> bind m2 k2 w = (Ok b, w').
Proof.
  intros Hm Hk H. apply bind_inv_ok in H as (a & w1 & E & H).
  rewrite (bind_ok _ _ _ _ _ (Hm _ _ E)). by apply (Hk _ _ E).
Qed.

Section Monotone.
Variables A1 A2 : vec -> M vec.
Hypothesis refines : forall p w q w', A1 p w = (Ok q, w') -> A2 p w = (Ok q, w').

Lemma operator_loop_mono x rt atol fuel i last r p rdotr w o w' :
  operator_loop A1 x rt atol fuel i last r p rdotr w = (Ok o, w') ->
  operator_loop A2 x rt atol fuel i last r p rdotr w = (Ok o, w').
Proof.
  revert i last r p rdotr w.
  induction fuel as [|fuel IH]; intros i last r p rdotr w; simpl; [done|].
  intros H. apply bind_inv_ok in H as (Avp & w1 & E & H).
  rewrite (bind_ok _ _ _ _ _ (refines _ _ _ _ E)). revert H.
  do 6 (apply bind_mono; intros ? ? _).
  destruct (ltb _ _ || ltb _ _); [done|].
  apply bind_mono. intros ? ? _. apply IH.
Qed.

Lemma operator_cg_mono g b x nsteps tol atol w o w' :
  operator_cg g A1 b x nsteps tol atol w = (Ok o, w') ->
  operator_cg g A2 b x nsteps tol atol w = (Ok o, w').
Proof.
  unfold operator_cg. apply bind_mono2.
  - intros [[x' r] n] w1. unfold operator_init.
    apply bind_mono. intros bv w2 _.
    destruct x as [x0|]; [|done].
    apply bind_mono. intros xv w3 _ H.
    apply bind_inv_ok in H as (Avx & w4 & E & H).
    by rewrite (bind_ok _ _ _ _ _ (refines _ _ _ _ E)).
  - intros [[x' r] n] w1 _. unfold operator_rest.
    apply bind_mono. intros bv w2 _.
    destruct (negb _); [done|].
    do 3 (apply bind_mono; intros ? ? _).
    destruct (ltb _ _ || ltb _ _); [done|].
    apply bind_mono2; [intros ? ?; apply operator_loop_mono | by intros].
Qed.

End Monotone.

(** C1.  Every operator application of [general_conjugate_gradient]
    computes the operator of the specification,
    [A(p) = p + sqrt(lr_x) * Hvp(grad_y, x_params, lr_y * Hvp(grad_x, y_params, sqrt(lr_x) * p))],
    the products and the sum being elementwise.  The solver is conjugate
    gradient over one operator application, [general_operator], which the
    warm start and every iteration perform; an application that returns
    has called the oracle on [sqrt(lr_x) * p] and on [lr_y] times the first
    answer, and returns [p] plus [sqrt(lr_x)] times the second answer; so
    a solve that returns has returned what conjugate gradient over the
    specified operator returns.  Multiplication of scalars is taken to be
    commutative. *)
Theorem general_computes_spec_operator lr_x lr_y :
  (forall a b, mul a b = mul b a) ->
  (forall b x nsteps tol atol w,
     general' b lr_x lr_y x nsteps tol atol w
     = operator_cg grad_x (A' lr_x lr_y) b x nsteps tol atol w)
  /\ (forall p w q w',
        A' lr_x lr_y p w = (Ok q, w') -> spec' lr_x lr_y p w = (Ok q, w'))
  /\ (forall b x nsteps tol atol w res w',
        general' b lr_x lr_y x nsteps tol atol w = (Ok res, w') ->
        operator_cg grad_x (spec' lr_x lr_y) b x nsteps tol atol w = (Ok res, w')).
Proof.
  intros Hc. split; [intros; apply general_applies_operator|].
  split; [intros p w q w'; by apply general_operator_spec|].
  intros b x nsteps tol atol w res w' H.
  rewrite general_applies_operator in H. revert H.
  apply operator_cg_mono. intros p w0 q w1. by apply general_operator_spec.
Qed.


(** *** The warm start is updated in place *)

Local Abbreviation cg_value_loop' := (cg_value_loop vjp grad_x grad_y x_params y_params).
Local Abbreviation cg_values' := (cg_values vjp grad_x grad_y x_params y_params).
Local Abbreviation general_value_loop' :=
  (general_value_loop vjp grad_x grad_y x_params y_params trigger x_reducer y_reducer
     rebuild backward).
Local Abbreviation general_values' :=
  (general_values vjp grad_x grad_y x_params y_params trigger x_reducer y_reducer
     rebuild backward).

Lemma put_put x (v v' : vec) w : put x v' (put x v w) = put x v' w.
Proof. unfold put, set_tensors. simpl. by rewrite insert_insert_eq. Qed.

Lemma put_id x (v : vec) w : tensors w !! x = Some v -> put x v w = w.
Proof. intros H. destruct w as [t g e]. unfold put, set_tensors. simpl in *. by rewrite insert_id. Qed.

Lemma obl_ret {A} x (a : A) : oblivious_at x (ret a).
Proof. done. Qed.
Lemma obl_raise {A} x e : oblivious_at x (@raise _ A e).
Proof. done. Qed.
Lemma obl_lift {A} x (o : outcome A) : oblivious_at x (lift o).
Proof. done. Qed.
Lemma obl_emit x e : oblivious_at x (emit e).
Proof. done. Qed.
Lemma obl_bind {A B} x (m : M A) (k : A -> M B) :
  oblivious_at x m -> (forall a, oblivious_at x (k a)) -> oblivious_at x (bind m k).
Proof.
  intros Hm Hk v w. unfold bind. rewrite Hm.
  destruct (m w) as [[a|e] w1]; simpl; [apply Hk | done].
Qed.
Lemma obl_if {A} x (c : bool) (m1 m2 : M A) :
  oblivious_at x m1 -> oblivious_at x m2 -> oblivious_at x (if c then m1 else m2).
Proof. by destruct c. Qed.
Lemma obl_read x b : b <> x -> oblivious_at x (read b).
Proof. intros Hb v w. unfold read, put. simpl. by rewrite lookup_insert_ne. Qed.
Lemma obl_zero_grad x ps : oblivious_at x (zero_grad ps).
Proof. done. Qed.
Lemma obl_vectorize_grad x ps : oblivious_at x (vectorize_grad ps).
Proof.
  intros v w. unfold vectorize_grad. simpl.
  by destruct (vectorize_loop ps (grads w) []).
Qed.

Create HintDb obl.
#[local] Hint Resolve obl_ret obl_raise obl_lift obl_emit obl_zero_grad
  obl_vectorize_grad obl_read : obl.

Ltac obl_steps :=
  repeat (apply obl_bind; [solve [auto with obl] | intros ?]).

Lemma obl_autograd_grad x g ps v rg : oblivious_at x (autograd_grad vjp g ps v rg).
Proof. unfold autograd_grad. obl_steps. auto with obl. Qed.

Lemma obl_autograd_backward x g v ps rg :
  oblivious_at x (autograd_backward vjp g v ps rg).
Proof.
  unfold autograd_backward. obl_steps.
  intros u w. simpl. by destruct (accumulate _ _ _ _ _).
Qed.

#[local] Hint Resolve obl_autograd_grad obl_autograd_backward : obl.

Lemma obl_Hvp_vec x g ps v bw rg tr rd rb :
  oblivious_at x (Hvp_vec vjp g ps v bw rg tr rd rb).
Proof.
  unfold Hvp_vec.
  apply obl_if; [auto with obl|]. apply obl_if; [auto with obl|].
  apply obl_bind; [|intros h; apply obl_if; auto with obl].
  unfold Hvp_compute. destruct bw.
  - apply obl_bind; [auto with obl | intros _].
    apply obl_bind.
    { destruct rd as [r|]; [|auto with obl].
      apply obl_bind; [destruct rb|]; auto with obl. }
    intros _. obl_steps. auto with obl.
  - obl_steps. auto with obl.
Qed.

#[local] Hint Resolve obl_Hvp_vec : obl.

Lemma stores_ext {B C} x xv (c c2 : M B) (cv : M C) f :
  (forall w, c w = c2 w) -> stores x xv c2 cv f -> stores x xv c cv f.
Proof. intros E H w o w1 Hc. rewrite E in Hc. by apply H. Qed.

Lemma stores_obl_bind {A B C} x xv (m : M A) (k : A -> M B) (kv : A -> M C) f :
  oblivious_at x m -> (forall a, stores x xv (k a) (kv a) f) ->
  stores x xv (bind m k) (bind m kv) f.
Proof.
  intros Hm Hk w o w1 H. unfold bind in H. rewrite Hm in H.
  destruct (m w) as [[a|e] w2] eqn:E; simpl in H; [|done].
  rewrite (bind_ok _ _ _ _ _ E). by apply Hk.
Qed.

Lemma stores_ret {B C} x xv (o : B) (r : C) f :
  f r = (o, xv) -> stores x xv (ret o) (ret r) f.
Proof.
  intros Hf w o' w1 [= <- <-]. exists r, w. by rewrite Hf.
Qed.

Lemma stores_raise {B C} x xv e (cv : M C) (f : C -> B * vec) :
  stores x xv (raise e) cv f.
Proof. by intros w o w1. Qed.

Lemma stores_if {B C} x xv (c : bool) (m1 m2 : M B) (v1 v2 : M C) f :
  stores x xv m1 v1 f -> stores x xv m2 v2 f ->
  stores x xv (if c then m1 else m2) (if c then v1 else v2) f.
Proof. by destruct c. Qed.

(** Reading the warm start gives its content. *)
Lemma stores_read {B C} x xv (k : vec -> M B) (cv : M C) f :
  stores x xv (k xv) cv f -> stores x xv (bind (read x) k) cv f.
Proof.
  intros H w o w1 Hc. unfold bind, read in Hc. simpl in Hc.
  rewrite lookup_insert_eq in Hc. by apply H.
Qed.

(** [x.data.add_(u)] stores the elementwise sum in the warm start. *)
Lemma stores_update {B C} x xv (u : vec) (K : M B) (cv : M C) f :
  stores x (elementwise add xv u) K cv f ->
  stores x xv (xv0 <- read x ;; xv' <- lift (add_ xv0 u) ;; _ <- write x xv' ;; K) cv f.
Proof.
  intros H. apply stores_read. intros w o w1 Hc.
  unfold bind at 1, lift at 1 in Hc.
  destruct (add_ xv u) as [xv'|e] eqn:E; [|done].
  apply broadcast__elementwise in E as ->.
  assert (E2 : write x (elementwise add xv u) (put x xv w)
               = (Ok tt, put x (elementwise add xv u) w)).
  { rewrite <- (put_put x xv (elementwise add xv u) w). reflexivity. }
  rewrite (bind_ok _ _ _ _ _ E2) in Hc. by apply H.
Qed.

Lemma stores_bind {A B C D} x xv (m : M A) (mv : M D) (g : D -> A * vec)
  (k : A -> M B) (kv : D -> M C) f :
  stores x xv m mv g ->
  (forall r, stores x (g r).2 (k (g r).1) (kv r) f) ->
  stores x xv (bind m k) (bind mv kv) f.
Proof.
  intros Hm Hk w o w1 H. apply bind_inv_ok in H as (a & w2 & E & H).
  apply Hm in E as (r & w' & Ev & -> & ->).
  rewrite (bind_ok _ _ _ _ _ Ev). by apply (Hk r).
Qed.

Ltac stores_steps :=
  repeat (apply stores_obl_bind; [solve [auto with obl] | intros ?]).

Lemma cg_loop_stores x xv rt atol lr_x lr_y fuel i last r p rdotr :
  stores x xv (cg_loop' x rt atol lr_x lr_y fuel i last r p rdotr)
    (cg_value_loop' xv rt atol lr_x lr_y fuel i last r p rdotr) id.
Proof.
  revert xv i last r p rdotr.
  induction fuel as [|fuel IH]; intros xv i last r p rdotr; simpl.
  - by apply stores_ret.
  - stores_steps. apply stores_update. stores_steps.
    apply stores_if; [by apply stores_ret | apply IH].
Qed.

Lemma general_loop_stores x xv rt atol lr_x lr_y fuel i last r p rdotr :
  stores x xv (general_loop' x rt atol lr_x lr_y fuel i last r p rdotr)
    (general_value_loop' xv rt atol lr_x lr_y fuel i last r p rdotr) id.
Proof.
  revert xv i last r p rdotr.
  induction fuel as [|fuel IH]; intros xv i last r p rdotr; simpl.
  - by apply stores_ret.
  - stores_steps. apply stores_update. stores_steps.
    apply stores_if; [by apply stores_ret|].
    apply stores_obl_bind; [auto with obl | intros ?]. apply IH.
Qed.

Ltac stores_assoc := eapply stores_ext; [intros ?; apply bind_assoc|].

Lemma bind_ret_l {A B} (a : A) (k : A -> M B) w : bind (ret a) k w = k a w.
Proof. reflexivity. Qed.

Lemma cg_stores b x0 xv nsteps tol atol lr_x lr_y :
  x0 <> b ->
  stores x0 xv (cg' b (Some x0) nsteps tol atol lr_x lr_y)
    (cg_values' b xv nsteps tol atol lr_x lr_y) (fun r => ((x0, r.2), r.1)).
Proof.
  intros Hb. assert (Hr : oblivious_at x0 (read b)) by (apply obl_read; congruence).
  unfold conjugate_gradient, cg_init, cg_values.
  stores_assoc. apply stores_obl_bind; [done | intros bv].
  stores_assoc. apply stores_read.
  stores_assoc. apply stores_obl_bind; [auto with obl | intros h1].
  stores_assoc. apply stores_obl_bind; [auto with obl | intros h2].
  stores_assoc. apply stores_read.
  stores_assoc. apply stores_obl_bind; [auto with obl | intros Avx].
  stores_assoc. apply stores_obl_bind; [done | intros bv'].
  stores_assoc. apply stores_obl_bind; [auto with obl | intros r].
  eapply stores_ext; [intros w; apply bind_ret_l|]. cbv beta iota. unfold cg_rest.
  apply stores_obl_bind; [auto with obl | intros rdotr].
  apply stores_obl_bind; [done | intros bv''].
  apply stores_obl_bind; [auto with obl | intros bb].
  apply stores_if; [by apply stores_ret|].
  eapply stores_bind; [apply cg_loop_stores|].
  intros [[j|] xf]; simpl; [|apply stores_raise].
  apply stores_obl_bind; [destruct (99 <? j); auto with obl | intros _].
  by apply stores_ret.
Qed.

Lemma general_stores b x0 xv lr_x lr_y nsteps tol atol :
  x0 <> b ->
  stores x0 xv (general' b lr_x lr_y (Some x0) nsteps tol atol)
    (general_values' b xv lr_x lr_y nsteps tol atol) (fun r => ((x0, r.2), r.1)).
Proof.
  intros Hb. assert (Hr : oblivious_at x0 (read b)) by (apply obl_read; congruence).
  unfold general_conjugate_gradient, general_init, general_values.
  stores_assoc. apply stores_obl_bind; [done | intros bv].
  stores_assoc. apply stores_read.
  stores_assoc. apply stores_obl_bind; [auto with obl | intros v].
  stores_assoc. apply stores_obl_bind; [auto with obl | intros h1].
  stores_assoc. apply stores_obl_bind; [auto with obl | intros h1'].
  stores_assoc. apply stores_obl_bind; [auto with obl | intros h2].
  stores_assoc. apply stores_obl_bind; [auto with obl | intros h2'].
  stores_assoc. apply stores_read.
  stores_assoc. apply stores_obl_bind; [auto with obl | intros Avx].
  stores_assoc. apply stores_obl_bind; [done | intros bv'].
  stores_assoc. apply stores_obl_bind; [auto with obl | intros r].
  eapply stores_ext; [intros w; apply bind_ret_l|]. cbv beta iota. unfold general_rest.
  apply stores_obl_bind; [done | intros bv0].
  apply stores_if; [apply stores_raise|].
  apply stores_obl_bind; [auto with obl | intros rdotr].
  apply stores_obl_bind; [done | intros bv''].
  apply stores_obl_bind; [auto with obl | intros bb].
  apply stores_if; [by apply stores_ret|].
  eapply stores_bind; [apply general_loop_stores|].
  intros [[j|] xf]; simpl; [|apply stores_raise].
  apply stores_obl_bind; [destruct (100 <? j); auto with obl | intros _].
  by apply stores_ret.
Qed.

Lemma stores_in_place x0 w (m : M (loc * Z)) (values : vec -> M (vec * Z)) :
  (forall xv, stores x0 xv m (values xv) (fun r => ((x0, r.2), r.1))) ->
  in_place x0 w m values.
Proof.
  intros H xv res c w' Hx Hrun.
  rewrite <- (put_id x0 xv w Hx) in Hrun.
  apply H in Hrun as ([xf c'] & w'' & Ev & [= -> ->] & ->). simpl.
  split; [done|]. exists xf. split.
  - unfold put. simpl. apply lookup_insert_eq.
  - by rewrite Ev.
Qed.


End GeneralProofs.

(** *** The two solvers on learning rates one *)

Section Agreement.
Hypothesis mul_one_l : forall a, mul one a = a.
Hypothesis mul_one_r : forall a, mul a one = a.
Hypothesis sqrt_one : sqrt one = one.
Hypothesis sized : engine_sized vjp.

Local Abbreviation nx := (sum_list_with numel x_params).
Local Abbreviation ny := (sum_list_with numel y_params).

Variables (trigger : option sc) (x_reducer y_reducer : option reducer) (rebuild : bool).

Local Abbreviation graph_loop :=
  (general_loop vjp grad_x grad_y x_params y_params trigger x_reducer y_reducer rebuild false).
Local Abbreviation graph_init :=
  (general_init vjp grad_x grad_y x_params y_params trigger x_reducer y_reducer rebuild false).
Local Abbreviation graph_rest :=
  (general_rest vjp grad_x grad_y x_params y_params trigger x_reducer y_reducer rebuild false).

Lemma lift_ok {A B} (o : outcome A) (a : A) (k : A -> M B) w :
  o = Ok a -> bind (lift o) k w = k a w.
Proof. by intros ->. Qed.

Lemma loops_agree x rt atol fuel i last r p rdotr w :
  length r = nx -> length p = nx ->
  graph_loop x rt atol (repeat one nx) (repeat one ny) fuel i last r p rdotr w
  = cg_loop' x rt atol one one fuel i last r p rdotr w.
Proof.
  revert i last r p rdotr w.
  induction fuel as [|fuel IH]; intros i last r p rdotr w Hr Hp; simpl; [done|].
  rewrite (lift_ok _ p) by by apply tmul_ones.
  rewrite Hvp_vec_graph_args. apply bind_ext. intros h1 w1 H1.
  apply Hvp_vec_graph_length in H1; [|done].
  rewrite (lift_ok _ h1) by by apply mul__ones.
  rewrite mul_scalar_one by done.
  rewrite Hvp_vec_graph_args. apply bind_ext. intros h2 w2 H2.
  apply Hvp_vec_graph_length in H2; [|done].
  rewrite (lift_ok _ h2) by by apply mul__ones.
  rewrite mul_scalar_one by done.
  apply bind_ext. intros Avp w3 _.
  apply bind_ext. intros pAvp w4 _.
  apply bind_ext. intros xv w5 _.
  apply bind_ext. intros xv' w6 _.
  apply bind_ext. intros [] w7 _.
  apply bind_ext. intros r' w8 Hr'.
  apply bind_ext. intros new_rdotr w9 _.
  assert (Hlr : length r' = nx).
  { unfold lift in Hr'. injection Hr' as Hr' _.
    apply length_broadcast_ in Hr'. congruence. }
  destruct (broadcast_same add r' (scale (div new_rdotr rdotr) p)) as [Hp' Hlp'].
  { unfold scale. rewrite length_map. congruence. }
  rewrite (lift_ok _ _ _ _ Hp').
  destruct (ltb _ _ || ltb _ _); [done|].
  rewrite (lift_ok _ _ _ _ Hp').
  apply IH; congruence.
Qed.

Lemma inits_agree b x nsteps w :
  (forall x0, x = Some x0 -> length (default [] (tensors w !! x0)) = nx) ->
  graph_init b (repeat one nx) (repeat one ny) x nsteps w
  = cg_init' b x nsteps one one w.
Proof.
  intros Hx. unfold general_init, cg_init.
  apply bind_ext. intros bv w1 Hb. injection Hb as _ <-.
  destruct x as [x0|]; [|done].
  apply bind_ext. intros xv w2 Hxv. injection Hxv as <- <-.
  erewrite lift_ok by (apply tmul_ones; auto).
  rewrite Hvp_vec_graph_args. apply bind_ext. intros h1 w1 H1.
  apply Hvp_vec_graph_length in H1; [|done].
  rewrite (lift_ok _ h1) by by apply mul__ones.
  rewrite mul_scalar_one by done.
  rewrite Hvp_vec_graph_args. apply bind_ext. intros h2 w2 H2.
  apply Hvp_vec_graph_length in H2; [|done].
  rewrite (lift_ok _ h2) by by apply mul__ones.
  by rewrite mul_scalar_one.
Qed.

(** The residual the initialisation hands on has the size of [b], and
    [b] is still what it was. *)
Lemma cg_init_sized b x nsteps w x' r n w1 :
  is_Some (tensors w !! b) ->
  length (default [] (tensors w !! b)) = nx ->
  (forall x0, x = Some x0 -> length (default [] (tensors w !! x0)) = nx) ->
  cg_init' b x nsteps one one w = (Ok (x', r, n), w1) ->
  length r = nx /\ tensors w1 !! b = tensors w !! b.
Proof.
  intros Hlive Hb Hx. destruct x as [x0|].
  - intros Hi. pose proof (cg_init_warm _ _ _ _ _ _ _ _ _ _ Hi) as (_ & Ht & _).
    split; [|by rewrite Ht].
    revert Hi. unfold cg_init. unfold bind at 1. simpl. unfold bind at 1. simpl.
    unfold bind at 1.
    destruct (Hvp_vec _ _ _ _ _ _ _ _ _ _) as [[h1|e] w2] eqn:H1; [|done].
    unfold bind at 1.
    destruct (Hvp_vec _ _ _ _ _ _ _ _ _ w2) as [[h2|e] w3] eqn:H2; [|done].
    pose proof (Hvp_vec_graph_length _ _ _ _ _ _ _ _ _ _ sized H2) as Hl2.
    apply Hvp_vec_tensors in H1, H2.
    unfold bind at 1. simpl. unfold bind at 1, lift at 1. rewrite H2, H1.
    destruct (broadcast_same add (default [] (tensors w !! x0)) (mul_scalar h2 one))
      as [Ha Hla].
    { unfold mul_scalar. rewrite length_map, Hl2. by apply Hx. }
    unfold tadd. rewrite Ha.
    unfold bind at 1. simpl. rewrite H2, H1.
    destruct (broadcast_same sub (default [] (tensors w !! b))
                (zip_with add (default [] (tensors w !! x0)) (mul_scalar h2 one)))
      as [Hs Hls].
    { rewrite Hla, Hb. symmetry. by apply Hx. }
    unfold bind, lift, tsub. rewrite Hs. unfold ret.
    intros [= <- <- <- <-]. by rewrite Hls.
  - rewrite cg_init_cold. intros [= <- <- <- <-]. simpl.
    assert (Hne : fresh (dom (tensors w)) <> b).
    { intros E. destruct Hlive as [v Hv].
      apply (is_fresh (dom (tensors w))). rewrite E. apply elem_of_dom. by eexists. }
    rewrite !lookup_insert_ne by done. split; [exact Hb | reflexivity].
Qed.

Lemma rests_agree x r n b tol atol w :
  gv_shape grad_x = [length (default [] (tensors w !! b))] ->
  length r = nx ->
  alike (cg_rest' x r n b tol atol one one w)
        (graph_rest x r n b tol atol (repeat one nx) (repeat one ny) w).
Proof.
  intros Hs Hr. unfold cg_rest, general_rest, alike.
  unfold bind, lift, read, shape_eqb. simpl.
  rewrite bool_decide_eq_true_2 by done. simpl.
  rewrite !dot_self.
  destruct (ltb _ _ || ltb _ _); [done|].
  rewrite loops_agree by done.
  destruct (cg_loop _ _ _ _ _ _ _ _ _ _ _ _ _ _ _ _ _) as [[[j|]|e] w1]; [|done..].
  unfold emit, ret. by destruct (99 <? j), (100 <? j).
Qed.

(** C6, as amended.  With an engine whose answers have the size of the
    parameter, [1 * a = a * 1 = a] and [sqrt 1 = 1]: when [grad_x] has
    the shape of [b], [b] and the warm start, if any, have as many
    elements as [x_params], and the learning rates are all-ones vectors
    of the sizes of [x_params] and [y_params],
    [conjugate_gradient] with [lr_x = lr_y = 1] and
    [general_conjugate_gradient] in graph mode end alike: the same
    solution object and iteration count or the same exception, and the
    same values in all tensor objects, the solution included. *)
Theorem variants_agree b x nsteps tol atol w :
  is_Some (tensors w !! b) ->
  gv_shape grad_x = [length (default [] (tensors w !! b))] ->
  length (default [] (tensors w !! b)) = nx ->
  (forall x0, x = Some x0 -> length (default [] (tensors w !! x0)) = nx) ->
  alike (cg' b x nsteps tol atol one one w)
        (general_conjugate_gradient vjp grad_x grad_y x_params y_params trigger
           x_reducer y_reducer rebuild false b (repeat one nx) (repeat one ny)
           x nsteps tol atol w).
Proof.
  intros Hlive Hs Hb Hx.
  rewrite cg_unfold, general_unfold, sqrt_ones by done.
  unfold bind. rewrite inits_agree by done.
  destruct (cg_init _ _ _ _ _ _ _ _ _ _ _) as [[[[x' r] n]|e] w1] eqn:Hi; [|done].
  apply cg_init_sized in Hi as [Hr Hb']; [|done..].
  simpl. apply rests_agree; [|done].
  rewrite Hs. do 3 f_equal. symmetry. exact Hb'.
Qed.

End Agreement.

End SolverProofs.

End Proofs.

(** * Further properties of the code *)

Section Coverage.
Context {S : Scalar}.
Variable vjp : positive -> param -> vec -> option vec.

(** ** [zero_grad] *)

(** X1.  [zero_grad] replaces every buffer of the parameters by zeros of the
    same size, creates none, touches no buffer of another parameter, no
    tensor object and no log, and doing it twice is doing it once. *)
Theorem zero_grad_spec ps w :
  let w' := (zero_grad ps w).2 in
  (zero_grad ps w).1 = Ok tt
  /\ tensors w' = tensors w /\ events w' = events w
  /\ (forall p g, p ∈ ps -> grads w !! p_id p = Some g ->
                  grads w' !! p_id p = Some (zeros (length g)))
  /\ (forall k, grads w !! k = None -> grads w' !! k = None)
  /\ (forall k, k ∉ map p_id ps -> grads w' !! k = grads w !! k)
  /\ zero_grad ps w' = (Ok tt, w').
Proof.
  simpl. repeat split.
  - intros p g Hp Hg. rewrite lookup_zero_grad_loop, Hg.
    rewrite decide_True; [done|]. apply list_elem_of_In, in_map. by apply list_elem_of_In.
  - intros k. rewrite lookup_zero_grad_loop.
    destruct (grads w !! k); [done|]. intros _. by destruct (decide _).
  - intros k Hk. rewrite lookup_zero_grad_loop. by rewrite decide_False.
  - unfold zero_grad, set_grads. simpl. f_equal. f_equal.
    apply map_eq. intros k.
    pose proof (lookup_zero_grad_loop ps (grads w) k) as E1.
    pose proof (lookup_zero_grad_loop ps (zero_grad_loop ps (grads w)) k) as E2.
    destruct (decide (k ∈ map p_id ps)) as [e|e]; [|exact E2].
    etrans; [exact E2|]. etrans; [apply (f_equal _ E1)|].
    etrans; [|symmetry; exact E1].
    destruct (grads w !! k) as [g|]; [|done]. simpl.
    unfold zeros. by rewrite repeat_length.
Qed.

(** ** [vectorize_grad] on any list *)

Lemma vectorize_loop_clears ps (gs : gmap pid vec) acc :
  (vectorize_loop ps gs acc).2 = clear_grads ps gs.
Proof.
  revert gs acc. induction ps as [|p ps IH]; intros gs acc; simpl; [done|].
  destruct (gs !! p_id p) as [g|] eqn:Hg; rewrite IH; [done|].
  unfold clear_grads. simpl. by rewrite (delete_id gs).
Qed.

Lemma buffers_sized_delete ps (gs : gmap pid vec) k :
  buffers_sized ps gs -> buffers_sized ps (delete k gs).
Proof.
  intros H p g Hp Hg. apply (H p g Hp).
  destruct (decide (p_id p = k)) as [<-|Hne].
  - by rewrite lookup_delete_eq in Hg.
  - by rewrite lookup_delete_ne in Hg.
Qed.

Lemma buffers_sized_tail p ps (gs : gmap pid vec) :
  buffers_sized (p :: ps) gs -> buffers_sized ps gs.
Proof. intros H q g Hq. apply H. by apply list_elem_of_further. Qed.

Lemma vectorize_loop_length ps (gs : gmap pid vec) acc :
  buffers_sized ps gs ->
  length (concat (vectorize_loop ps gs acc).1)
  = (length (concat acc) + sum_list_with numel ps)%nat.
Proof.
  revert gs acc. induction ps as [|p ps IH]; intros gs acc Hs; simpl; [lia|].
  destruct (gs !! p_id p) as [g|] eqn:Hg.
  - rewrite IH by (apply buffers_sized_delete; by apply buffers_sized_tail in Hs).
    rewrite concat_app, length_app. simpl. rewrite app_nil_r.
    rewrite (Hs p g); [lia | apply list_elem_of_here | done].
  - rewrite IH by by apply buffers_sized_tail in Hs.
    rewrite concat_app, length_app. simpl. rewrite app_nil_r.
    unfold zeros. rewrite repeat_length. lia.
Qed.

(** X2.  Whatever the list of parameters (empty, or with a parameter more
    than once), [vectorize_grad] leaves no buffer on any parameter of the
    list, touches no other buffer, no tensor object and no log; and when
    the buffers have the sizes of their parameters, a vector it returns
    has as many elements as the parameters together. *)
Theorem vectorize_grad_any_list ps w :
  let w' := (vectorize_grad ps w).2 in
  (forall p, p ∈ ps -> grads w' !! p_id p = None)
  /\ (forall k, k ∉ map p_id ps -> grads w' !! k = grads w !! k)
  /\ tensors w' = tensors w /\ events w' = events w
  /\ (buffers_sized ps (grads w) ->
      forall h, (vectorize_grad ps w).1 = Ok h -> length h = sum_list_with numel ps).
Proof.
  unfold vectorize_grad.
  pose proof (vectorize_loop_clears ps (grads w) []) as Hc.
  pose proof (vectorize_loop_length ps (grads w) []) as Hl.
  destruct (vectorize_loop ps (grads w) []) as [grad_list gs]. simpl in *. subst gs.
  repeat split.
  - intros p Hp. rewrite lookup_clear_grads. rewrite decide_True; [done|].
    apply list_elem_of_In, in_map. by apply list_elem_of_In.
  - intros k Hk. rewrite lookup_clear_grads. by rewrite decide_False.
  - intros Hs h Hh. apply torch_cat_ok in Hh as ->. by rewrite Hl.
Qed.

(** A list whose buffers are all zeros is collected as zeros. *)
Lemma vectorize_loop_zeroed ps (gs : gmap pid vec) acc :
  (forall p g, p ∈ ps -> gs !! p_id p = Some g -> g = zeros (numel p)) ->
  (vectorize_loop ps gs acc).1 = acc ++ map (fun p => zeros (numel p)) ps.
Proof.
  revert gs acc. induction ps as [|p ps IH]; intros gs acc H; simpl.
  - by rewrite app_nil_r.
  - destruct (gs !! p_id p) as [g|] eqn:Hg.
    + rewrite IH.
      * rewrite (H p g); [by rewrite <- app_assoc | apply list_elem_of_here | done].
      * intros q g' Hq Hg'. apply (H q); [by apply list_elem_of_further|].
        destruct (decide (p_id q = p_id p)) as [E|E].
        -- rewrite E in Hg'. by rewrite lookup_delete_eq in Hg'.
        -- by rewrite lookup_delete_ne in Hg'.
    + rewrite IH; [by rewrite <- app_assoc|].
      intros q g' Hq. apply H. by apply list_elem_of_further.
Qed.

(** X3.  After [zero_grad], [vectorize_grad] on the same non-empty list
    returns the all-zero vector, provided the buffers had the sizes of
    their parameters. *)
Theorem zero_grad_then_vectorize ps w :
  ps <> [] ->
  buffers_sized ps (grads w) ->
  (bind (zero_grad ps) (fun _ => vectorize_grad ps) w).1
  = Ok (zeros (sum_list_with numel ps)).
Proof.
  intros Hne Hs. unfold bind, zero_grad, vectorize_grad. simpl.
  pose proof (vectorize_loop_zeroed ps (zero_grad_loop ps (grads w)) []) as Hz.
  destruct (vectorize_loop ps (zero_grad_loop ps (grads w)) []) as [grad_list gs].
  simpl in *. rewrite Hz.
  - destruct ps as [|p ps]; [done|]. rewrite <- concat_zeros. done.
  - intros p g Hp. rewrite lookup_zero_grad_loop.
    rewrite decide_True by (apply list_elem_of_In, in_map; by apply list_elem_of_In).
    destruct (grads w !! p_id p) as [g0|] eqn:Hg0; [|done].
    simpl. intros [= <-]. by rewrite (Hs p g0).
Qed.

(** ** [Hvp_vec] in graph mode *)

(** X4.  Graph mode is pure: whatever the outcome, no tensor object and no
    gradient buffer is changed, and the log grows by at most the one call
    of [autograd.grad]. *)
Theorem Hvp_vec_graph_pure g ps v rg tr rd rb w :
  let w' := (Hvp_vec vjp g ps v false rg tr rd rb w).2 in
  tensors w' = tensors w /\ grads w' = grads w
  /\ (events w' = events w \/ events w' = events w ++ [AutogradGrad (gv_id g) ps v rg]).
Proof.
  unfold Hvp_vec.
  destruct (has_nan (gv_data g)); [by auto|]. destruct (has_nan v); [by auto|].
  unfold bind. rewrite Hvp_compute_graph.
  destruct (check_grad_outputs g v) as [[]|e]; [|by auto].
  destruct (torch_cat _) as [h|e]; [|by auto].
  destruct (has_nan h); by auto.
Qed.

(** X5.  What graph mode returns: the concatenation, in parameter order, of
    the engine's answers with zeros for the parameters the gradient does
    not depend on.  It is NaN-free, the inputs were NaN-free, the probe
    had the shape of [grad_vec], the list of parameters was not empty and
    exactly one call of [autograd.grad] was logged; with an engine whose
    answers have the sizes of the parameters the result has as many
    elements as the parameters together. *)
Theorem Hvp_vec_graph_result g ps v rg tr rd rb w h w' :
  Hvp_vec vjp g ps v false rg tr rd rb w = (Ok h, w') ->
  h = concat (graph_blocks vjp g ps v)
  /\ has_nan h = false /\ has_nan (gv_data g) = false /\ has_nan v = false
  /\ gv_shape g = [length v] /\ ps <> []
  /\ w' = log (AutogradGrad (gv_id g) ps v rg) w
  /\ (engine_sized vjp -> length h = sum_list_with numel ps).
Proof.
  intros H. pose proof H as H0.
  apply Hvp_vec_ok in H as (Hg & Hv & Hh & Hc).
  rewrite Hvp_compute_graph in Hc. unfold check_grad_outputs, shape_eqb in Hc.
  case_bool_decide as Hs; [|done].
  injection Hc as Hcat <-. pose proof Hcat as Hcat'. apply torch_cat_ok in Hcat' as ->.
  repeat split; try done.
  - intros ->. done.
  - intros Hsz. by apply length_graph_blocks.
Qed.

(** ** [Hvp_vec] in accumulation mode *)

Lemma accumulate_frame g v ps (gs gs' : gmap pid vec) k :
  accumulate vjp g v ps gs = Ok gs' -> k ∉ map p_id ps -> gs' !! k = gs !! k.
Proof.
  revert gs. induction ps as [|p ps IH]; intros gs; simpl.
  - by intros [= <-].
  - intros H Hk. apply not_elem_of_cons in Hk as [Hk1 Hk2].
    destruct (vjp (gv_id g) p v) as [c|]; [|by apply IH].
    destruct (gs !! p_id p) as [old|].
    + destruct (add_ old c) as [new|e]; [|done].
      rewrite (IH _ H Hk2). by apply lookup_insert_ne.
    + rewrite (IH _ H Hk2). by apply lookup_insert_ne.
Qed.

(** What a successful accumulation-mode call has gone through. *)
Lemma Hvp_vec_accumulation_inv g ps v rg tr rd rb w h w' :
  Hvp_vec vjp g ps v true rg tr rd rb w = (Ok h, w') ->
  exists t gs',
    tr = Some t
    /\ accumulate vjp (GradVec (gv_id g) (gv_shape g)
                         (map (fun gi => add gi (mul zero t)) (gv_data g)))
         v (distinct_inputs [] ps) (zero_grad_loop ps (grads w)) = Ok gs'
    /\ w' = World (tensors w) (vectorize_loop ps gs' []).2
              (events w ++ accumulation_events g ps v rg rd rb).
Proof.
  intros H. apply Hvp_vec_ok in H as (_ & _ & _ & H).
  unfold Hvp_compute in H.
  destruct tr as [t|]; [|by destruct rd as [r|]; [destruct rb|]].
  exists t.
  unfold bind at 1, zero_grad in H. unfold bind at 1 in H.
  assert (Hev : forall w0 : world,
            (match rd with
             | Some r => bind (if rb then emit (RebuildBuckets r) else ret tt)
                              (fun _ => emit (PrepareForBackward r))
             | None => ret tt
             end) w0
            = (Ok tt, World (tensors w0) (grads w0)
                        (events w0 ++ match rd with
                                      | Some r => (if rb then [RebuildBuckets r] else [])
                                                  ++ [PrepareForBackward r]
                                      | None => []
                                      end))).
  { intros [t0 g0 e0]. destruct rd as [r|]; [destruct rb|]; unfold bind, emit, ret, log; simpl;
      by rewrite <- ?app_assoc, ?app_nil_r. }
  rewrite Hev in H. clear Hev.
  unfold bind at 1, lift at 1, nudge in H.
  unfold bind at 1, autograd_backward in H. unfold bind at 1, lift at 1 in H.
  change (check_grad_outputs (GradVec (gv_id g) (gv_shape g) _) v)
    with (check_grad_outputs g v) in H.
  destruct (check_grad_outputs g v) as [[]|e]; [|done].
  unfold bind at 1, emit at 1 in H. simpl in H.
  destruct (accumulate _ _ _ _ _) as [gs'|e]; [|done].
  exists gs'. split; [done|]. split; [done|].
  unfold vectorize_grad in H. simpl in H.
  destruct (vectorize_loop ps gs' []) as [gl gs'']. simpl in *.
  injection H as _ <-. unfold set_grads, accumulation_events. simpl.
  by rewrite <- app_assoc.
Qed.

(** X7.  A successful accumulation-mode call was given a trigger; it notifies
    the reducer, if there is one, before the backward pass (bucket rebuild
    first and only when [rebuild] is set, then [prepare_for_backward]),
    makes exactly one call of [autograd.backward], and logs nothing
    else. *)
Theorem accumulation_reducer_protocol g ps v rg tr rd rb w h w' :
  Hvp_vec vjp g ps v true rg tr rd rb w = (Ok h, w') ->
  is_Some tr
  /\ events w' = events w ++ accumulation_events g ps v rg rd rb.
Proof.
  intros H. apply Hvp_vec_accumulation_inv in H as (t & gs' & -> & _ & ->).
  split; [by eexists | done].
Qed.

(** X8.  A successful accumulation-mode call leaves no gradient buffer on any
    parameter of the list, and leaves the buffers of other parameters
    and all tensor objects as they were. *)
Theorem accumulation_leaves_no_buffer g ps v rg tr rd rb w h w' :
  Hvp_vec vjp g ps v true rg tr rd rb w = (Ok h, w') ->
  (forall p, p ∈ ps -> grads w' !! p_id p = None)
  /\ (forall k, k ∉ map p_id ps -> grads w' !! k = grads w !! k)
  /\ tensors w' = tensors w.
Proof.
  intros H. apply Hvp_vec_accumulation_inv in H as (t & gs' & _ & Hacc & ->).
  simpl. rewrite vectorize_loop_clears. repeat split.
  - intros p Hp. rewrite lookup_clear_grads. rewrite decide_True; [done|].
    apply list_elem_of_In, in_map. by apply list_elem_of_In.
  - intros k Hk. rewrite lookup_clear_grads, decide_False by done.
    rewrite (accumulate_frame _ _ _ _ _ _ Hacc
               (fun H => Hk (distinct_inputs_subset _ _ _ H))).
    rewrite lookup_zero_grad_loop. by rewrite decide_False.
Qed.

(** ** The oracle's own errors *)

Lemma foreign_bind {A B} (m : M A) (k : A -> M B) :
  raises_foreign m -> (forall a, raises_foreign (k a)) -> raises_foreign (bind m k).
Proof.
  intros Hm Hk w e w' H. unfold bind in H.
  destruct (m w) as [[a|e0] w1] eqn:E.
  - by apply Hk in H.
  - injection H as <- <-. by apply Hm in E.
Qed.

Lemma foreign_total {A} (m : M A) :
  (forall w, exists a w', m w = (Ok a, w')) -> raises_foreign m.
Proof. intros H w e w' E. destruct (H w) as (a & w1 & E1). congruence. Qed.

Lemma foreign_lift {A} (o : outcome A) :
  (forall e, o = Raise e -> ~ own_error e) -> raises_foreign (lift o).
Proof. intros H w e w' [= -> _]. by apply H. Qed.

Lemma foreign_shape_mismatch : ~ own_error shape_mismatch.
Proof. by intros [H|[H|H]]. Qed.

Lemma foreign_size_mismatch : ~ own_error size_mismatch.
Proof. by intros [H|[H|H]]. Qed.

Lemma foreign_check (g : gradvec) (v : vec) e :
  check_grad_outputs g v = Raise e -> ~ own_error e.
Proof.
  unfold check_grad_outputs. destruct (shape_eqb _ _); [done|].
  intros [= <-]. apply foreign_shape_mismatch.
Qed.

Lemma foreign_torch_cat (l : list vec) e : torch_cat l = Raise e -> ~ own_error e.
Proof. destruct l; [|done]. intros [= <-]. by intros [H|[H|H]]. Qed.

Lemma foreign_fill_unused i ps (gg : list (option vec)) acc e :
  fill_unused i ps gg acc = Raise e -> ~ own_error e.
Proof.
  revert i acc. induction ps as [|p ps IH]; intros i acc; simpl; [done|].
  destruct (gg !! i) as [[c|]|]; [apply IH | apply IH |].
  intros [= <-]. by intros [H|[H|H]].
Qed.

Lemma foreign_accumulate g v ps (gs : gmap pid vec) e :
  accumulate vjp g v ps gs = Raise e -> ~ own_error e.
Proof.
  revert gs. induction ps as [|p ps IH]; intros gs; simpl; [done|].
  destruct (vjp (gv_id g) p v) as [c|]; [|apply IH].
  destruct (gs !! p_id p) as [old|]; [|apply IH].
  destruct (add_ old c) as [new|e0] eqn:E; [apply IH|].
  intros [= <-]. unfold add_, broadcast_ in E.
  destruct (Nat.eqb _ _); [done|]. destruct c as [|c0 [|c1 c]]; try done;
    injection E as <-; apply foreign_size_mismatch.
Qed.

(** Whatever [Hvp_compute] raises comes from torch or from the missing
    trigger, never with one of the three messages of [Hvp_vec]. *)
Lemma foreign_Hvp_compute g ps v bw rg tr rd rb :
  raises_foreign (Hvp_compute vjp g ps v bw rg tr rd rb).
Proof.
  unfold Hvp_compute. destruct bw.
  - apply foreign_bind; [apply foreign_total; intros w; by eexists _, _ | intros _].
    apply foreign_bind.
    { apply foreign_total. intros w.
      destruct rd as [r|]; [destruct rb|]; by eexists _, _. }
    intros _. apply foreign_bind.
    { apply foreign_lift. intros e. unfold nudge. destruct tr; [done|].
      intros [= <-]. by intros [H|[H|H]]. }
    intros seed. apply foreign_bind.
    { unfold autograd_backward.
      apply foreign_bind; [apply foreign_lift, foreign_check | intros _].
      apply foreign_bind; [apply foreign_total; intros w; by eexists _, _ | intros _].
      intros w e w'. destruct (accumulate _ _ _ _ _) as [gs|e0] eqn:E; [done|].
      intros [= <- _]. by apply foreign_accumulate in E. }
    intros _ w e w'. unfold vectorize_grad.
    destruct (vectorize_loop _ _ _) as [gl gs]. intros [= H _].
    by apply foreign_torch_cat in H.
  - apply foreign_bind.
    { unfold autograd_grad.
      apply foreign_bind; [apply foreign_lift, foreign_check | intros _].
      apply foreign_bind; [|intros ?]; apply foreign_total; intros w; by eexists _, _. }
    intros gg. apply foreign_bind; [apply foreign_lift, foreign_fill_unused | intros gl].
    apply foreign_lift, foreign_torch_cat.
Qed.

(** X6.  The three [ValueError]s of [Hvp_vec] tell their cause, in either
    mode.  "Gradvec nan" is raised only for a NaN in [grad_vec], and
    "vector nan" only for a NaN in [vec] under a NaN-free [grad_vec], both
    before anything is done.  "hvp Nan" is raised only when both inputs
    are NaN-free, the differentiation has gone through and the vector it
    gave holds a NaN. *)
Theorem Hvp_vec_errors_tell_cause g ps v bw rg tr rd rb w w' :
  (Hvp_vec vjp g ps v bw rg tr rd rb w = (Raise (ValueError "Gradvec nan"), w') ->
   has_nan (gv_data g) = true /\ w' = w)
  /\ (Hvp_vec vjp g ps v bw rg tr rd rb w = (Raise (ValueError "vector nan"), w') ->
      has_nan (gv_data g) = false /\ has_nan v = true /\ w' = w)
  /\ (Hvp_vec vjp g ps v bw rg tr rd rb w = (Raise (ValueError "hvp Nan"), w') ->
      has_nan (gv_data g) = false /\ has_nan v = false
      /\ exists h, Hvp_compute vjp g ps v bw rg tr rd rb w = (Ok h, w')
                   /\ has_nan h = true).
Proof.
  pose proof (foreign_Hvp_compute g ps v bw rg tr rd rb w) as Hf.
  unfold Hvp_vec.
  destruct (has_nan (gv_data g)) eqn:Hg.
  { split; [by intros [= <-]|]. split; by intros [=]. }
  destruct (has_nan v) eqn:Hv.
  { split; [by intros [=]|]. split; [by intros [= <-] | by intros [=]]. }
  unfold bind.
  destruct (Hvp_compute _ _ _ _ _ _ _ _ _ _) as [[h|e] w1].
  - destruct (has_nan h) eqn:Hh.
    + split; [by intros [=]|]. split; [by intros [=]|].
      intros [= <-]. repeat split; try done. by exists h.
    + split; [by intros [=]|]. split; by intros [=].
  - specialize (Hf e w1 eq_refl).
    split; [|split]; intros [= -> _]; exfalso; apply Hf; unfold own_error; by auto.
Qed.

(** ** The solvers *)

Lemma Hvp_vec_graph_log g ps v rg tr rd rb w h w' :
  Hvp_vec vjp g ps v false rg tr rd rb w = (Ok h, w') ->
  w' = log (AutogradGrad (gv_id g) ps v rg) w.
Proof.
  intros H. apply Hvp_vec_ok in H as (_ & _ & _ & H).
  rewrite Hvp_compute_graph in H.
  destruct (check_grad_outputs g v) as [[]|e]; [|done]. by injection H as _ <-.
Qed.

Lemma keeps_grads_bind {A B} (m : M A) (k : A -> M B) :
  keeps_grads m -> (forall a, keeps_grads (k a)) -> keeps_grads (bind m k).
Proof.
  intros Hm Hk w. unfold bind. specialize (Hm w).
  destruct (m w) as [[a|e] w1]; simpl in *; [|done]. by rewrite Hk.
Qed.

Lemma keeps_grads_Hvp_graph g ps v rg tr rd rb :
  keeps_grads (Hvp_vec vjp g ps v false rg tr rd rb).
Proof.
  intros w. unfold Hvp_vec.
  destruct (has_nan (gv_data g)); [done|]. destruct (has_nan v); [done|].
  unfold bind. rewrite Hvp_compute_graph.
  destruct (check_grad_outputs g v) as [[]|e]; [|done].
  destruct (torch_cat _) as [h|e]; [|done]. by destruct (has_nan h).
Qed.

Lemma keeps_grads_simple {A} (m : M A) :
  (forall w, exists o t e, m w = (o, World t (grads w) e)) -> keeps_grads m.
Proof. intros H w. destruct (H w) as (o & t & e & ->). done. Qed.

Lemma keeps_grads_ret {A} (a : A) : keeps_grads (ret a).
Proof. done. Qed.
Lemma keeps_grads_raise {A} e : keeps_grads (@raise _ A e).
Proof. done. Qed.
Lemma keeps_grads_lift {A} (o : outcome A) : keeps_grads (lift o).
Proof. done. Qed.
Lemma keeps_grads_emit e : keeps_grads (emit e).
Proof. done. Qed.
Lemma keeps_grads_read l : keeps_grads (read l).
Proof. done. Qed.
Lemma keeps_grads_write l v : keeps_grads (write l v).
Proof. done. Qed.
Lemma keeps_grads_alloc v : keeps_grads (alloc v).
Proof. done. Qed.
Lemma keeps_grads_if {A} (c : bool) (m1 m2 : M A) :
  keeps_grads m1 -> keeps_grads m2 -> keeps_grads (if c then m1 else m2).
Proof. by destruct c. Qed.

Create HintDb grads.
#[local] Hint Resolve keeps_grads_ret keeps_grads_raise keeps_grads_lift keeps_grads_emit
  keeps_grads_read keeps_grads_write keeps_grads_alloc keeps_grads_Hvp_graph : grads.

Ltac grads_steps :=
  repeat (apply keeps_grads_bind; [solve [auto with grads] | intros ?]).

(** Inversion of a step that returned, with what the step did to the
    world. *)
Ltac step H :=
  let E := fresh "E" in
  apply bind_inv_ok in H as (? & ? & E & H);
  lazymatch type of E with
  | Hvp_vec _ _ _ _ false _ _ _ _ _ = _ => apply Hvp_vec_graph_log in E; subst
  | lift _ _ = _ => unfold lift in E; injection E as E ?; subst
  | read _ _ = _ => unfold read in E; injection E as ? ?; subst
  | write _ _ _ = _ => unfold write in E; injection E as ?; subst
  | emit _ _ = _ => unfold emit in E; injection E as ?; subst
  | ret _ _ = _ => unfold ret in E; injection E as ? ?; subst
  | _ => idtac
  end.

Section Solvers.
Variables (grad_x grad_y : gradvec) (x_params y_params : list param).

Local Abbreviation cg_loop' := (cg_loop vjp grad_x grad_y x_params y_params).
Local Abbreviation cg_init' := (cg_init vjp grad_x grad_y x_params y_params).
Local Abbreviation cg_rest' := (cg_rest vjp grad_x grad_y x_params y_params).
Local Abbreviation cg' := (conjugate_gradient vjp grad_x grad_y x_params y_params).

Section Graph.
Variables (trigger : option sc) (x_reducer y_reducer : option reducer) (rebuild : bool).

Local Abbreviation graph_loop :=
  (general_loop vjp grad_x grad_y x_params y_params trigger x_reducer y_reducer rebuild false).
Local Abbreviation graph_init :=
  (general_init vjp grad_x grad_y x_params y_params trigger x_reducer y_reducer rebuild false).
Local Abbreviation graph_rest :=
  (general_rest vjp grad_x grad_y x_params y_params trigger x_reducer y_reducer rebuild false).
Local Abbreviation graph_cg :=
  (general_conjugate_gradient vjp grad_x grad_y x_params y_params trigger
     x_reducer y_reducer rebuild false).

(** *** No gradient buffer is touched in graph mode *)

Lemma cg_loop_keeps_grads x rt atol lr_x lr_y fuel i last r p rdotr :
  keeps_grads (cg_loop' x rt atol lr_x lr_y fuel i last r p rdotr).
Proof.
  revert i last r p rdotr.
  induction fuel as [|fuel IH]; intros i last r p rdotr; simpl; [auto with grads|].
  grads_steps. apply keeps_grads_if; [auto with grads | apply IH].
Qed.

Lemma graph_loop_keeps_grads x rt atol lr_x lr_y fuel i last r p rdotr :
  keeps_grads (graph_loop x rt atol lr_x lr_y fuel i last r p rdotr).
Proof.
  revert i last r p rdotr.
  induction fuel as [|fuel IH]; intros i last r p rdotr; simpl; [auto with grads|].
  grads_steps. apply keeps_grads_if; [auto with grads|].
  apply keeps_grads_bind; [auto with grads | intros ?]. apply IH.
Qed.

(** X10.  [conjugate_gradient], and [general_conjugate_gradient] in graph
    mode, leave every gradient buffer as it was, however they end. *)
Theorem solve_keeps_grads b x nsteps tol atol :
  (forall lr_x lr_y, keeps_grads (cg' b x nsteps tol atol lr_x lr_y))
  /\ (forall lr_x lr_y, keeps_grads (graph_cg b lr_x lr_y x nsteps tol atol)).
Proof.
  split; intros lr_x lr_y.
  - unfold conjugate_gradient.
    apply keeps_grads_bind.
    { unfold cg_init. apply keeps_grads_bind; [auto with grads | intros bv].
      destruct x as [x0|]; grads_steps; auto with grads. }
    intros [[x' r] n]. unfold cg_rest. grads_steps.
    apply keeps_grads_if; [auto with grads|].
    apply keeps_grads_bind; [apply cg_loop_keeps_grads | intros [j|]]; [|auto with grads].
    apply keeps_grads_bind; [destruct (99 <? j)|]; auto with grads.
  - unfold general_conjugate_gradient.
    apply keeps_grads_bind.
    { unfold general_init. apply keeps_grads_bind; [auto with grads | intros bv].
      destruct x as [x0|]; grads_steps; auto with grads. }
    intros [[x' r] n]. unfold general_rest. grads_steps.
    apply keeps_grads_if; [auto with grads|]. grads_steps.
    apply keeps_grads_if; [auto with grads|].
    apply keeps_grads_bind; [apply graph_loop_keeps_grads | intros [j|]]; [|auto with grads].
    apply keeps_grads_bind; [destruct (100 <? j)|]; auto with grads.
Qed.

(** *** The calls a solve makes *)

(** A loop that returns has logged two calls of [autograd.grad] for
    every iteration it ran, and nothing else. *)
Lemma cg_loop_trace x rt atol lr_x lr_y fuel i last r p rdotr w o w' :
  cg_loop' x rt atol lr_x lr_y fuel i last r p rdotr w = (Ok o, w') ->
  exists evs,
    events w' = events w ++ evs /\ forallb is_grad_call evs = true
    /\ ((fuel = 0%nat /\ o = last /\ evs = [])
        \/ (exists j, o = Some j /\ i <= j < i + Z.of_nat fuel
                      /\ Z.of_nat (length evs) = 2 * (j - i + 1))).
Proof.
  revert i last r p rdotr w.
  induction fuel as [|fuel IH]; intros i last r p rdotr w H; simpl in H.
  - injection H as <- <-. exists []. rewrite app_nil_r.
    split; [done|]. split; [done|]. by left.
  - do 10 step H.
    destruct (ltb _ _ || ltb _ _).
    + injection H as <- <-. eexists [_; _]. simpl. rewrite <- app_assoc.
      split; [done|]. split; [done|]. right. exists i. split; [done|]. lia.
    + apply IH in H as (evs & Hev & Hall & Hcase). simpl in Hev.
      rewrite <- !app_assoc in Hev. simpl in Hev.
      eexists (_ :: _ :: evs). split; [exact Hev|]. split; [done|]. right.
      destruct Hcase as [(-> & -> & ->)|(j & -> & Hj & Hlen)].
      * exists i. split; [done|]. simpl. lia.
      * exists j. split; [done|]. simpl length. lia.
Qed.

Lemma graph_loop_trace x rt atol lr_x lr_y fuel i last r p rdotr w o w' :
  graph_loop x rt atol lr_x lr_y fuel i last r p rdotr w = (Ok o, w') ->
  exists evs,
    events w' = events w ++ evs /\ forallb is_grad_call evs = true
    /\ ((fuel = 0%nat /\ o = last /\ evs = [])
        \/ (exists j, o = Some j /\ i <= j < i + Z.of_nat fuel
                      /\ Z.of_nat (length evs) = 2 * (j - i + 1))).
Proof.
  revert i last r p rdotr w.
  induction fuel as [|fuel IH]; intros i last r p rdotr w H; simpl in H.
  - injection H as <- <-. exists []. rewrite app_nil_r.
    split; [done|]. split; [done|]. by left.
  - do 12 step H.
    destruct (ltb _ _ || ltb _ _).
    + injection H as <- <-. eexists [_; _]. simpl. rewrite <- app_assoc.
      split; [done|]. split; [done|]. right. exists i. split; [done|]. lia.
    + step H. apply IH in H as (evs & Hev & Hall & Hcase). simpl in Hev.
      rewrite <- !app_assoc in Hev. simpl in Hev.
      eexists (_ :: _ :: evs). split; [exact Hev|]. split; [done|]. right.
      destruct Hcase as [(-> & -> & ->)|(j & -> & Hj & Hlen)].
      * exists i. split; [done|]. simpl. lia.
      * exists j. split; [done|]. simpl length. lia.
Qed.

Lemma cg_init_trace b x nsteps lr_x lr_y w x1 r n w1 :
  cg_init' b x nsteps lr_x lr_y w = (Ok (x1, r, n), w1) ->
  exists evs,
    events w1 = events w ++ evs /\ forallb is_grad_call evs = true
    /\ length evs = (2 * warm x)%nat.
Proof.
  unfold cg_init. intros H. step H. destruct x as [x0|].
  - do 7 step H. injection H as _ _ _ <-. eexists [_; _]. simpl.
    by rewrite <- app_assoc.
  - unfold bind, alloc, read, ret in H. simpl in H. injection H as _ _ _ <-.
    exists []. by rewrite app_nil_r.
Qed.

Lemma graph_init_trace b x nsteps lr_x lr_y w x1 r n w1 :
  graph_init b lr_x lr_y x nsteps w = (Ok (x1, r, n), w1) ->
  exists evs,
    events w1 = events w ++ evs /\ forallb is_grad_call evs = true
    /\ length evs = (2 * warm x)%nat.
Proof.
  unfold general_init. intros H. step H. destruct x as [x0|].
  - do 10 step H. injection H as _ _ _ <-. eexists [_; _]. simpl.
    by rewrite <- app_assoc.
  - unfold bind, alloc, read, ret in H. simpl in H. injection H as _ _ _ <-.
    exists []. by rewrite app_nil_r.
Qed.

Lemma slow_warning_next threshold j :
  slow_warning (threshold + 1) (j + 1)
  = if threshold <? j then [Warn "CG iter num: %d" (j + 1)] else [].
Proof.
  unfold slow_warning.
  destruct (Z.ltb_spec threshold j), (Z.ltb_spec (threshold + 1) (j + 1)); done || lia.
Qed.

(** Past the convergence test the solvers are their loops. *)
Lemma cg_rest_loop x r n b tol atol lr_x lr_y w o w' :
  converged b w r tol atol = false ->
  cg_rest' x r n b tol atol lr_x lr_y w = (Ok o, w') ->
  exists j w2,
    cg_loop' x (mul tol (dot_sum (default [] (tensors w !! b)) (default [] (tensors w !! b))))
      atol lr_x lr_y (Z.to_nat n) 0 None r r (dot_sum r r) w = (Ok (Some j), w2)
    /\ o = (x, j + 1)
    /\ w' = (if 99 <? j then log (Warn "CG iter num: %d" (j + 1)) w2 else w2).
Proof.
  unfold converged, cg_rest. intros Hc H.
  unfold bind at 1, lift at 1 in H. rewrite dot_self in H.
  unfold bind at 1, read at 1 in H.
  unfold bind at 1, lift at 1 in H. rewrite dot_self in H.
  rewrite Hc in H.
  apply bind_inv_ok in H as ([j|] & w2 & El & H); [|done].
  exists j, w2. split; [exact El|].
  destruct (99 <? j); unfold bind, emit, ret in H; simpl in H; by injection H as <- <-.
Qed.

Lemma graph_rest_loop x r n b tol atol lr_x lr_y w o w' :
  converged b w r tol atol = false ->
  graph_rest x r n b tol atol lr_x lr_y w = (Ok o, w') ->
  exists j w2,
    graph_loop x (mul tol (dot_sum (default [] (tensors w !! b)) (default [] (tensors w !! b))))
      atol lr_x lr_y (Z.to_nat n) 0 None r r (dot_sum r r) w = (Ok (Some j), w2)
    /\ o = (x, j + 1)
    /\ w' = (if 100 <? j then log (Warn "CG iter num: %d" (j + 1)) w2 else w2).
Proof.
  unfold converged, general_rest. intros Hc H.
  unfold bind at 1, read at 1 in H.
  destruct (negb _); [done|].
  unfold bind at 1, lift at 1 in H. rewrite dot_self in H.
  unfold bind at 1, read at 1 in H.
  unfold bind at 1, lift at 1 in H. rewrite dot_self in H.
  rewrite Hc in H.
  apply bind_inv_ok in H as ([j|] & w2 & El & H); [|done].
  exists j, w2. split; [exact El|].
  destruct (100 <? j); unfold bind, emit, ret in H; simpl in H; by injection H as <- <-.
Qed.

Lemma events_slow_warning threshold j (w2 : world) :
  events (if threshold <? j then log (Warn "CG iter num: %d" (j + 1)) w2 else w2)
  = events w2 ++ slow_warning (threshold + 1) (j + 1).
Proof.
  rewrite slow_warning_next. destruct (threshold <? j); simpl; by rewrite ?app_nil_r.
Qed.

(** X11.  The log of a [conjugate_gradient] that returns [(x, c)]: two calls
    of [autograd.grad] for the warm start, if any, and two for each of
    the [k] iterations run; then the slow-convergence warning exactly
    when [c] exceeds 100; and nothing else.  No iteration is run
    ([k = 0], and [c = 1]) when the residual [r] of the initialisation
    passes the convergence test; otherwise [k] is [c]. *)
Theorem cg_calls_and_warning b x nsteps tol atol lr_x lr_y w x' c w' :
  cg' b x nsteps tol atol lr_x lr_y w = (Ok (x', c), w') ->
  exists r n w1 evs k,
    cg_init' b x nsteps lr_x lr_y w = (Ok (x', r, n), w1)
    /\ events w' = events w ++ evs ++ slow_warning 100 c
    /\ forallb is_grad_call evs = true
    /\ length evs = (2 * (k + warm x))%nat
    /\ (if converged b w1 r tol atol then k = 0%nat /\ c = 1 else Z.of_nat k = c).
Proof.
  unfold conjugate_gradient. intros H.
  apply bind_inv_ok in H as ([[x1 r] n] & w1 & E & H).
  pose proof (cg_init_trace _ _ _ _ _ _ _ _ _ _ E) as (evs0 & Hev0 & Hall0 & Hlen0).
  destruct (converged b w1 r tol atol) eqn:Hc.
  - rewrite cg_rest_converged in H by done. injection H as <- <- <-.
    exists r, n, w1, evs0, 0%nat. split; [done|].
    change (slow_warning 100 1) with (@nil event). rewrite app_nil_r.
    by rewrite Hc.
  - apply cg_rest_loop in H as (j & w2 & El & [= -> ->] & ->); [|done].
    apply cg_loop_trace in El as (evs & Hev & Hall & Hcase).
    destruct Hcase as [(_ & [=] & _)|(j' & [= <-] & Hj & Hlen)].
    exists r, n, w1, (evs0 ++ evs), (Z.to_nat (j + 1)). split; [done|].
    rewrite Hc. change 100 with (99 + 1).
    rewrite events_slow_warning, Hev, Hev0, <- !app_assoc.
    repeat split; [ | | lia].
    + rewrite forallb_app. by rewrite Hall0, Hall.
    + rewrite length_app. lia.
Qed.

(** X12.  The same for [general_conjugate_gradient] in graph mode, whose
    warning comes when [c] exceeds 101: two calls of [autograd.grad] for
    the warm start and for each iteration run, none being run exactly
    when the residual of the initialisation passes the convergence
    test. *)
Theorem general_calls_and_warning b lr_x lr_y x nsteps tol atol w x' c w' :
  graph_cg b lr_x lr_y x nsteps tol atol w = (Ok (x', c), w') ->
  exists r n w1 evs k,
    graph_init b (map sqrt lr_x) lr_y x nsteps w = (Ok (x', r, n), w1)
    /\ events w' = events w ++ evs ++ slow_warning 101 c
    /\ forallb is_grad_call evs = true
    /\ length evs = (2 * (k + warm x))%nat
    /\ (if converged b w1 r tol atol then k = 0%nat /\ c = 1 else Z.of_nat k = c).
Proof.
  unfold general_conjugate_gradient. intros H.
  apply bind_inv_ok in H as ([[x1 r] n] & w1 & E & H).
  pose proof (graph_init_trace _ _ _ _ _ _ _ _ _ _ E) as (evs0 & Hev0 & Hall0 & Hlen0).
  destruct (converged b w1 r tol atol) eqn:Hc.
  - assert (Hs : gv_shape grad_x = [length (default [] (tensors w1 !! b))]).
    { unfold general_rest, bind at 1, read at 1, shape_eqb in H.
      case_bool_decide as Hs; [done|]. done. }
    rewrite general_rest_converged in H by done. injection H as <- <- <-.
    exists r, n, w1, evs0, 0%nat. split; [done|].
    change (slow_warning 101 1) with (@nil event). rewrite app_nil_r.
    by rewrite Hc.
  - apply graph_rest_loop in H as (j & w2 & El & [= -> ->] & ->); [|done].
    apply graph_loop_trace in El as (evs & Hev & Hall & Hcase).
    destruct Hcase as [(_ & [=] & _)|(j' & [= <-] & Hj & Hlen)].
    exists r, n, w1, (evs0 ++ evs), (Z.to_nat (j + 1)). split; [done|].
    rewrite Hc. change 101 with (100 + 1).
    rewrite events_slow_warning, Hev, Hev0, <- !app_assoc.
    repeat split; [ | | lia].
    + rewrite forallb_app. by rewrite Hall0, Hall.
    + rewrite length_app. lia.
Qed.

(** *** The iteration count and the size of the solution *)

Local Abbreviation any_cg := (fun bw =>
  general_conjugate_gradient vjp grad_x grad_y x_params y_params trigger
    x_reducer y_reducer rebuild bw).
Local Abbreviation any_init := (fun bw =>
  general_init vjp grad_x grad_y x_params y_params trigger x_reducer y_reducer rebuild bw).
Local Abbreviation any_rest := (fun bw =>
  general_rest vjp grad_x grad_y x_params y_params trigger x_reducer y_reducer rebuild bw).
Local Abbreviation any_loop := (fun bw =>
  general_loop vjp grad_x grad_y x_params y_params trigger x_reducer y_reducer rebuild bw).

(** X13.  The count either solver returns is at least 1 and at most the number
    of steps the initialisation left ([nsteps], by default the length of
    [b], less one for a warm start), or 1 if that is less. *)
Theorem solve_count_bounds b x nsteps tol atol w x' c w' :
  (forall lr_x lr_y,
     cg' b x nsteps tol atol lr_x lr_y w = (Ok (x', c), w') ->
     1 <= c <= Z.max 1 (steps_left b x nsteps w))
  /\ (forall bw lr_x lr_y,
        any_cg bw b lr_x lr_y x nsteps tol atol w = (Ok (x', c), w') ->
        1 <= c <= Z.max 1 (steps_left b x nsteps w)).
Proof.
  unfold steps_left. split.
  - intros lr_x lr_y H. rewrite cg_unfold in H.
    apply bind_inv_ok in H as ([[x1 r] n] & w1 & E & H). simpl in H.
    apply cg_rest_count in H.
    destruct x as [x0|].
    + apply cg_init_warm in E as (_ & _ & ->). simpl. lia.
    + rewrite cg_init_cold in E. injection E as _ _ <- _. simpl. lia.
  - intros bw lr_x lr_y H. rewrite general_unfold in H.
    apply bind_inv_ok in H as ([[x1 r] n] & w1 & E & H). simpl in H.
    apply general_rest_count in H.
    destruct x as [x0|].
    + apply general_init_warm in E as (_ & _ & ->). simpl. lia.
    + rewrite general_init_cold in E. injection E as _ _ <- _. simpl. lia.
Qed.

Lemma keeps_size_of_keeps {A} x n (m : M A) : keeps_tensors m -> keeps_size x n m.
Proof. intros H w. unfold sized. by rewrite H. Qed.

Lemma keeps_size_bind {A B} x n (m : M A) (k : A -> M B) :
  keeps_size x n m -> (forall a, keeps_size x n (k a)) -> keeps_size x n (bind m k).
Proof.
  intros Hm Hk w Hw. unfold bind. specialize (Hm w Hw).
  destruct (m w) as [[a|e] w1]; simpl in *; [|done]. by apply Hk.
Qed.

(** [x.add_(u)] keeps the size of [x]. *)
Lemma keeps_size_inplace {A} x n (u : vec) (K : M A) :
  keeps_size x n K ->
  keeps_size x n (xv <- read x ;; xv' <- lift (add_ xv u) ;; _ <- write x xv' ;; K).
Proof.
  intros HK w Hw. unfold bind at 1, read. simpl. unfold bind at 1, lift.
  destruct (add_ _ u) as [xv'|e] eqn:E; [|done].
  unfold bind, write. simpl. apply HK. unfold sized. simpl.
  rewrite lookup_insert_eq. simpl.
  apply length_broadcast_ in E. by rewrite E.
Qed.

Lemma keeps_size_if {A} x n (c : bool) (m1 m2 : M A) :
  keeps_size x n m1 -> keeps_size x n m2 -> keeps_size x n (if c then m1 else m2).
Proof. by destruct c. Qed.

Create HintDb size.
#[local] Hint Resolve keeps_ret keeps_raise keeps_lift keeps_emit keeps_read
  keeps_Hvp_vec : size.
#[local] Hint Extern 1 (keeps_size _ _ _) => apply keeps_size_of_keeps : size.

Ltac size_step := apply keeps_size_bind; [solve [auto with size] | intros ?].

Lemma cg_loop_keeps_size x n rt atol lr_x lr_y fuel i last r p rdotr :
  keeps_size x n (cg_loop' x rt atol lr_x lr_y fuel i last r p rdotr).
Proof.
  revert i last r p rdotr.
  induction fuel as [|fuel IH]; intros i last r p rdotr; simpl; [auto with size|].
  do 4 size_step. apply keeps_size_inplace. do 3 size_step.
  apply keeps_size_if; [auto with size | apply IH].
Qed.

Lemma any_loop_keeps_size bw x n rt atol lr_x lr_y fuel i last r p rdotr :
  keeps_size x n (any_loop bw x rt atol lr_x lr_y fuel i last r p rdotr).
Proof.
  revert i last r p rdotr.
  induction fuel as [|fuel IH]; intros i last r p rdotr; simpl; [auto with size|].
  do 7 size_step. apply keeps_size_inplace. do 2 size_step.
  apply keeps_size_if; [auto with size|]. size_step. apply IH.
Qed.

Lemma cg_rest_keeps_size x n r k b tol atol lr_x lr_y :
  keeps_size x n (cg_rest' x r k b tol atol lr_x lr_y).
Proof.
  unfold cg_rest. do 3 size_step. apply keeps_size_if; [auto with size|].
  apply keeps_size_bind; [apply cg_loop_keeps_size | intros [j|]]; [|auto with size].
  apply keeps_size_bind; [destruct (99 <? j)|]; auto with size.
Qed.

Lemma any_rest_keeps_size bw x n r k b tol atol lr_x lr_y :
  keeps_size x n (any_rest bw x r k b tol atol lr_x lr_y).
Proof.
  unfold general_rest. size_step. apply keeps_size_if; [auto with size|].
  do 3 size_step. apply keeps_size_if; [auto with size|].
  apply keeps_size_bind; [apply any_loop_keeps_size | intros [j|]]; [|auto with size].
  apply keeps_size_bind; [destruct (100 <? j)|]; auto with size.
Qed.

Lemma size_kept_phases (init : M (loc * vec * Z)) (rest : loc -> vec -> Z -> M (loc * Z))
  b x w :
  match x with
  | Some x0 =>
      keeps_tensors init
      /\ (forall w x' r n w1, init w = (Ok (x', r, n), w1) -> x' = x0)
  | None =>
      exists r n,
        init w = (Ok (fresh (dom (tensors w)), r, n),
                  set_tensors (<[fresh (dom (tensors w)) :=
                                   zeros (length (default [] (tensors w !! b)))]>
                                 (tensors w)) w)
  end ->
  (forall x' n r k, keeps_size x' n (rest x' r k) /\ returns x' (rest x' r k)) ->
  size_kept b x w (bind init (fun i => rest i.1.1 i.1.2 i.2)).
Proof.
  intros Hinit Hrest. destruct x as [x0|]; simpl.
  - destruct Hinit as [Hk Hloc]. intros o w' Hrun. unfold bind in Hrun.
    specialize (Hk w).
    destruct (init w) as [[[[x' r] n]|e] w1] eqn:Hi; simpl in *.
    + apply Hloc in Hi as ->.
      destruct (Hrest x0 (length (default [] (tensors w !! x0))) r n) as [Hs _].
      specialize (Hs w1). rewrite Hrun in Hs. simpl in Hs. apply Hs.
      unfold sized. by rewrite Hk.
    + injection Hrun as _ <-. by rewrite Hk.
  - destruct Hinit as (r & n & Hi). intros x' c w' Hrun.
    unfold bind in Hrun. rewrite Hi in Hrun. simpl in Hrun.
    set (x0 := fresh (dom (tensors w))) in *.
    destruct (Hrest x0 (length (default [] (tensors w !! b))) r n) as [Hs Hr].
    pose proof (Hr _ _ _ _ Hrun) as ->.
    match type of Hrun with ?m ?w0 = _ => specialize (Hs w0) end.
    rewrite Hrun in Hs. simpl in Hs. apply Hs.
    unfold sized. simpl. rewrite lookup_insert_eq. simpl. apply repeat_length.
Qed.

(** X14.  In either solver a warm start has after the solve the number of
    elements it had before, however the solve ends, and the solution of
    a cold start has as many elements as [b]. *)
Theorem solution_keeps_size b x nsteps tol atol w :
  (forall lr_x lr_y, size_kept b x w (cg' b x nsteps tol atol lr_x lr_y))
  /\ (forall bw lr_x lr_y, size_kept b x w (any_cg bw b lr_x lr_y x nsteps tol atol)).
Proof.
  split.
  - intros lr_x lr_y.
    pose proof (size_kept_phases (cg_init' b x nsteps lr_x lr_y)
                  (fun x' r k => cg_rest' x' r k b tol atol lr_x lr_y) b x w) as H.
    assert (Hgoal : size_kept b x w
                      (bind (cg_init' b x nsteps lr_x lr_y)
                         (fun i => cg_rest' i.1.1 i.1.2 i.2 b tol atol lr_x lr_y))).
    { apply H.
      - destruct x as [x0|].
        + split; [apply keeps_cg_init_warm|].
          intros w0 x' r n w1 Hi. by apply cg_init_warm in Hi as [-> _].
        + eexists _, _. apply cg_init_cold.
      - intros x' n r k. split; [apply cg_rest_keeps_size | apply cg_rest_frame]. }
    unfold size_kept in *. destruct x as [x0|]; intros; eapply Hgoal;
      rewrite <- cg_unfold; eassumption.
  - intros bw lr_x lr_y.
    pose proof (size_kept_phases (any_init bw b (map sqrt lr_x) lr_y x nsteps)
                  (fun x' r k => any_rest bw x' r k b tol atol (map sqrt lr_x) lr_y) b x w)
      as H.
    assert (Hgoal : size_kept b x w
                      (bind (any_init bw b (map sqrt lr_x) lr_y x nsteps)
                         (fun i => any_rest bw i.1.1 i.1.2 i.2 b tol atol
                                     (map sqrt lr_x) lr_y))).
    { apply H.
      - destruct x as [x0|].
        + split; [apply keeps_general_init_warm|].
          intros w0 x' r n w1 Hi. by apply general_init_warm in Hi as [-> _].
        + eexists _, _. apply general_init_cold.
      - intros x' n r k. split; [apply any_rest_keeps_size | apply general_rest_frame]. }
    unfold size_kept in *. destruct x as [x0|]; intros; eapply Hgoal;
      rewrite <- general_unfold; eassumption.
Qed.

(** *** Cold starts *)

(** X15.  On a right-hand side of zeros, with [0 * 0 = 0], [0 + 0 = 0] and a
    positive [atol], a cold start returns at once: the solution is a new
    tensor of zeros of the size of [b], the count is 1, and the oracle is
    not called ([general_conjugate_gradient] first checks that [grad_x]
    has the shape of [b]). *)
Theorem zero_rhs_cold_start b n nsteps tol atol w :
  mul zero zero = zero -> add zero zero = zero -> ltb zero atol = true ->
  tensors w !! b = Some (zeros n) ->
  let x' := fresh (dom (tensors w)) in
  let w' := set_tensors (<[x' := zeros n]> (tensors w)) w in
  (forall lr_x lr_y, cg' b None nsteps tol atol lr_x lr_y w = (Ok (x', 1), w'))
  /\ (forall bw lr_x lr_y,
        gv_shape grad_x = [n] ->
        any_cg bw b lr_x lr_y None nsteps tol atol w = (Ok (x', 1), w')).
Proof.
  intros Hm Ha Hlt Hb x' w'.
  assert (Hne : x' <> b).
  { intros E. apply (is_fresh (dom (tensors w))). fold x'. rewrite E.
    apply elem_of_dom. by eexists. }
  assert (Hb' : tensors w' !! b = Some (zeros n)).
  { subst w'. simpl. by rewrite lookup_insert_ne. }
  assert (Hconv : converged b w' (zeros n) tol atol = true)
    by by apply converged_zero_residual.
  split.
  - intros lr_x lr_y. rewrite cg_unfold.
    erewrite bind_ok by apply cg_init_cold. simpl.
    unfold vec in *. rewrite Hb. simpl.
    replace (length (zeros n)) with n by (symmetry; apply repeat_length).
    fold x'. rewrite lookup_insert_ne by done. rewrite Hb. simpl.
    by apply cg_rest_converged.
  - intros bw lr_x lr_y Hs. rewrite general_unfold.
    erewrite bind_ok by apply general_init_cold. simpl.
    unfold vec in *. rewrite Hb. simpl.
    replace (length (zeros n)) with n by (symmetry; apply repeat_length).
    fold x'. rewrite lookup_insert_ne by done. rewrite Hb. simpl.
    apply general_rest_converged; [|done].
    simpl. rewrite lookup_insert_ne by done. rewrite Hb. simpl.
    rewrite Hs. f_equal. symmetry. apply repeat_length.
Qed.

(** X16.  A cold start of [general_conjugate_gradient] with a [grad_x] whose
    shape is not that of [b] raises the shape mismatch before any call of
    the oracle, in either mode: all it has done is to allocate the zero
    start. *)
Theorem general_cold_start_mismatch bw b lr_x lr_y nsteps tol atol w :
  gv_shape grad_x <> [length (default [] (tensors w !! b))] ->
  any_cg bw b lr_x lr_y None nsteps tol atol w
  = (Raise (RuntimeError "CG: hessian vector product shape mismatch"),
     set_tensors (<[fresh (dom (tensors w)) :=
                      zeros (length (default [] (tensors w !! b)))]> (tensors w)) w).
Proof.
  intros Hs. rewrite general_unfold.
  erewrite bind_ok by apply general_init_cold. simpl.
  apply general_rest_mismatch. simpl. unfold vec in *.
  destruct (decide (fresh (dom (tensors w)) = b)) as [E|E].
  - assert (Hnone : tensors w !! b = None).
    { apply not_elem_of_dom. rewrite <- E. apply is_fresh. }
    unfold vec in *. rewrite Hnone in Hs |- *. simpl in *. rewrite E.
    by rewrite lookup_insert_eq.
  - by rewrite lookup_insert_ne.
Qed.

End Graph.

(** *** The older file *)

Lemma bind_cong {A B} (m1 m2 : M A) (k1 k2 : A -> M B) w :
  m1 w = m2 w ->
  (forall a w', m2 w = (Ok a, w') -> k1 a w' = k2 a w') ->
  bind m1 k1 w = bind m2 k2 w.
Proof.
  intros Hm Hk. unfold bind. rewrite Hm.
  destruct (m2 w) as [[a|e] w']; [by apply Hk | done].
Qed.

Lemma legacy_Hvp_vec g ps v rg tr rd rb w :
  Legacy.Hvp_vec vjp g ps v rg w = Hvp_vec vjp g ps v false rg tr rd rb w.
Proof.
  unfold Legacy.Hvp_vec, Hvp_vec.
  destruct (has_nan (gv_data g)); [done|]. destruct (has_nan v); [done|].
  unfold Hvp_compute. rewrite bind_assoc. apply bind_ext. intros gg w1 _.
  by rewrite bind_assoc.
Qed.

Lemma legacy_cg_loop x rt atol lr_x lr_y fuel i last r p rdotr w :
  Legacy.cg_loop vjp grad_x grad_y x_params y_params x rt atol lr_x lr_y
    fuel i last r p rdotr w
  = cg_loop' x rt atol lr_x lr_y fuel i last r p rdotr w.
Proof.
  revert i last r p rdotr w.
  induction fuel as [|fuel IH]; intros i last r p rdotr w; simpl; [done|].
  apply bind_cong; [apply legacy_Hvp_vec | intros h1 w1 _].
  apply bind_cong; [apply legacy_Hvp_vec | intros h2 w2 _].
  repeat (apply bind_ext; intros ? ? _).
  destruct (ltb _ _ || ltb _ _); [done | apply IH].
Qed.

Lemma legacy_general_loop tr xr yr rb x rt atol lr_x lr_y fuel i last r p rdotr w :
  length r = length p ->
  Legacy.general_loop vjp grad_x grad_y x_params y_params x rt atol lr_x lr_y
    fuel i last r p rdotr w
  = general_loop vjp grad_x grad_y x_params y_params tr xr yr rb false
      x rt atol lr_x lr_y fuel i last r p rdotr w.
Proof.
  revert i last r p rdotr w.
  induction fuel as [|fuel IH]; intros i last r p rdotr w Hlen; simpl; [done|].
  apply bind_ext. intros v w0 _.
  apply bind_cong; [apply legacy_Hvp_vec | intros h1 w1 _].
  apply bind_ext. intros h1' w1' _.
  apply bind_cong; [apply legacy_Hvp_vec | intros h2 w2 _].
  apply bind_ext. intros h2' w3 _.
  apply bind_ext. intros Avp w4 _.
  apply bind_ext. intros pAvp w5 _.
  apply bind_ext. intros xv w6 _.
  apply bind_ext. intros xv' w7 _.
  apply bind_ext. intros [] w8 _.
  apply bind_ext. intros r' w9 Hr'.
  apply bind_ext. intros new_rdotr w10 _.
  assert (Hlr : length r' = length p).
  { unfold lift in Hr'. injection Hr' as Hr' _.
    apply length_broadcast_ in Hr'. congruence. }
  destruct (broadcast_same add r' (scale (div new_rdotr rdotr) p)) as [Hp' Hlp'].
  { unfold scale. by rewrite length_map. }
  unfold bind at 1. unfold lift at 1. unfold tadd at 1. rewrite Hp'.
  destruct (ltb _ _ || ltb _ _); [done|].
  unfold bind at 1. unfold lift at 1. unfold tadd at 1. rewrite Hp'.
  apply IH. by rewrite Hlp'.
Qed.

(** X17.  In graph mode the functions of the newer file behave exactly as
    those of the older file, whatever trigger, reducers and [rebuild]
    they are given: the same outcome and the same world for the oracle,
    for [conjugate_gradient] and for [general_conjugate_gradient], whose
    loop moved the update of [p] behind the convergence test. *)
Theorem legacy_agrees tr xr yr rb :
  (forall g ps v rg w,
     Legacy.Hvp_vec vjp g ps v rg w = Hvp_vec vjp g ps v false rg tr xr rb w)
  /\ (forall b x nsteps tol atol lr_x lr_y w,
        Legacy.conjugate_gradient vjp grad_x grad_y x_params y_params
          b x nsteps tol atol lr_x lr_y w
        = cg' b x nsteps tol atol lr_x lr_y w)
  /\ (forall b lr_x lr_y x nsteps tol atol w,
        Legacy.general_conjugate_gradient vjp grad_x grad_y x_params y_params
          b lr_x lr_y x nsteps tol atol w
        = general_conjugate_gradient vjp grad_x grad_y x_params y_params tr xr yr rb false
            b lr_x lr_y x nsteps tol atol w).
Proof.
  split; [intros; apply legacy_Hvp_vec|]. split.
  - intros b x nsteps tol atol lr_x lr_y w.
    unfold Legacy.conjugate_gradient, conjugate_gradient, cg_init.
    rewrite (bind_assoc (read b)). apply bind_ext. intros bv w1 _.
    apply bind_cong.
    + destruct x as [x0|]; [|done].
      apply bind_ext. intros xv w2 _.
      apply bind_cong; [apply legacy_Hvp_vec | intros h1 w3 _].
      apply bind_cong; [apply legacy_Hvp_vec | intros h2 w4 _]. done.
    + intros [[x' r] n] w2 _. unfold cg_rest.
      repeat (apply bind_ext; intros ? ? _).
      destruct (ltb _ _ || ltb _ _); [done|].
      apply bind_cong; [apply legacy_cg_loop | done].
  - intros b lr_x lr_y x nsteps tol atol w.
    unfold Legacy.general_conjugate_gradient, general_conjugate_gradient, general_init.
    rewrite (bind_assoc (read b)). apply bind_ext. intros bv w1 _.
    apply bind_cong.
    + destruct x as [x0|]; [|done].
      apply bind_ext. intros xv w2 _.
      apply bind_ext. intros v w2' _.
      apply bind_cong; [apply legacy_Hvp_vec | intros h1 w3 _].
      apply bind_ext. intros h1' w3' _.
      apply bind_cong; [apply legacy_Hvp_vec | intros h2 w4 _]. done.
    + intros [[x' r] n] w2 _. unfold general_rest.
      apply bind_ext. intros bv' w3 _.
      destruct (negb _); [done|].
      repeat (apply bind_ext; intros ? ? _).
      destruct (ltb _ _ || ltb _ _); [done|].
      apply bind_cong; [by apply legacy_general_loop | done].
Qed.

End Solvers.

End Coverage.

(** * Concrete runs *)

Import Exact.

Lemma Hvp_vec_nan_checks_witness :
  (exists msg,
     Hvp_vec bilinear (gx [NaN]) [py 1] (nums [1]) false true None None false (world0 [] [])
     = (Raise (ValueError msg), world0 [] []))
  /\ (Hvp_vec blowup g1 [py 1] (nums [1]) false true None None false (world0 [] [])).1
     = Raise (ValueError "hvp Nan").
Proof.
  split.
  - destruct (proj1 (Hvp_vec_nan_checks bilinear (gx [NaN]) [py 1] (nums [1])
                       false true None None false (world0 [] [])))
      as (msg & H & _); [by left|].
    by exists msg.
  - erewrite (proj2 (Hvp_vec_nan_checks blowup g1 [py 1] (nums [1])
                       false true None None false (world0 [] [])));
      [reflexivity | reflexivity | reflexivity | vm_compute; reflexivity | reflexivity].
Defined.



Lemma accumulation_without_trigger_witness :
  (Hvp_vec bilinear g1 [py 1] (nums [5]) true true None None false (world0 [] [])).1
  = Raise no_trigger
  /\ (Hvp_vec bilinear g1 [py 1] (nums [5]) false true None None false (world0 [] [])).1
     = Ok (nums [5]).
Proof.
  split; [|vm_compute; reflexivity].
  by rewrite (accumulation_without_trigger bilinear g1 [py 1] (nums [5]) true false
                (world0 [] []) eq_refl eq_refl).
Defined.

Lemma vectorize_grad_spec_witness :
  (vectorize_grad [px 2; py 1] w_grads).1 = Ok (nums [7; 8; 0])
  /\ grads (vectorize_grad [px 2; py 1] w_grads).2 = ∅
  /\ (vectorize_grad [px 2; py 1] (vectorize_grad [px 2; py 1] w_grads).2).1
     = Ok (nums [0; 0; 0]).
Proof.
  assert (Hnd : NoDup (map p_id [px 2; py 1])).
  { apply NoDup_cons. split; [|apply NoDup_singleton].
    rewrite list_elem_of_singleton. done. }
  destruct (vectorize_grad_spec [px 2; py 1] w_grads ltac:(done) Hnd)
    as (H1 & _ & _ & H2).
  rewrite H1. cbv [fst snd]. rewrite H2. repeat split; vm_compute; reflexivity.
Defined.



(** C8, the claim as stated.  On the empty list [vectorize_grad] raises
    instead of returning a vector; and on a list that names a parameter
    twice the second occurrence finds the buffer gone, so that what is
    returned is not the concatenation of the parameters' buffers. *)
Lemma vectorize_grad_not_every_list :
  (exists e, (vectorize_grad [] w_grads).1 = Raise e)
  /\ (vectorize_grad [px 2; px 2] w_grads).1 = Ok (nums [7; 8; 0; 0])
  /\ concat (map (grad_or_zeros (grads w_grads)) [px 2; px 2]) = nums [7; 8; 7; 8].
Proof. split; [eexists; reflexivity|]. split; vm_compute; reflexivity. Qed.

Lemma early_exit_witness :
  conjugate_gradient bilinear g1 g2 [px 1] [py 1] 1%positive (Some 2%positive) None
    tol10 atol16 one one w_solved = (Ok (2%positive, 1), w_applied)
  /\ general_conjugate_gradient bilinear g1 g2 [px 1] [py 1] None None None false false
       1%positive [one] [one] (Some 2%positive) None tol10 atol16 w_solved
     = (Ok (2%positive, 1), w_applied).
Proof.
  pose proof (early_exit bilinear g1 g2 [px 1] [py 1] None None None false false
                1%positive (Some 2%positive) None tol10 atol16 w_solved
                2%positive [Fin (0 # 4)] 0 w_applied
                ltac:(vm_compute; reflexivity)) as [Hcg Hgen].
  split.
  - apply (Hcg one one). vm_compute. reflexivity.
  - apply (Hgen [one] [one]); vm_compute; reflexivity.
Defined.

Lemma zero_budget_unbound_witness :
  conjugate_gradient bilinear g1 g2 [px 1] [py 1] 1%positive (Some 2%positive) (Some 1)
    tol10 atol16 one one w_far = (Raise (UnboundLocalError "i"), w_far_applied)
  /\ general_conjugate_gradient bilinear g1 g2 [px 1] [py 1] None None None false false
       1%positive [one] [one] (Some 2%positive) (Some 1) tol10 atol16 w_far
     = (Raise (UnboundLocalError "i"), w_far_applied).
Proof.
  pose proof (zero_budget_unbound bilinear g1 g2 [px 1] [py 1] None None None false false
                1%positive (Some 2%positive) (Some 1) tol10 atol16 w_far
                2%positive [Fin (1 # 1)] 0 w_far_applied
                ltac:(done) ltac:(vm_compute; reflexivity)) as [Hcg Hgen].
  split.
  - apply (Hcg one one). vm_compute. reflexivity.
  - apply (Hgen [one] [one]); vm_compute; reflexivity.
Defined.

(** C5, the claim as stated.  A cold start of [general_conjugate_gradient]
    on a zero right-hand side of three elements with a [grad_x] of two:
    the initialisation succeeds and its residual passes the convergence
    test, yet the solve raises the shape mismatch instead of returning
    [(x, 1)]. *)
Lemma early_exit_behind_shape_check :
  let run := general_init bilinear g_two g_three [px 3] [py 2] None None None false false
               1%positive (map sqrt (nums [1; 1; 1])) (nums [1; 1]) None None w_zero in
  run.1 = Ok (3%positive, nums [0; 0; 0], 3)
  /\ converged 1%positive run.2 (nums [0; 0; 0]) tol10 atol16 = true
  /\ (general_conjugate_gradient bilinear g_two g_three [px 3] [py 2] None None None
        false false 1%positive (nums [1; 1; 1]) (nums [1; 1]) None None tol10 atol16
        w_zero).1
     = Raise (RuntimeError "CG: hessian vector product shape mismatch").
Proof. repeat split; vm_compute; reflexivity. Qed.

(** C2.  [conjugate_gradient] has no shape check: on a zero right-hand
    side of three elements and a [grad_x] of two it returns [(x, 1)],
    where [general_conjugate_gradient] raises.  With a warm start
    [general_conjugate_gradient] calls the oracle before its check, so
    that a NaN in [grad_x] is reported instead of the shape mismatch. *)
Theorem shape_mismatch_unchecked :
  gv_shape g_two <> [length (nums [0; 0; 0])]
  /\ (conjugate_gradient bilinear g_two g_three [px 3] [py 2] 1%positive None None
        tol10 atol16 one one w_zero).1 = Ok (3%positive, 1)
  /\ (general_conjugate_gradient bilinear g_two g_three [px 3] [py 2] None None None
        false false 1%positive (nums [1; 1; 1]) (nums [1; 1]) None None tol10 atol16
        w_zero).1
     = Raise (RuntimeError "CG: hessian vector product shape mismatch")
  /\ (general_conjugate_gradient bilinear (gx [NaN; Fin 4]) g_three [px 3] [py 2]
        None None None false false 1%positive (nums [1; 1; 1]) (nums [1; 1])
        (Some 2%positive) None tol10 atol16 w_zero).1
     = Raise (ValueError "Gradvec nan").
Proof. split; [done|]. repeat split; vm_compute; reflexivity. Qed.

(** C6, the claim as stated.  With [lr_x = lr_y = 1] for
    [conjugate_gradient] and all-ones vectors for
    [general_conjugate_gradient]: on a zero right-hand side of three
    elements and a [grad_x] of two, one solver returns a solution and the
    other raises; and so they do on well-shaped gradients when the
    all-ones [lr_x] has two elements for a right-hand side of three. *)
Lemma variants_disagree :
  (let unscaled := conjugate_gradient bilinear g_two g_three [px 3] [py 2] 1%positive
                     None None tol10 atol16 one one w_zero in
   let general := general_conjugate_gradient bilinear g_two g_three [px 3] [py 2]
                    None None None false false 1%positive
                    (repeat one 3) (repeat one 2) None None tol10 atol16 w_zero in
   unscaled.1 = Ok (3%positive, 1)
   /\ tensors unscaled.2 !! 3%positive = Some (nums [0; 0; 0])
   /\ general.1 = Raise (RuntimeError "CG: hessian vector product shape mismatch"))
  /\ (let unscaled := conjugate_gradient bilinear g3 g_three [px 3] [py 3] 1%positive
                        None None tol10 atol16 one one w3 in
      let general := general_conjugate_gradient bilinear g3 g_three [px 3] [py 3]
                       None None None false false 1%positive
                       (repeat one 2) (repeat one 3) None None tol10 atol16 w3 in
      unscaled.1 = Ok (3%positive, 1) /\ general.1 = Raise size_mismatch).
Proof. repeat split; vm_compute; reflexivity. Qed.

(** The exact scalars satisfy the identities of one, and the bilinear
    engine answers with vectors of the parameter's size. *)
Lemma exact_mul_one_l (a : num) : mul one a = a.
Proof.
  destruct a as [[n d]|]; [|done]. simpl. unfold Qmult. simpl.
  by destruct n.
Qed.

Lemma exact_mul_one_r (a : num) : mul a one = a.
Proof.
  destruct a as [[n d]|]; [|done]. simpl. unfold Qmult. simpl.
  by rewrite Z.mul_1_r, Pos.mul_1_r.
Qed.

Lemma exact_mul_comm (a b : num) : mul a b = mul b a.
Proof.
  destruct a as [[n d]|], b as [[m e]|]; try done. simpl. unfold Qmult. simpl.
  by rewrite Z.mul_comm, Pos.mul_comm.
Qed.

Lemma general_computes_spec_operator_witness :
  let A := spec_operator bilinear g1 g2 [px 1] [py 1] None None None false false
             [Fin 4] [Fin 3] in
  let run := general_conjugate_gradient bilinear g1 g2 [px 1] [py 1] None None None
               false false 1%positive [Fin 4] [Fin 3] None None tol10 atol16 w_rhs13 in
  (A (nums [13]) w_rhs13).1 = Ok (nums [169])
  /\ run.1 = Ok (2%positive, 1)
  /\ events run.2 = [AutogradGrad 1 [py 1] (nums [26]) true;
                     AutogradGrad 2 [px 1] (nums [78]) true]
  /\ operator_cg g1 A 1%positive None None tol10 atol16 w_rhs13
     = (Ok (2%positive, 1), run.2).
Proof.
  intros A run.
  split; [vm_compute; reflexivity|]. split; [vm_compute; reflexivity|].
  split; [vm_compute; reflexivity|].
  apply (proj2 (proj2 (general_computes_spec_operator bilinear g1 g2 [px 1] [py 1]
                         None None None false false [Fin 4] [Fin 3] exact_mul_comm))).
  vm_compute. reflexivity.
Defined.

Lemma bilinear_sized : engine_sized bilinear.
Proof.
  intros g p v c. unfold bilinear.
  repeat case_bool_decide; intros [= <-]; apply length_resize.
Qed.

Lemma variants_agree_witness :
  alike (conjugate_gradient bilinear g3 g_three [px 3] [py 3] 1%positive
           (Some 2%positive) None tol10 atol16 one one w3)
        (general_conjugate_gradient bilinear g3 g_three [px 3] [py 3] None None None
           false false 1%positive (repeat one 3) (repeat one 3) (Some 2%positive) None
           tol10 atol16 w3)
  /\ (conjugate_gradient bilinear g3 g_three [px 3] [py 3] 1%positive
        (Some 2%positive) None tol10 atol16 one one w3).1 = Ok (2%positive, 1).
Proof.
  split; [|vm_compute; reflexivity].
  apply (variants_agree bilinear g3 g_three [px 3] [py 3]
           exact_mul_one_l exact_mul_one_r eq_refl bilinear_sized
           None None None false 1%positive (Some 2%positive) None tol10 atol16 w3).
  - eexists. vm_compute. reflexivity.
  - reflexivity.
  - reflexivity.
  - intros x0 [= <-]. reflexivity.
Defined.

(** ** Runs of the further properties *)

Lemma exact_add_zero_l (a : num) : add zero a = a.
Proof.
  destruct a as [[n d]|]; [|done]. simpl. unfold Qplus. simpl.
  by rewrite Z.mul_1_r.
Qed.

(** Buffers of a concrete world have the sizes of the parameters. *)
Ltac sized_buffers :=
  let p := fresh "p" in
  let g := fresh "g" in
  let Hp := fresh "Hp" in
  let Hg := fresh "Hg" in
  intros p g Hp Hg;
  repeat (apply elem_of_cons in Hp as [->|Hp]);
  first [ by apply elem_of_nil in Hp
        | vm_compute in Hg; first [discriminate | injection Hg as <-; reflexivity] ].

Lemma zero_grad_spec_witness :
  grads (zero_grad [px 2; py 1] w_grads).2 !! 1%positive = Some (nums [0; 0])
  /\ grads (zero_grad [px 2; py 1] w_grads).2 !! 2%positive = None.
Proof.
  pose proof (zero_grad_spec [px 2; py 1] w_grads) as H. cbv zeta in H.
  destruct H as (_ & _ & _ & Hz & Hn & _). split.
  - apply (Hz (px 2) (nums [7; 8])); [apply list_elem_of_here | reflexivity].
  - apply Hn. reflexivity.
Defined.

Lemma vectorize_grad_any_list_witness :
  (vectorize_grad [px 2; px 2] w_grads).1 = Ok (nums [7; 8; 0; 0])
  /\ length (nums [7; 8; 0; 0]) = sum_list_with numel [px 2; px 2]
  /\ grads (vectorize_grad [px 2; px 2] w_grads).2 !! 1%positive = None.
Proof.
  pose proof (vectorize_grad_any_list [px 2; px 2] w_grads) as H. cbv zeta in H.
  destruct H as (Hc & _ & _ & _ & Hl).
  assert (Hrun : (vectorize_grad [px 2; px 2] w_grads).1 = Ok (nums [7; 8; 0; 0]))
    by (vm_compute; reflexivity).
  split; [exact Hrun|]. split.
  - apply Hl; [sized_buffers | exact Hrun].
  - apply (Hc (px 2)). apply list_elem_of_here.
Defined.

Lemma zero_grad_then_vectorize_witness :
  (bind (zero_grad [px 2; py 1]) (fun _ => vectorize_grad [px 2; py 1]) w_grads).1
  = Ok (nums [0; 0; 0]).
Proof.
  etrans; [apply zero_grad_then_vectorize; [done | sized_buffers] | reflexivity].
Defined.

Lemma Hvp_vec_graph_result_witness :
  nums [5; 6] = concat (graph_blocks bilinear g3 [py 2] (nums [5; 6; 7]))
  /\ gv_shape g3 = [length (nums [5; 6; 7])]
  /\ length (nums [5; 6]) = sum_list_with numel [py 2].
Proof.
  destruct (Hvp_vec_graph_result bilinear g3 [py 2] (nums [5; 6; 7]) true None None false
              (world0 [] []) (nums [5; 6])
              (log (AutogradGrad 1 [py 2] (nums [5; 6; 7]) true) (world0 [] []))
              ltac:(vm_compute; reflexivity))
    as (Hh & _ & _ & _ & Hs & _ & _ & Hl).
  split; [exact Hh|]. split; [exact Hs|]. apply Hl, bilinear_sized.
Defined.

Lemma Hvp_vec_errors_tell_cause_witness :
  has_nan (gv_data g1) = false /\ has_nan (nums [1]) = false
  /\ exists h, Hvp_compute blowup g1 [py 1] (nums [1]) false true None None false
                 (world0 [] [])
               = (Ok h, log (AutogradGrad 1 [py 1] (nums [1]) true) (world0 [] []))
               /\ has_nan h = true.
Proof.
  apply (Hvp_vec_errors_tell_cause blowup g1 [py 1] (nums [1]) false true None None false
           (world0 [] [])).
  vm_compute. reflexivity.
Defined.

Lemma accumulation_reducer_protocol_witness :
  events (Hvp_vec bilinear g1 [py 1] (nums [5]) true true (Some (Fin 3))
            (Some 7%positive) true w_buffer).2
  = [RebuildBuckets 7%positive; PrepareForBackward 7%positive;
     AutogradBackward 1 [py 1] (nums [5]) true].
Proof.
  destruct (accumulation_reducer_protocol bilinear g1 [py 1] (nums [5]) true (Some (Fin 3))
              (Some 7%positive) true w_buffer (nums [5])
              (Hvp_vec bilinear g1 [py 1] (nums [5]) true true (Some (Fin 3))
                 (Some 7%positive) true w_buffer).2
              ltac:(vm_compute; reflexivity)) as [_ H].
  etrans; [exact H | reflexivity].
Defined.

Lemma accumulation_leaves_no_buffer_witness :
  grads w_buffer !! 2%positive = Some (nums [9])
  /\ grads (Hvp_vec bilinear g1 [py 1] (nums [5]) true true (Some (Fin 3))
              None false w_buffer).2 !! 2%positive = None.
Proof.
  split; [reflexivity|].
  destruct (accumulation_leaves_no_buffer bilinear g1 [py 1] (nums [5]) true (Some (Fin 3))
              None false w_buffer (nums [5])
              (Hvp_vec bilinear g1 [py 1] (nums [5]) true true (Some (Fin 3))
                 None false w_buffer).2
              ltac:(vm_compute; reflexivity)) as (H & _ & _).
  apply (H (py 1)). apply list_elem_of_here.
Defined.


(** The test of the witnesses below, evaluated. *)
Ltac evaluate_test H :=
  match type of H with
  | (if ?c then _ else _) =>
      let v := eval vm_compute in c in change c with v in H; cbv iota in H
  end.

Lemma cg_calls_and_warning_witness :
  let run := conjugate_gradient bilinear g1 g2 [px 1] [py 1] 1%positive (Some 2%positive)
               (Some 5) tol10 atol16 one one w_far in
  run.1 = Ok (2%positive, 1)
  /\ length (events run.2) = 4%nat
  /\ forallb is_grad_call (events run.2) = true.
Proof.
  intros run. split; [vm_compute; reflexivity|].
  destruct (cg_calls_and_warning bilinear g1 g2 [px 1] [py 1] 1%positive (Some 2%positive)
              (Some 5) tol10 atol16 one one w_far 2%positive 1 run.2
              ltac:(vm_compute; reflexivity))
    as (r & n & w1 & evs & k & Hi & He & Ha & Hl & Hk).
  vm_compute in Hi. injection Hi as <- <- <-.
  evaluate_test Hk. assert (k = 1%nat) as -> by lia.
  rewrite He. change (events w_far) with (@nil event).
  change (slow_warning 100 1) with (@nil event). rewrite app_nil_r. simpl.
  split; [exact Hl | exact Ha].
Defined.

Lemma general_calls_and_warning_witness :
  let run := general_conjugate_gradient bilinear g1 g2 [px 1] [py 1] None None None
               false false 1%positive [one] [one] (Some 2%positive) (Some 5)
               tol10 atol16 w_far in
  run.1 = Ok (2%positive, 1)
  /\ length (events run.2) = 4%nat
  /\ forallb is_grad_call (events run.2) = true.
Proof.
  intros run. split; [vm_compute; reflexivity|].
  destruct (general_calls_and_warning bilinear g1 g2 [px 1] [py 1] None None None false
              1%positive [one] [one] (Some 2%positive) (Some 5) tol10 atol16 w_far
              2%positive 1 run.2 ltac:(vm_compute; reflexivity))
    as (r & n & w1 & evs & k & Hi & He & Ha & Hl & Hk).
  vm_compute in Hi. injection Hi as <- <- <-.
  evaluate_test Hk. assert (k = 1%nat) as -> by lia.
  rewrite He. change (events w_far) with (@nil event).
  change (slow_warning 101 1) with (@nil event). rewrite app_nil_r. simpl.
  split; [exact Hl | exact Ha].
Defined.

Lemma solve_count_bounds_witness :
  let run := conjugate_gradient bilinear g1 g2 [px 1] [py 1] 1%positive (Some 2%positive)
               (Some 5) tol10 atol16 one one w_far in
  run.1 = Ok (2%positive, 1)
  /\ 1 <= 1 <= Z.max 1 (steps_left 1%positive (Some 2%positive) (Some 5) w_far).
Proof.
  intros run. split; [vm_compute; reflexivity|].
  apply (proj1 (solve_count_bounds bilinear g1 g2 [px 1] [py 1] None None None false
                  1%positive (Some 2%positive) (Some 5) tol10 atol16 w_far
                  2%positive 1 run.2) one one).
  vm_compute. reflexivity.
Defined.

Lemma solution_keeps_size_witness :
  let run := conjugate_gradient bilinear g1 g2 [px 1] [py 1] 1%positive None None
               tol10 atol16 one one w_far in
  run.1 = Ok (3%positive, 1)
  /\ length (default [] (tensors run.2 !! 3%positive))
     = length (default [] (tensors w_far !! 1%positive)).
Proof.
  intros run. split; [vm_compute; reflexivity|].
  apply (proj1 (solution_keeps_size bilinear g1 g2 [px 1] [py 1] None None None false
                  1%positive None None tol10 atol16 w_far) one one 3%positive 1 run.2).
  vm_compute. reflexivity.
Defined.

Lemma zero_rhs_cold_start_witness :
  conjugate_gradient bilinear g_two g_three [px 3] [py 2] 1%positive None None
    tol10 atol16 one one w_zero
  = (Ok (3%positive, 1),
     set_tensors (<[3%positive := nums [0; 0; 0]]> (tensors w_zero)) w_zero)
  /\ general_conjugate_gradient bilinear g3 g_three [px 3] [py 3] None None None
       false true 1%positive (nums [1; 1; 1]) (nums [1; 1; 1]) None None tol10 atol16 w_zero
     = (Ok (3%positive, 1),
        set_tensors (<[3%positive := nums [0; 0; 0]]> (tensors w_zero)) w_zero).
Proof.
  split.
  - pose proof (zero_rhs_cold_start bilinear g_two g_three [px 3] [py 2] None None None
                  false 1%positive 3%nat None tol10 atol16 w_zero
                  eq_refl eq_refl eq_refl ltac:(vm_compute; reflexivity)) as H.
    cbv zeta in H. destruct H as [H _].
    etrans; [apply H | vm_compute; reflexivity].
  - pose proof (zero_rhs_cold_start bilinear g3 g_three [px 3] [py 3] None None None
                  false 1%positive 3%nat None tol10 atol16 w_zero
                  eq_refl eq_refl eq_refl ltac:(vm_compute; reflexivity)) as H.
    cbv zeta in H. destruct H as [_ H].
    etrans; [apply H; reflexivity | vm_compute; reflexivity].
Defined.

Lemma general_cold_start_mismatch_witness :
  gv_shape g_two <> [length (default [] (tensors w_zero !! 1%positive))]
  /\ (general_conjugate_gradient bilinear g_two g_three [px 3] [py 2] None None None
        false true 1%positive (nums [1; 1; 1]) (nums [1; 1]) None None tol10 atol16
        w_zero).1
     = Raise (RuntimeError "CG: hessian vector product shape mismatch").
Proof.
  assert (H : gv_shape g_two <> [length (default [] (tensors w_zero !! 1%positive))]).
  { intros E. vm_compute in E. discriminate. }
  split; [exact H|].
  by rewrite (general_cold_start_mismatch bilinear g_two g_three [px 3] [py 2]
                None None None false true 1%positive (nums [1; 1; 1]) (nums [1; 1])
                None tol10 atol16 w_zero H).
Defined.
